(** * koishi / plugin-jsdelivr: the asset store over a git mirror

    A shallow embedding of [plugins/jsdelivr/src/index.ts]: branch naming,
    public URLs, the task queue with its hash index, the branch allocator,
    the batch processor ([mainLoop]) and the polling loop ([start]).

    Conventions.
    - A JavaScript [number] that the plugin only uses as an integer (branch
      ids, byte sizes, the capacity ceiling) is a [Z].
    - [Task] objects are shared between [taskQueue], [taskMap] and the batch
      being processed, and are mutated in place; they live in a store
      ([heap]) and are referred to by their index in it.
    - A promise created by [createTask] is a [nat]; calling one of its two
      callbacks is recorded as an event.
    - What the plugin asks of its collaborators (git, the file system, the
      database driver, the logger, the timer) is recorded in an event log;
      whether such a request fails is read from an oracle ([Env]). *)

From Stdlib Require Import ZArith NArith Ascii String List Lia.
From stdpp Require Import base option list gmap strings.

Local Open Scope string_scope.
Local Open Scope Z_scope.

(** ** Numbers as text *)

Module Number.

Definition alphabet : string := "0123456789abcdefghijklmnopqrstuvwxyz".

(** The digit of value [d] ([d < 36]). *)
Definition digitChar (d : N) : ascii :=
  match String.get (N.to_nat d) alphabet with
  | Some c => c
  | None => "?"%char
  end.

(** Digits of [n] in [radix], most significant first, in front of [acc]. *)
Fixpoint digitsFuel (fuel : nat) (radix n : N) (acc : string) : string :=
  match fuel with
  | O => acc
  | S k =>
      let acc' := String (digitChar (n mod radix)%N) acc in
      if (n / radix =? 0)%N then acc' else digitsFuel k radix (n / radix)%N acc'
  end.

Definition digits (radix n : N) : string :=
  digitsFuel (S (N.to_nat (N.log2 n))) radix n "".

(** [Number.prototype.toString(radix)] on an integer value. *)
Definition toString (radix : N) (z : Z) : string :=
  if z <? 0 then "-" ++ digits radix (Z.to_N (- z))
  else digits radix (Z.to_N z).

End Number.

(** [String.prototype.padStart(targetLength)] with its default fill, a
    single space (U+0020); a string that is long enough is returned as is. *)
Fixpoint spaces (n : nat) : string :=
  match n with
  | O => ""
  | S k => String " "%char (spaces k)
  end.

Definition padStart (targetLength : nat) (s : string) : string :=
  spaces (targetLength - String.length s) ++ s.

(** [function toBranchName(id) { return id.toString(36).padStart(8) }] *)
Definition toBranchName (id : Z) : string :=
  padStart 8 (Number.toString 36 id).

(** ** Configuration and records *)

Record GitHubConfig := {
  user : string;
  repo : string;
  token : string;
}.

Record Config := {
  github : GitHubConfig;
  tempDir : string;
  flushInterval : Z;
  maxBranchSize : Z;
}.

(** [FileBase] ([{ size, hash, name }]): what [upload] hands to [createTask].
    The interfaces [FileBase] and [File] are declared in [./file]; their
    fields here are the ones [index.ts] writes and reads. *)
Record FileBase := {
  fb_size : Z;
  fb_hash : string;
  fb_name : string;
}.

(** [File]: a durable row of the [jsdelivr] table. *)
Record File := {
  f_hash : string;
  f_name : string;
  f_size : Z;
  f_branch : Z;
}.

(** [toPublicUrl(file)]: the template literal interpolates [file.branch], a
    number, which JavaScript renders in decimal. *)
Definition toPublicUrl (cfg : Config) (file : File) : string :=
  "https://cdn.jsdelivr.net/gh/" ++ user (github cfg) ++ "/" ++ repo (github cfg)
    ++ "@" ++ Number.toString 10 (f_branch file)
    ++ "/" ++ f_hash file ++ "-" ++ f_name file.

(** ** Tasks, promises and the store of the plugin instance *)

(** A thrown value, identified with the text [e.toString()] gives. *)
Abbreviation Error := string (only parsing).

(** A reference to a [Task] object: its index in [heap]. *)
Abbreviation loc := nat (only parsing).

(** A [Task] object. [t_branch] stays [None] ([undefined]) until the batch
    processor assigns it. [resolvers] and [rejectors] hold the two callbacks
    of each promise waiting for the task, each named by its promise. *)
Record Task := {
  t_size : Z;
  t_hash : string;
  t_name : string;
  t_branch : option Z;
  resolvers : list nat;
  rejectors : list nat;
}.

(** Modelled from the spec: [new Task(this, file)] of [./file], which is not
    part of the sources at hand; a task starts with the fields of the file
    and no waiter. *)
Definition newTask (file : FileBase) : Task :=
  {| t_size := fb_size file; t_hash := fb_hash file; t_name := fb_name file;
     t_branch := None; resolvers := []; rejectors := [] |}.

(** Modelled from the spec: the getter [task.filename] of [./file], the
    name under which the bytes are stored in the working copy. *)
Definition filename (t : Task) : string := t_hash t ++ "-" ++ t_name t.

(** A task read as a row of the table ([Task implements File]). The branch
    of a task is only read after the batch processor has assigned it. *)
Definition asFile (t : Task) : File :=
  {| f_hash := t_hash t; f_name := t_name t; f_size := t_size t;
     f_branch := default 0 (t_branch t) |}.

(** What the plugin asks of the outside world, in the order it asks. *)
Inductive Event :=
| Sleep (ms : Z)
| Warn (msg : string)
| DbGetFirst
| DbSumSize (branch : Z)
| DbGetByHash (hash : string)
| DbUpsert (rows : list File)
| GitCheckoutOrphan (branchName : string)
| GitRmAll
| GitFetch (branchName : string)
| GitCheckoutForce (branchName : string)
| GitResetHard (ref : string)
| GitAdd (files : list string)
| GitCommit (message : string)
| GitPush (branchName : string)
| FsRename (hash : string)
| FsWriteFile (hash : string)
| HttpGet (url : string)
| CallResolve (promise : nat) (url : string)
| CallReject (promise : nat) (reason : Error).

Record State := {
  taskQueue : list loc;
  taskMap : gmap string loc;
  heap : list Task;
  isActive : bool;
  db : list File;
  nextPromise : nat;
  log : list Event;
}.

(** The instance after its constructor and before the [connect] event. *)
Definition initial : State :=
  {| taskQueue := []; taskMap := ∅; heap := []; isActive := false;
     db := []; nextPromise := 0; log := [] |}.

Definition setQueue (q : list loc) (st : State) : State :=
  {| taskQueue := q; taskMap := taskMap st; heap := heap st;
     isActive := isActive st; db := db st; nextPromise := nextPromise st;
     log := log st |}.

Definition setMap (m : gmap string loc) (st : State) : State :=
  {| taskQueue := taskQueue st; taskMap := m; heap := heap st;
     isActive := isActive st; db := db st; nextPromise := nextPromise st;
     log := log st |}.

Definition setHeap (h : list Task) (st : State) : State :=
  {| taskQueue := taskQueue st; taskMap := taskMap st; heap := h;
     isActive := isActive st; db := db st; nextPromise := nextPromise st;
     log := log st |}.

Definition setActive (b : bool) (st : State) : State :=
  {| taskQueue := taskQueue st; taskMap := taskMap st; heap := heap st;
     isActive := b; db := db st; nextPromise := nextPromise st;
     log := log st |}.

Definition setDb (d : list File) (st : State) : State :=
  {| taskQueue := taskQueue st; taskMap := taskMap st; heap := heap st;
     isActive := isActive st; db := d; nextPromise := nextPromise st;
     log := log st |}.

Definition setNextPromise (n : nat) (st : State) : State :=
  {| taskQueue := taskQueue st; taskMap := taskMap st; heap := heap st;
     isActive := isActive st; db := db st; nextPromise := n;
     log := log st |}.

Definition emit (ev : Event) (st : State) : State :=
  {| taskQueue := taskQueue st; taskMap := taskMap st; heap := heap st;
     isActive := isActive st; db := db st; nextPromise := nextPromise st;
     log := log st ++ [ev] |}.

(** ** The task queue *)

(** [task.resolvers.push(resolve); task.rejectors.push(reject)] *)
Definition addWaiter (p : nat) (t : Task) : Task :=
  {| t_size := t_size t; t_hash := t_hash t; t_name := t_name t;
     t_branch := t_branch t;
     resolvers := resolvers t ++ [p]; rejectors := rejectors t ++ [p] |}.

(** [createTask(file)]: the executor of the new promise runs at once. The
    result is the promise. *)
Definition createTask (file : FileBase) (st : State) : State * nat :=
  let p := nextPromise st in
  let st := setNextPromise (S p) st in
  let '(task, st) :=
    match taskMap st !! fb_hash file with
    | Some l => (l, st)
    | None =>
        let l := length (heap st) in
        let st := setHeap (heap st ++ [newTask file]) st in
        let st := setQueue (taskQueue st ++ [l]) st in
        let st := setMap (<[fb_hash file := l]> (taskMap st)) st in
        (l, st)
    end in
  (setHeap (alter (addWaiter p) task (heap st)) st, p).

(** The size of the task a reference points to. *)
Definition sizeOf (h : list Task) (l : loc) : Z :=
  from_option t_size 0 (h !! l).

(** The loop of [getTasks]: [size] is the running total, [queue] what is
    left of [taskQueue]; the result is the tasks shifted out and the queue
    that remains. *)
Fixpoint getTasksFrom (h : list Task) (available size : Z) (queue : list loc)
  : list loc * list loc :=
  match queue with
  | [] => ([], [])
  | task :: rest =>
      let size := size + sizeOf h task in
      if size >? available then ([], queue)
      else
        let '(tasks, queue') := getTasksFrom h available size rest in
        (task :: tasks, queue')
  end.

(** [getTasks(available)] *)
Definition getTasks (available : Z) (st : State) : State * list loc :=
  let '(tasks, queue') := getTasksFrom (heap st) available 0 (taskQueue st) in
  (setQueue queue' st, tasks).

(** ** Effects: state, exceptions, requests to the outside world *)

Inductive Result (A : Type) :=
| Ok (a : A)
| Throw (e : Error).
Arguments Ok {A} a.
Arguments Throw {A} e.

(** A computation over the instance that returns or throws. *)
Definition M (A : Type) : Type := State -> State * Result A.

Definition ret {A} (a : A) : M A := fun st => (st, Ok a).

Definition throw {A} (e : Error) : M A := fun st => (st, Throw e).

Definition bind {A B} (m : M A) (k : A -> M B) : M B :=
  fun st =>
    match m st with
    | (st', Ok a) => k a st'
    | (st', Throw e) => (st', Throw e)
    end.

Definition modify (f : State -> State) : M unit := fun st => (f st, Ok tt).

Definition gets {A} (f : State -> A) : M A := fun st => (st, Ok (f st)).

(** Runs a state change that cannot throw and returns its value. *)
Definition lift {A} (f : State -> State * A) : M A :=
  fun st => let '(st', a) := f st in (st', Ok a).

(** [try { m } catch (e) { h e }] *)
Definition tryCatch {A} (m : M A) (h : Error -> M A) : M A :=
  fun st =>
    match m st with
    | (st', Ok a) => (st', Ok a)
    | (st', Throw e) => h e st'
    end.

(** [try { m } finally { f }], for a [finally] block that does not throw. *)
Definition tryFinally {A} (m : M A) (f : State -> State) : M A :=
  fun st => let '(st', r) := m st in (f st', r).

Declare Scope m_scope.
Delimit Scope m_scope with M.
Notation "x <- m ;; k" := (bind m (fun x => k))
  (at level 100, m at level 99, right associativity) : m_scope.
Notation "m ;;; k" := (bind m (fun _ => k))
  (at level 100, right associativity) : m_scope.
Local Open Scope m_scope.

(** What happens around one iteration of the loop and is not decided by the
    plugin: which requests fail ([fails history request], the history being
    the log when the request is made), which calls of [createTask] the event
    loop runs while the iteration is suspended, and whether the [disconnect]
    event fires meanwhile. *)
Record Env := {
  fails : list Event -> Event -> option Error;
  whileWaiting : list FileBase;
  whileCommitting : list FileBase;
  disconnect : bool;
}.

(** One awaited request: it is logged, then succeeds or throws. *)
Definition request (env : Env) (ev : Event) : M unit :=
  fun st =>
    match fails env (log st) ev with
    | Some e => (emit ev st, Throw e)
    | None => (emit ev st, Ok tt)
    end.

(** The calls of [createTask] that run while the caller is suspended. *)
Definition arrive (files : list FileBase) (st : State) : State :=
  foldl (fun st file => (createTask file st).1) st files.

(** ** The branch allocator *)

Record Branch := {
  branch : Z;
  size : Z;
}.

(** [aggregate('jsdelivr', { size: { $sum: 'size' } }, { branch })] *)
Definition sumSize (rows : list File) (b : Z) : Z :=
  foldr Z.add 0 (f_size <$> filter (fun f => f_branch f = b) rows).

(** [getBranch(forceNew, offset)]; [get] with [limit: 1] and no order
    yields the first row the store has. *)
Definition getBranch (cfg : Config) (env : Env) (forceNew : bool) (offset : Z)
  : M Branch :=
  request env DbGetFirst ;;;
  rows <- gets db ;;
  match rows with
  | [] => ret {| branch := offset; size := 0 |}
  | file :: _ =>
      let b := f_branch file in
      if forceNew then ret {| branch := b + offset; size := 0 |}
      else
        request env (DbSumSize b) ;;;
        let size := sumSize rows b in
        if size >=? maxBranchSize cfg
        then ret {| branch := b + offset; size := 0 |}
        else ret {| branch := b; size := size |}
  end.

(** [checkout(forceNew, fetch, offset)] *)
Definition checkout (cfg : Config) (env : Env) (forceNew fetch : bool) (offset : Z)
  : M Branch :=
  res <- getBranch cfg env forceNew offset ;;
  let branchName := toBranchName (branch res) in
  (if size res =? 0 then
     request env (GitCheckoutOrphan branchName) ;;;
     request env GitRmAll
   else
     (if fetch then request env (GitFetch branchName) else ret tt) ;;;
     request env (GitCheckoutForce branchName) ;;;
     (if fetch then request env (GitResetHard ("origin/" ++ branchName)) else ret tt)) ;;;
  ret res.

(** ** The batch processor *)

Definition hashOf (h : list Task) (l : loc) : string :=
  from_option t_hash "" (h !! l).

(** [task.branch = branch.branch] *)
Definition assignBranch (b : Z) (t : Task) : Task :=
  {| t_size := t_size t; t_hash := t_hash t; t_name := t_name t;
     t_branch := Some b;
     resolvers := resolvers t; rejectors := rejectors t |}.

(** [tasks.map(async (task) => { task.branch = branch.branch; await
    rename(task.tempPath, task.savePath) })]: every callback runs up to its
    [await], so each task gets its branch and has its move requested before
    any move completes. The result is the first move that fails, if any. *)
Fixpoint moveAll (env : Env) (b : Z) (tasks : list loc) (st : State)
  : State * option Error :=
  match tasks with
  | [] => (st, None)
  | task :: rest =>
      let st := setHeap (alter (assignBranch b) task (heap st)) st in
      let ev := FsRename (hashOf (heap st) task) in
      let failure := fails env (log st) ev in
      let '(st, later) := moveAll env b rest (emit ev st) in
      (st, match failure with Some e => Some e | None => later end)
  end.

(** Modelled from the spec: [task.resolve()] of [./file]; every waiter of
    the task is resolved with the public URL of the task. *)
Definition resolveTask (cfg : Config) (st : State) (task : loc) : State :=
  match heap st !! task with
  | Some t =>
      foldl (fun st p => emit (CallResolve p (toPublicUrl cfg (asFile t))) st)
            st (resolvers t)
  | None => st
  end.

(** Modelled from the spec: [task.reject(e)] of [./file]; every waiter of
    the task is rejected with [e]. *)
Definition rejectTask (e : Error) (st : State) (task : loc) : State :=
  match heap st !! task with
  | Some t => foldl (fun st p => emit (CallReject p e) st) st (rejectors t)
  | None => st
  end.

(** [for (const file of tasks) this.taskMap.delete(file.hash)] *)
Definition forget (tasks : list loc) (st : State) : State :=
  setMap (foldl (fun m task => delete (hashOf (heap st) task) m) (taskMap st) tasks) st.

(** The rows [upsert] is given: the task objects themselves. *)
Definition rowsOf (tasks : list loc) (st : State) : list File :=
  omap (fun task => asFile <$> heap st !! task) tasks.

Definition filenamesOf (tasks : list loc) (st : State) : list string :=
  omap (fun task => filename <$> heap st !! task) tasks.

(** Modelled from the spec: [database.upsert('jsdelivr', rows)], which the
    sources at hand do not define; one durable record is stored per row. *)
Definition upsert (rows : list File) (st : State) : State :=
  setDb (db st ++ rows) st.

(** The body of the [try] block of [mainLoop]. *)
Definition commitBatch (cfg : Config) (env : Env) (b : Branch) (tasks : list loc)
  : M unit :=
  failure <- lift (moveAll env (branch b) tasks) ;;
  modify (arrive (whileCommitting env)) ;;;
  match failure with Some e => throw e | None => ret tt end ;;;
  files <- gets (filenamesOf tasks) ;;
  request env (GitAdd files) ;;;
  request env (GitCommit "upload") ;;;
  request env (GitPush (toBranchName (branch b))) ;;;
  rows <- gets (rowsOf tasks) ;;
  request env (DbUpsert rows) ;;;
  modify (upsert rows) ;;;
  modify (fun st => foldl (resolveTask cfg) st tasks).

(** The [catch] block of [mainLoop]. *)
Definition rejectBatch (tasks : list loc) (e : Error) : M unit :=
  modify (emit (Warn ("Errored processing files: " ++ e))) ;;;
  modify (fun st => foldl (rejectTask e) st tasks).

(** How an iteration of the loop ended when it did not throw. *)
Inductive Iteration :=
| Idle
| NoFit
| Settled (tasks : list loc) (failure : option Error).

(** [try { ... } catch (e) { ... } finally { ... }] of [mainLoop] *)
Definition processBatch (cfg : Config) (env : Env) (b : Branch) (tasks : list loc)
  : M Iteration :=
  tryFinally
    (tryCatch
       (commitBatch cfg env b tasks ;;; ret (Settled tasks None))
       (fun e => rejectBatch tasks e ;;; ret (Settled tasks (Some e))))
    (forget tasks).

Definition isEmpty {A} (l : list A) : bool :=
  match l with [] => true | _ => false end.

(** [mainLoop()] *)
Definition mainLoop (cfg : Config) (env : Env) : M Iteration :=
  queue <- gets taskQueue ;;
  if isEmpty queue then
    modify (emit (Sleep (flushInterval cfg))) ;;;
    modify (arrive (whileWaiting env)) ;;;
    ret Idle
  else
    modify (arrive (whileWaiting env)) ;;;
    b <- checkout cfg env false false 1 ;;
    tasks <- lift (getTasks (maxBranchSize cfg - size b)) ;;
    retry <-
      (if isEmpty tasks then
         b <- checkout cfg env true false 1 ;;
         tasks <- lift (getTasks (maxBranchSize cfg)) ;;
         ret (b, tasks)
       else ret (b, tasks)) ;;
    let '(b, tasks) := retry in
    if isEmpty tasks then ret NoFit
    else processBatch cfg env b tasks.

(** ** The polling loop *)

Inductive Loop :=
| Exited
| Running.

(** [start()]: one [Env] per iteration; when they are used up the loop is
    still [Running]. The [disconnect] event sets [isActive] to [false]
    while the iteration is suspended. *)
Fixpoint start (cfg : Config) (envs : list Env) (st : State) : State * Loop :=
  if isActive st then
    match envs with
    | [] => (st, Running)
    | env :: envs =>
        let '(st, r) := mainLoop cfg env st in
        let st := if disconnect env then setActive false st else st in
        let st :=
          match r with
          | Ok _ => st
          | Throw e => emit (Warn ("Loop failed: " ++ e)) st
          end in
        start cfg envs st
    end
  else (st, Exited).

(** The [connect] handler once [initRepo] has returned: [isActive = true],
    then [start()]. *)
Definition connect (cfg : Config) (envs : list Env) (st : State) : State * Loop :=
  start cfg envs (setActive true st).

(** ** The facade: [upload] *)

Inductive Upload :=
| Url (url : string)
| Pending (promise : nat).

Section Facade.

(** The collaborators [upload] computes with: the base64 decoder of
    [Buffer.from], the body an HTTP GET returns, the SHA-1 digest in
    hexadecimal, and the extension [fromBuffer] of [file-type] finds, if it
    finds one. *)
Variable decodeBase64 : string -> list Byte.byte.
Variable httpBody : string -> list Byte.byte.
Variable sha1hex : list Byte.byte -> string.
Variable sniffExt : list Byte.byte -> option string.

Definition PTC_BASE64 : string := "base64://".

(** [getAssetBuffer(url)] *)
Definition getAssetBuffer (env : Env) (url : string) : M (list Byte.byte) :=
  if String.prefix PTC_BASE64 url then
    ret (decodeBase64
           (String.substring (String.length PTC_BASE64)
              (String.length url - String.length PTC_BASE64) url))
  else
    request env (HttpGet url) ;;;
    ret (httpBody url).

(** [getFileName(buffer)]: destructuring [undefined] throws. *)
Definition getFileName (buffer : list Byte.byte) : M string :=
  match sniffExt buffer with
  | Some ext => ret ("untitled." ++ ext)
  | None => throw "TypeError: Cannot destructure property 'ext'"
  end.

(** [upload(url, name)]; [name] is [None] when the argument is left out,
    and [name ||= ...] also replaces the empty string. *)
Definition upload (cfg : Config) (env : Env) (url : string) (name : option string)
  : M Upload :=
  buffer <- getAssetBuffer env url ;;
  let hash := sha1hex buffer in
  request env (DbGetByHash hash) ;;;
  rows <- gets (fun st => filter (fun f => f_hash f = hash) (db st)) ;;
  match rows with
  | file :: _ => ret (Url (toPublicUrl cfg file))
  | [] =>
      name <-
        match name with
        | Some (String c s) => ret (String c s)
        | _ => getFileName buffer
        end ;;
      request env (FsWriteFile hash) ;;;
      p <- lift (createTask
                   {| fb_size := Z.of_nat (length buffer); fb_hash := hash;
                      fb_name := name |}) ;;
      ret (Pending p)
  end.

End Facade.

(** ** Vocabulary of the statements *)

Local Open Scope list_scope.

(** The bytes a list of tasks adds up to. *)
Definition total (h : list Task) (tasks : list loc) : Z :=
  foldr Z.add 0 (sizeOf h <$> tasks).

(** The store is well formed: the index points to tasks of the right hash,
    every queued task is the one indexed under its hash, and no task is
    queued twice. *)
Record wf (st : State) : Prop := {
  wf_index : forall hash l,
    taskMap st !! hash = Some l ->
    exists t, heap st !! l = Some t /\ t_hash t = hash;
  wf_queued : forall l,
    l ∈ taskQueue st ->
    exists t, heap st !! l = Some t /\ taskMap st !! t_hash t = Some l;
  wf_nodup : NoDup (taskQueue st);
}.

(** The store with further events at the end of its log. *)
Definition logged (evs : list Event) (st : State) : State :=
  {| taskQueue := taskQueue st; taskMap := taskMap st; heap := heap st;
     isActive := isActive st; db := db st; nextPromise := nextPromise st;
     log := log st ++ evs |}.

(** The requests that prepare a batch: reads of the table and checkouts. *)
Definition preparatory (ev : Event) : bool :=
  match ev with
  | DbGetFirst | DbSumSize _ | GitCheckoutOrphan _ | GitRmAll | GitFetch _
  | GitCheckoutForce _ | GitResetHard _ => true
  | _ => false
  end.

(** The calls of the callbacks of promises. *)
Definition isSettlement (ev : Event) : bool :=
  match ev with
  | CallResolve _ _ | CallReject _ _ => true
  | _ => false
  end.

Definition isUpsert (ev : Event) : bool :=
  match ev with
  | DbUpsert _ => true
  | _ => false
  end.

Definition isWriteFile (ev : Event) : bool :=
  match ev with
  | FsWriteFile _ => true
  | _ => false
  end.

(** The moves of the files of a batch into the working copy. *)
Definition isMove (ev : Event) : bool :=
  match ev with
  | FsRename _ => true
  | _ => false
  end.

(** The error of the first of [requests] that fails, each of them asked
    with the earlier ones in the log behind [history]. *)
Fixpoint firstFailure (env : Env) (history : list Event) (requests : list Event)
  : option Error :=
  match requests with
  | [] => None
  | ev :: rest =>
      match fails env history ev with
      | Some e => Some e
      | None => firstFailure env (history ++ [ev]) rest
      end
  end.

(** The calls [task.resolve()] makes for each task of a batch, in order. *)
Definition resolutions (cfg : Config) (h : list Task) (tasks : list loc) : list Event :=
  flat_map (fun task =>
              match h !! task with
              | Some t => (fun p => CallResolve p (toPublicUrl cfg (asFile t))) <$> resolvers t
              | None => []
              end) tasks.

(** The calls [task.reject(e)] makes for each task of a batch, in order. *)
Definition rejections (e : Error) (h : list Task) (tasks : list loc) : list Event :=
  flat_map (fun task =>
              match h !! task with
              | Some t => (fun p => CallReject p e) <$> rejectors t
              | None => []
              end) tasks.

(** No request fails. *)
Definition healthy (env : Env) : Prop :=
  forall history ev, fails env history ev = None.

(** A batch in flight: its tasks are in the store and indexed under their
    hash, and have left the queue. *)
Definition inflight (st : State) (tasks : list loc) : Prop :=
  forall l, l ∈ tasks ->
    (exists t, heap st !! l = Some t /\ taskMap st !! t_hash t = Some l) /\
    l ∉ taskQueue st.

(** The value of a digit and of a numeral, most significant digit first:
    the reading that [Number.digits] is checked against. *)
Fixpoint digitIndex (c : ascii) (digits : string) : N :=
  match digits with
  | EmptyString => 0
  | String c' rest => if Ascii.eqb c c' then 0 else N.succ (digitIndex c rest)
  end.

Fixpoint valueFrom (radix acc : N) (s : string) : N :=
  match s with
  | EmptyString => acc
  | String c rest => valueFrom radix (acc * radix + digitIndex c Number.alphabet) rest
  end.

Definition valueOf (radix : N) (s : string) : N := valueFrom radix 0 s.

(** The branch name as the specification words it: the id in base 36,
    padded on the left with zeros to eight characters. *)
Fixpoint zeros (n : nat) : string :=
  match n with
  | O => ""
  | S k => String "0"%char (zeros k)
  end.

Definition zeroPadded8 (id : Z) : string :=
  let s := Number.toString 36 id in
  (zeros (8 - String.length s) ++ s)%string.


(** The state in which the batch is settled: every task has its branch,
    the moves are requested, and the calls of [createTask] that arrived
    meanwhile have run. *)
Definition committing (env : Env) (b : Branch) (tasks : list loc) (st : State) : State :=
  arrive (whileCommitting env) (moveAll env (branch b) tasks st).1.

(** The git requests of [checkout] for the branch [getBranch] returned. *)
Definition checkoutRequests (fetch : bool) (res : Branch) : list Event :=
  let branchName := toBranchName (branch res) in
  if size res =? 0 then [GitCheckoutOrphan branchName; GitRmAll]
  else (if fetch then [GitFetch branchName] else [])
       ++ [GitCheckoutForce branchName]
       ++ (if fetch then [GitResetHard ("origin/" ++ branchName)%string] else []).

(** ** Scenarios the statements are tried on *)

(** The sizes 10, 10 and 30 queued in that order. *)
Definition queued_10_10_30 : State :=
  arrive [ {| fb_size := 10; fb_hash := "a"; fb_name := "a.png" |};
           {| fb_size := 10; fb_hash := "b"; fb_name := "b.png" |};
           {| fb_size := 30; fb_hash := "c"; fb_name := "c.png" |} ] initial.

(** A configuration with a ceiling of 25 bytes. *)
Definition tiny : Config :=
  {| github := {| user := "u"; repo := "r"; token := "t" |};
     tempDir := "/tmp"; flushInterval := 3000; maxBranchSize := 25 |}.

(** An iteration in which the push fails while one more caller asks for
    the first file. *)
Definition pushFails : Env :=
  {| fails := fun _ ev => match ev with GitPush _ => Some "push failed"%string | _ => None end;
     whileWaiting := [];
     whileCommitting := [ {| fb_size := 10; fb_hash := "a"; fb_name := "late.png" |} ];
     disconnect := false |}.

(** An iteration in which the commit fails. *)
Definition commitFails : Env :=
  {| fails := fun _ ev =>
       match ev with
       | GitCommit _ => Some "commit failed"%string
       | _ => None
       end;
     whileWaiting := []; whileCommitting := []; disconnect := false |}.

(** An iteration in which every request succeeds and nothing arrives. *)
Definition allGood : Env :=
  {| fails := fun _ _ => None; whileWaiting := []; whileCommitting := [];
     disconnect := false |}.

(** A store with one record of 30 bytes on branch 1, the ceiling being 25. *)
Definition oneRecord : State :=
  setDb [ {| f_hash := "a"; f_name := "a.png"; f_size := 30; f_branch := 1 |} ] initial.

(** A queue whose only task is larger than the ceiling, on an empty table. *)
Definition oversized : State :=
  arrive [ {| fb_size := 30; fb_hash := "c"; fb_name := "c.png" |} ] initial.

(** An iteration during which the database cannot be reached. *)
Definition databaseDown : Env :=
  {| fails := fun _ ev =>
       match ev with
       | DbGetFirst => Some "connection lost"%string
       | _ => None
       end;
     whileWaiting := []; whileCommitting := []; disconnect := false |}.


(** ** Vocabulary of the further statements *)

(** The branch [getBranch] returns when none of its requests fails. *)
Definition chooseBranch (cfg : Config) (forceNew : bool) (offset : Z) (rows : list File)
  : Branch :=
  match rows with
  | [] => {| branch := offset; size := 0 |}
  | file :: _ =>
      let b := f_branch file in
      if forceNew then {| branch := b + offset; size := 0 |}
      else if sumSize rows b >=? maxBranchSize cfg
           then {| branch := b + offset; size := 0 |}
           else {| branch := b; size := sumSize rows b |}
  end.

(** A task object later on: the same file, with the waiters it had, in the
    same order, and possibly more behind them. *)
Definition grown (t t' : Task) : Prop :=
  t_size t' = t_size t /\ t_hash t' = t_hash t /\ t_name t' = t_name t /\
  resolvers t `prefix_of` resolvers t' /\ rejectors t `prefix_of` rejectors t'.

(** Every task object of [h] is still there in [h'], grown. *)
Definition heapGrown (h h' : list Task) : Prop :=
  forall l t, h !! l = Some t -> exists t', h' !! l = Some t' /\ grown t t'.

Definition isSleep (ev : Event) : bool :=
  match ev with
  | Sleep _ => true
  | _ => false
  end.

(** ** Preparing the working copy: [initRepo] *)

(** What [initRepo] asks of the file system and of git before its
    [checkout]: [access(join(dir, name))], [mkdir(dir, { recursive: true })],
    [Git(config.git)], and the chain [init().addRemote().addConfig()]. *)
Inductive InitEvent :=
| FsAccess (dir name : string)
| FsMkdir (dir : string)
| GitOpen (baseDir : string)
| GitInit
| GitAddRemote (name url : string)
| GitAddConfig (key value : string).

(** Runs the steps in order until one fails: the steps requested, and the
    error of the one that failed, if any. [history] is what was requested
    before. *)
Fixpoint runInit (ifails : list InitEvent -> InitEvent -> option Error)
    (history steps : list InitEvent) : list InitEvent * option Error :=
  match steps with
  | [] => (history, None)
  | step :: rest =>
      match ifails history step with
      | Some e => (history ++ [step], Some e)
      | None => runInit ifails (history ++ [step]) rest
      end
  end.

(** The remote [initRepo] adds. *)
Definition remoteUrl (cfg : Config) : string :=
  "https://" ++ token (github cfg) ++ "@github.com/" ++ user (github cfg)
    ++ "/" ++ repo (github cfg) ++ ".git".

(** [initRepo()]; [baseDir] is [config.git.baseDir]. Any failure in the
    [try] block, of [access] or of [Git(...)], leads to the [catch] block,
    whose own failures are thrown. The result carries the steps requested
    besides the store. *)
Definition initRepo (cfg : Config) (baseDir : string)
    (ifails : list InitEvent -> InitEvent -> option Error) (env : Env) (st : State)
  : State * list InitEvent * Result unit :=
  match runInit ifails [] [FsAccess baseDir ".git"; GitOpen baseDir] with
  | (tried, None) => (st, tried, Ok tt)
  | (tried, Some _) =>
      match runInit ifails tried
              [FsMkdir baseDir; GitOpen baseDir; GitInit;
               GitAddRemote "origin" (remoteUrl cfg);
               GitAddConfig "core.autocrlf" "false"] with
      | (done, Some e) => (st, done, Throw e)
      | (done, None) =>
          match checkout cfg env false true 1 st with
          | (st', Ok _) => (st', done, Ok tt)
          | (st', Throw e) => (st', done, Throw e)
          end
      end
  end.

(** The [connect] handler: [await this.initRepo(); this.isActive = true;
    this.start()]. When [initRepo] throws, the handler ends there; the
    third component tells whether the loop was started and how it stands. *)
Definition onConnect (cfg : Config) (baseDir : string)
    (ifails : list InitEvent -> InitEvent -> option Error) (envInit : Env)
    (envs : list Env) (st : State) : State * list InitEvent * option Loop :=
  match initRepo cfg baseDir ifails envInit st with
  | (st1, steps, Ok _) =>
      let '(st2, loop) := start cfg envs (setActive true st1) in
      (st2, steps, Some loop)
  | (st1, steps, Throw _) => (st1, steps, None)
  end.

(** ** Queries: [packages/core/src/database.ts] and the MongoDB driver *)

(** A JavaScript object as its own enumerable properties, in the order
    [for ... in] visits them; property names are not array indices. *)
Fixpoint assign {V} (key : string) (v : V) (obj : list (string * V)) : list (string * V) :=
  match obj with
  | [] => [(key, v)]
  | (k, w) :: rest =>
      if String.eqb k key then (k, v) :: rest else (k, w) :: assign key v rest
  end.

Fixpoint property {V} (key : string) (obj : list (string * V)) : option V :=
  match obj with
  | [] => None
  | (k, w) :: rest => if String.eqb k key then Some w else property key rest
  end.

Fixpoint deleteProperty {V} (key : string) (obj : list (string * V)) : list (string * V) :=
  match obj with
  | [] => []
  | (k, w) :: rest => if String.eqb k key then deleteProperty key rest else (k, w) :: deleteProperty key rest
  end.

(** [{ ...a, ...b }] *)
Definition spread {V} (a b : list (string * V)) : list (string * V) :=
  foldl (fun obj kv => assign kv.1 kv.2 obj) a b.

(** A key or a value: a string or a number ([Query.IndexType]). *)
Inductive Scalar :=
| SString (s : string)
| SNumber (z : Z).

(** The argument of an operator of a [Query.FieldExpr]. *)
Inductive OpArg :=
| ArgScalar (v : Scalar)
| ArgList (vs : list Scalar)
| ArgRegExp (source : string).

(** [Query.FieldQuery]: a shorthand (a value, an array of values, a
    regular expression) or a [FieldExpr], an object of operators. *)
Inductive FieldQuery :=
| QValue (v : Scalar)
| QList (vs : list Scalar)
| QRegExp (source : string)
| QExpr (ops : list (string * OpArg)).

#[local] Set Warnings "-register-all".

(** One property of a [Query.Expr]; an [Expr] is the list of its
    properties. The key of a [Field] is the name of a column, not [$and],
    [$or] or [$not]. *)
Inductive Entry :=
| And (es : list (list Entry))
| Or (es : list (list Entry))
| Not (e : list Entry)
| Field (key : string) (q : FieldQuery).

(** What the driver builds. Under [$regexFor] the code stores an [$expr]
    whose [args] are ['$' + key] and the whole field expression. *)
Inductive FilterOp :=
| OpCopy (arg : OpArg)
| OpRegexFor (field : string) (whole : list (string * OpArg)).

Inductive FilterValue :=
| FEq (v : Scalar)
| FIn (vs : list Scalar)
| FOps (ops : list (string * FilterOp))
| FMany (fs : list (option (list (string * FilterValue))))
| FNot (f : option (list (string * FilterValue))).

Abbreviation Filter := (list (string * FilterValue)) (only parsing).

(** The inner loop of [transformQuery] over the operators of a field. *)
Definition copyOps (key : string) (ops : list (string * OpArg)) : list (string * FilterOp) :=
  foldl (fun obj kv =>
           if String.eqb kv.1 "$regexFor"
           then assign "$expr" (OpRegexFor ("$" ++ key) ops) obj
           else assign kv.1 (OpCopy kv.2) obj) [] ops.

(** One turn of the loop of [transformQuery]: the property it sets in
    [filter], or [None] where the code returns [undefined] (an empty array
    as the value of a field). *)
Fixpoint transformEntry (entry : Entry) : option (string * FilterValue) :=
  let fix run (filter : list (string * FilterValue)) (query : list Entry)
      : option (list (string * FilterValue)) :=
    match query with
    | [] => Some filter
    | e :: rest =>
        match transformEntry e with
        | Some (k, v) => run (assign k v filter) rest
        | None => None
        end
    end in
  match entry with
  | And es => Some ("$and", FMany (List.map (run []) es))
  | Or es => Some ("$or", FMany (List.map (run []) es))
  | Not e => Some ("$not", FNot (run [] e))
  | Field key (QValue v) => Some (key, FEq v)
  | Field key (QList []) => None
  | Field key (QList vs) => Some (key, FIn vs)
  | Field key (QRegExp _) => Some (key, FOps [])
  | Field key (QExpr ops) => Some (key, FOps (copyOps key ops))
  end.

(** The loop of [transformQuery], from the [filter] built so far. *)
Fixpoint transformInto (filter : list (string * FilterValue)) (query : list Entry)
  : option (list (string * FilterValue)) :=
  match query with
  | [] => Some filter
  | e :: rest =>
      match transformEntry e with
      | Some (k, v) => transformInto (assign k v filter) rest
      | None => None
      end
  end.

(** [transformQuery(query)]; [pending] stays empty, so the final [$and]
    is never added. [None] is [undefined]. *)
Definition transformQuery (query : list Entry) : option (list (string * FilterValue)) :=
  transformInto [] query.

(** A JavaScript value as documents and field defaults hold it. *)
Inductive Value :=
| VUndefined
| VNull
| VBool (b : bool)
| VNumber (z : Z)
| VString (s : string)
| VArray (vs : list Value)
| VObject (props : list (string * Value)).

Module Tables.

Inductive IdType :=
| random
| incremental.

(** [Field<T>] *)
Record FieldDef := {
  fd_type : string;
  fd_length : option Z;
  fd_nullable : option bool;
  fd_initial : option Value;
}.

(** [Tables.Meta] as [extend] receives it, every property optional (its
    [fields] are never read: the second argument is), and as [config]
    holds it. *)
Record Meta := {
  m_type : option IdType;
  m_primary : option string;
  m_unique : option (list (list string));
  m_foreign : option (list (string * (string * string)));
}.

Record TableConfig := {
  tc_type : IdType;
  tc_primary : string;
  tc_unique : list (list string);
  tc_foreign : list (string * (string * string));
  tc_fields : list (string * FieldDef);
}.

(** [Tables.extend(name, fields, meta)] on [Tables.config]. *)
Definition extend (name : string) (fields : list (string * FieldDef)) (meta : Meta)
    (config : gmap string TableConfig) : gmap string TableConfig :=
  let oldUnique := from_option tc_unique [] (config !! name) in
  let oldForeign := from_option tc_foreign [] (config !! name) in
  let oldFields := from_option tc_fields [] (config !! name) in
  <[name := {| tc_type := default incremental (m_type meta);
               tc_primary := default "id" (m_primary meta);
               tc_unique := oldUnique ++ default [] (m_unique meta);
               tc_foreign := spread oldForeign (default [] (m_foreign meta));
               tc_fields := spread oldFields fields |}]> config.

(** [Tables.create(name)]: the row of the defaults. [utils.clone] copies a
    value, which is the value itself here. *)
Definition create (config : gmap string TableConfig) (name : string)
  : Result (list (string * Value)) :=
  match config !! name with
  | None => Throw "TypeError: Cannot destructure property 'fields'"
  | Some c =>
      Ok (foldl (fun result kd =>
                   match fd_initial kd.2 with
                   | Some v => assign kd.1 v result
                   | None => result
                   end) [] (tc_fields c))
  end.

End Tables.

(** [Query<T>]: an expression, or a shorthand for the primary key (a
    value, an array of values, a regular expression). *)
Inductive Query :=
| ById (v : Scalar)
| ByIds (vs : list Scalar)
| ByRegExp (source : string)
| Full (expr : list Entry).

(** [Query.resolve(name, query)]; reading [primary] off a table that was
    never configured throws. *)
Definition resolve (config : gmap string Tables.TableConfig) (name : string) (query : Query)
  : Result (list Entry) :=
  let short (q : FieldQuery) :=
    match config !! name with
    | Some c => Ok [Field (Tables.tc_primary c) q]
    | None => Throw "TypeError: Cannot destructure property 'primary'"
    end in
  match query with
  | ById v => short (QValue v)
  | ByIds vs => short (QList vs)
  | ByRegExp source => short (QRegExp source)
  | Full expr => Ok expr
  end.

(** [createFilter(name, query)] of the MongoDB driver. Reading
    [filter[primary]] off [undefined] throws; a filter value is an object,
    hence truthy, but for the [undefined] that [$not] may hold. *)
Definition createFilter (config : gmap string Tables.TableConfig) (name : string)
    (query : Query) : Result (list (string * FilterValue)) :=
  match resolve config name query with
  | Throw e => Throw e
  | Ok expr =>
      match config !! name with
      | None => Throw "TypeError: Cannot destructure property 'primary'"
      | Some c =>
          match transformQuery expr with
          | None => Throw "TypeError: Cannot read properties of undefined"
          | Some filter =>
              match property (Tables.tc_primary c) filter with
              | Some (FNot None) | None => Ok filter
              | Some v => Ok (deleteProperty (Tables.tc_primary c) (assign "_id" v filter))
              end
          end
      end
  end.

(** [Query.Modifier]: nothing, an array of fields, or options. *)
Inductive Modifier :=
| NoModifier
| FieldList (fields : list string)
| ModifierOptions (fields : option (list string)) (limit offset : option Z).

Record Options := {
  o_fields : option (list string);
  o_limit : option Z;
  o_offset : option Z;
}.

(** [Query.resolveModifier(modifier)] *)
Definition resolveModifier (modifier : Modifier) : Options :=
  match modifier with
  | NoModifier => {| o_fields := None; o_limit := None; o_offset := None |}
  | FieldList fields => {| o_fields := Some fields; o_limit := None; o_offset := None |}
  | ModifierOptions fields limit offset =>
      {| o_fields := fields; o_limit := limit; o_offset := offset |}
  end.

(** A cursor as [get] leaves it before [toArray]: the filter, and what
    [project], [skip] and [limit] were called with, if they were. *)
Record Cursor := {
  c_filter : list (string * FilterValue);
  c_project : option (list string);
  c_skip : option Z;
  c_limit : option Z;
}.

(** [item[primary] ??= item._id] *)
Definition fillPrimary (primary : string) (item : list (string * Value))
  : list (string * Value) :=
  match property primary item with
  | Some VUndefined | Some VNull | None =>
      assign primary (default VUndefined (property "_id" item)) item
  | Some _ => item
  end.

(** [if (n)] on a number that may be missing. *)
Definition truthy (n : option Z) : bool :=
  match n with
  | Some z => negb (z =? 0)
  | None => false
  end.

(** [get(name, query, modifier)] of the MongoDB driver; [toArray] is what
    the database returns for a cursor. *)
Definition get (toArray : Cursor -> list (list (string * Value)))
    (config : gmap string Tables.TableConfig) (name : string) (query : Query)
    (modifier : Modifier) : Result (list (list (string * Value))) :=
  match createFilter config name query with
  | Throw e => Throw e
  | Ok filter =>
      let opts := resolveModifier modifier in
      let offset := default 0 (o_offset opts) in
      let cursor :=
        {| c_filter := filter;
           c_project := o_fields opts;
           c_skip := if truthy (Some offset) then Some offset else None;
           c_limit := if truthy (o_limit opts)
                      then Some (offset + default 0 (o_limit opts)) else None |} in
      let data := toArray cursor in
      match config !! name with
      | None => Throw "TypeError: Cannot destructure property 'primary'"
      | Some c =>
          match o_fields opts with
          | None => Throw "TypeError: Cannot read properties of undefined (reading 'includes')"
          | Some fields =>
              if bool_decide (Tables.tc_primary c ∈ fields)
              then Ok (fillPrimary (Tables.tc_primary c) <$> data)
              else Ok data
          end
      end
  end.

(** [if (v)] on a property that may be missing. *)
Definition isTruthy (v : option Value) : bool :=
  match v with
  | Some (VBool b) => b
  | Some (VNumber z) => negb (z =? 0)
  | Some (VString s) => negb (String.eqb s "")
  | Some (VArray _) | Some (VObject _) => true
  | Some VUndefined | Some VNull | None => false
  end.

(** [create(name, data)] of the MongoDB driver: the document it returns
    ([data], which it may have given an id) and the copy it hands to
    [insertOne], whose failure it ignores. [latest] is the largest [_id] of
    the collection, if it has a document (a number: the table counts its
    ids), and [randomId] what [Random.id()] returns. The [type] of a table
    declared through [Tables.extend] is always set, so [getFallbackType]
    is not evaluated. *)
Definition create (latest : option Z) (randomId : string)
    (config : gmap string Tables.TableConfig) (name : string)
    (data : list (string * Value))
  : Result (list (string * Value) * list (string * Value)) :=
  match config !! name with
  | None => Throw "TypeError: Cannot destructure property 'primary'"
  | Some meta =>
      let primary := Tables.tc_primary meta in
      if isTruthy (property primary data)
      then Ok (data,
               deleteProperty primary
                 (assign "_id" (default VUndefined (property primary data)) data))
      else
        let id :=
          match Tables.tc_type meta with
          | Tables.incremental =>
              VNumber (match latest with Some l => l + 1 | None => 1 end)
          | Tables.random => VString randomId
          end in
        Ok (assign primary id data, assign "_id" id data)
  end.

(** ** Escaping keys for MongoDB: [escapeKey] *)

(** [key.replace(/\./gmi, '_')] *)
Fixpoint replaceDots (key : string) : string :=
  match key with
  | EmptyString => EmptyString
  | String c rest => String (if Ascii.eqb c "."%char then "_"%char else c) (replaceDots rest)
  end.

(** The loop over [doc.timers] (and over [doc.usage]). *)
Definition escapeKeys (counters : list (string * Z)) : list (string * Z) :=
  foldl (fun obj kv =>
           if String.eqb kv.1 "$date" then assign "_date" kv.2 obj
           else assign (replaceDots kv.1) kv.2 obj) [] counters.

(** A partial [User]: [timers] and [usage] if present, and the rest. *)
Record UserDoc := {
  u_timers : option (list (string * Z));
  u_usage : option (list (string * Z));
  u_rest : list (string * Value);
}.

(** [escapeKey(doc)] *)
Definition escapeKey (doc : UserDoc) : UserDoc :=
  {| u_timers := escapeKeys <$> u_timers doc;
     u_usage := escapeKeys <$> u_usage doc;
     u_rest := u_rest doc |}.

(** The key a counter of [timers] or [usage] is stored under. *)
Definition escaped (key : string) : string :=
  if String.eqb key "$date" then "_date" else replaceDots key.

Fixpoint dotFree (key : string) : bool :=
  match key with
  | EmptyString => true
  | String c rest => negb (Ascii.eqb c "."%char) && dotFree rest
  end.

(** The top-level fields of an expression whose value is an empty array. *)
Definition emptyArrayField (e : Entry) : bool :=
  match e with
  | Field _ (QList []) => true
  | _ => false
  end.

(** The two tables [database.ts] declares when it is loaded. *)
Definition fieldOf (type : string) (length : option Z) (initial : option Value)
  : Tables.FieldDef :=
  {| Tables.fd_type := type; Tables.fd_length := length;
     Tables.fd_nullable := None; Tables.fd_initial := initial |}.

Definition noMeta : Tables.Meta :=
  {| Tables.m_type := None; Tables.m_primary := None;
     Tables.m_unique := None; Tables.m_foreign := None |}.

Definition userFields : list (string * Tables.FieldDef) :=
  [("id", fieldOf "string" (Some 50) None);
   ("name", fieldOf "string" (Some 50) None);
   ("flag", fieldOf "unsigned" (Some 20) (Some (VNumber 0)));
   ("authority", fieldOf "unsigned" (Some 4) (Some (VNumber 0)));
   ("usage", fieldOf "json" None (Some (VObject [])));
   ("timers", fieldOf "json" None (Some (VObject [])))].

Definition channelFields : list (string * Tables.FieldDef) :=
  [("id", fieldOf "string" (Some 50) None);
   ("flag", fieldOf "unsigned" (Some 20) (Some (VNumber 0)));
   ("assignee", fieldOf "string" (Some 50) None);
   ("disable", fieldOf "list" None (Some (VArray [])))].

Definition builtin : gmap string Tables.TableConfig :=
  Tables.extend "channel" channelFields noMeta
    (Tables.extend "user" userFields noMeta ∅).

(** * Proofs *)

(** ** The queue is drained in order *)

Lemma total_nil h : total h [] = 0.
Proof. reflexivity. Qed.

Lemma total_cons h task tasks : total h (task :: tasks) = sizeOf h task + total h tasks.
Proof. reflexivity. Qed.

Lemma getTasksFrom_split h available acc queue :
  queue = (getTasksFrom h available acc queue).1
          ++ (getTasksFrom h available acc queue).2.
Proof.
  revert acc. induction queue as [|task rest IH]; intros acc; simpl; [done|].
  destruct (acc + sizeOf h task >? available); simpl; [done|].
  specialize (IH (acc + sizeOf h task)).
  destruct (getTasksFrom h available (acc + sizeOf h task) rest) as [ts q'].
  simpl in *. by rewrite <- IH.
Qed.

Lemma getTasksFrom_within h available acc queue p :
  p `prefix_of` (getTasksFrom h available acc queue).1 ->
  p <> [] ->
  acc + total h p <= available.
Proof.
  revert acc p. induction queue as [|task rest IH]; intros acc p; simpl.
  - intros [k Hk] Hp. destruct p; [done|discriminate].
  - destruct (Z.gtb_spec (acc + sizeOf h task) available) as [Hgt|Hle]; simpl.
    + intros [k Hk] Hp. destruct p; [done|discriminate].
    + specialize (IH (acc + sizeOf h task)).
      destruct (getTasksFrom h available (acc + sizeOf h task) rest) as [ts q'].
      simpl in *. intros [k Hk] Hp. destruct p as [|x p]; [done|].
      injection Hk as <- Hk. rewrite total_cons.
      destruct p as [|y p].
      * rewrite total_nil. lia.
      * specialize (IH (y :: p)). rewrite Z.add_assoc. apply IH; [by exists k|done].
Qed.

Lemma getTasksFrom_stops h available acc queue next :
  head (getTasksFrom h available acc queue).2 = Some next ->
  acc + total h (getTasksFrom h available acc queue).1 + sizeOf h next > available.
Proof.
  revert acc. induction queue as [|task rest IH]; intros acc; simpl; [done|].
  destruct (Z.gtb_spec (acc + sizeOf h task) available) as [Hgt|Hle]; simpl.
  - intros [= <-]. rewrite total_nil. lia.
  - specialize (IH (acc + sizeOf h task)).
    destruct (getTasksFrom h available (acc + sizeOf h task) rest) as [ts q'].
    simpl in *. intros Hn. specialize (IH Hn).
    rewrite total_cons. lia.
Qed.

Lemma total_nonneg h tasks :
  Forall (fun task => 0 <= sizeOf h task) tasks -> 0 <= total h tasks.
Proof.
  induction 1 as [|x l Hx Hl IH]; [rewrite total_nil|rewrite total_cons]; lia.
Qed.

Lemma getTasksFrom_maximal h available acc queue p :
  Forall (fun task => 0 <= sizeOf h task) queue ->
  p `prefix_of` queue ->
  acc + total h p <= available ->
  p `prefix_of` (getTasksFrom h available acc queue).1.
Proof.
  revert acc p. induction queue as [|task rest IH]; intros acc p Hq [k Hk] Hp.
  - destruct p; [|discriminate]. simpl. by exists [].
  - destruct p as [|x p]; [apply prefix_nil|].
    injection Hk as <- Hk. inversion Hq as [|? ? Hx Hrest]; subst.
    assert (0 <= total h p).
    { apply total_nonneg. by apply Forall_app in Hrest as [? _]. }
    rewrite total_cons in Hp.
    simpl. destruct (Z.gtb_spec (acc + sizeOf h task) available) as [Hgt|Hle]; [lia|].
    specialize (IH (acc + sizeOf h task) p Hrest).
    destruct (getTasksFrom h available (acc + sizeOf h task) (p ++ k)) as [ts q'].
    simpl in *. apply prefix_cons, IH; [by exists k|lia].
Qed.

(** C3. [getTasks] shifts tasks off the front of the queue for as long as
    their running total stays within [available], and stops at the first
    task that would exceed it, whatever comes after: the queue splits into
    the tasks returned and the queue left, every non-empty prefix of the
    tasks returned fits the budget, the task left at the front does not fit
    on top of them, and with sizes that are byte counts the tasks returned
    are the longest prefix of the queue that fits. Nothing but the queue
    changes. *)
Theorem getTasks_maximal_prefix (st : State) (available : Z) :
  Forall (fun task => 0 <= sizeOf (heap st) task) (taskQueue st) ->
  let st' := (getTasks available st).1 in
  let tasks := (getTasks available st).2 in
  taskQueue st = tasks ++ taskQueue st' /\
  st' = setQueue (taskQueue st') st /\
  (forall p, p `prefix_of` tasks -> p <> [] -> total (heap st) p <= available) /\
  (forall next, head (taskQueue st') = Some next ->
     total (heap st) tasks + sizeOf (heap st) next > available) /\
  (forall p, p `prefix_of` taskQueue st -> total (heap st) p <= available ->
     p `prefix_of` tasks).
Proof.
  intros Hsizes. unfold getTasks.
  pose proof (getTasksFrom_split (heap st) available 0 (taskQueue st)) as Hsplit.
  pose proof (getTasksFrom_within (heap st) available 0 (taskQueue st)) as Hin.
  pose proof (getTasksFrom_stops (heap st) available 0 (taskQueue st)) as Hstop.
  pose proof (fun p => getTasksFrom_maximal (heap st) available 0 (taskQueue st) p Hsizes)
    as Hmax.
  destruct (getTasksFrom (heap st) available 0 (taskQueue st)) as [ts q'].
  simpl in *. repeat split; auto.
Qed.

Example getTasks_10_10_30_budget_25 :
  taskQueue queued_10_10_30 = [0; 1; 2]%nat /\
  (getTasks 25 queued_10_10_30).2 = [0; 1]%nat /\
  taskQueue (getTasks 25 queued_10_10_30).1 = [2]%nat.
Proof. vm_compute. done. Qed.

Lemma getTasks_maximal_prefix_witness :
  let st := queued_10_10_30 in
  Forall (fun task => 0 <= sizeOf (heap st) task) (taskQueue st) /\
  taskQueue st = (getTasks 25 st).2 ++ taskQueue (getTasks 25 st).1.
Proof.
  assert (H : Forall (fun task => 0 <= sizeOf (heap queued_10_10_30) task)
                     (taskQueue queued_10_10_30)).
  { repeat constructor; vm_compute; discriminate. }
  split; [exact H|].
  exact (proj1 (getTasks_maximal_prefix queued_10_10_30 25 H)).
Defined.


(** ** One task per hash *)

Lemma wf_initial : wf initial.
Proof.
  split; simpl.
  - intros hash l H. by rewrite lookup_empty in H.
  - intros l H. by apply elem_of_nil in H.
  - constructor.
Qed.

(** Mutating a task object in place keeps the store well formed as long as
    the hash of the task is left alone. *)
Lemma wf_alter (f : Task -> Task) (l : loc) (st : State) :
  (forall t, t_hash (f t) = t_hash t) ->
  wf st -> wf (setHeap (alter f l (heap st)) st).
Proof.
  intros Hf [Hidx Hq Hnd]. split; simpl; [| |done].
  - intros hash l' Hl'. destruct (Hidx hash l' Hl') as (t & Ht & Hh).
    destruct (decide (l = l')) as [->|Hne].
    + exists (f t). rewrite list_lookup_alter_eq, Ht. simpl. by rewrite Hf.
    + exists t. by rewrite list_lookup_alter_ne.
  - intros l' Hl'. destruct (Hq l' Hl') as (t & Ht & Hm).
    destruct (decide (l = l')) as [->|Hne].
    + exists (f t). rewrite list_lookup_alter_eq, Ht. simpl. by rewrite Hf.
    + exists t. by rewrite list_lookup_alter_ne.
Qed.

Lemma createTask_hit (file : FileBase) (st : State) (l : loc) :
  taskMap st !! fb_hash file = Some l ->
  createTask file st =
    (setHeap (alter (addWaiter (nextPromise st)) l (heap st))
       (setNextPromise (S (nextPromise st)) st),
     nextPromise st).
Proof. intros H. unfold createTask. simpl. by rewrite H. Qed.

Lemma createTask_miss (file : FileBase) (st : State) :
  taskMap st !! fb_hash file = None ->
  createTask file st =
    ({| taskQueue := taskQueue st ++ [length (heap st)];
        taskMap := <[fb_hash file := length (heap st)]> (taskMap st);
        heap := heap st ++ [addWaiter (nextPromise st) (newTask file)];
        isActive := isActive st; db := db st;
        nextPromise := S (nextPromise st); log := log st |},
     nextPromise st).
Proof.
  intros H. unfold createTask. simpl. rewrite H. simpl.
  unfold setHeap; simpl. f_equal. f_equal.
  assert (Hlen : length (heap st) = (length (heap st) + 0)%nat) by lia.
  rewrite Hlen at 1. by rewrite alter_app_r.
Qed.

(** What [createTask] leaves alone. *)
Lemma createTask_frame (file : FileBase) (st : State) :
  isActive (createTask file st).1 = isActive st /\
  db (createTask file st).1 = db st /\
  log (createTask file st).1 = log st.
Proof.
  destruct (taskMap st !! fb_hash file) as [l|] eqn:H.
  - by rewrite (createTask_hit _ _ _ H).
  - by rewrite (createTask_miss _ _ H).
Qed.

Lemma wf_createTask (file : FileBase) (st : State) :
  wf st -> wf (createTask file st).1.
Proof.
  intros Hwf. destruct (taskMap st !! fb_hash file) as [l|] eqn:H.
  - rewrite (createTask_hit _ _ _ H). simpl.
    apply (wf_alter _ l (setNextPromise _ st)); [done|].
    destruct Hwf; by split.
  - rewrite (createTask_miss _ _ H). simpl.
    destruct Hwf as [Hidx Hq Hnd]. split; simpl.
    + intros hash l Hl. destruct (decide (fb_hash file = hash)) as [<-|Hne].
      * rewrite lookup_insert_eq in Hl. injection Hl as <-.
        exists (addWaiter (nextPromise st) (newTask file)).
        split; [|done]. by rewrite lookup_app_r, Nat.sub_diag.
      * rewrite lookup_insert_ne in Hl by done.
        destruct (Hidx hash l Hl) as (t & Ht & Hh). exists t.
        split; [|done]. by apply lookup_app_l_Some.
    + intros l Hl. apply elem_of_app in Hl as [Hl|Hl].
      * destruct (Hq l Hl) as (t & Ht & Hm). exists t.
        split; [by apply lookup_app_l_Some|].
        rewrite lookup_insert_ne; [done|]. intros Heq. congruence.
      * apply list_elem_of_singleton in Hl as ->.
        exists (addWaiter (nextPromise st) (newTask file)).
        split; [by rewrite lookup_app_r, Nat.sub_diag|].
        simpl. by rewrite lookup_insert_eq.
    + apply NoDup_app. split; [done|]. split; [|apply NoDup_singleton].
      intros l Hl Hl'. apply list_elem_of_singleton in Hl' as ->.
      destruct (Hq _ Hl) as (t & Ht & _). apply lookup_lt_Some in Ht. lia.
Qed.

Lemma wf_arrive (files : list FileBase) (st : State) :
  wf st -> wf (arrive files st).
Proof.
  revert st. induction files as [|file files IH]; intros st Hwf; [done|].
  simpl. apply IH, wf_createTask, Hwf.
Qed.





(** ** What each step changes *)

Lemma logged_nil st : logged [] st = st.
Proof. destruct st. unfold logged. simpl. by rewrite app_nil_r. Qed.

Lemma logged_logged evs1 evs2 st :
  logged evs2 (logged evs1 st) = logged (evs1 ++ evs2) st.
Proof. unfold logged. simpl. by rewrite app_assoc. Qed.

Lemma emit_logged ev st : emit ev st = logged [ev] st.
Proof. reflexivity. Qed.

Lemma request_state env ev st : (request env ev st).1 = logged [ev] st.
Proof. unfold request. by destruct (fails env (log st) ev). Qed.

Lemma request_ok env ev st :
  fails env (log st) ev = None -> request env ev st = (logged [ev] st, Ok tt).
Proof. intros H. unfold request. by rewrite H. Qed.

Lemma setQueue_same st : setQueue (taskQueue st) st = st.
Proof. by destruct st. Qed.

(** [getBranch] only reads: it leaves the store as it is, up to the log. *)
Lemma getBranch_state cfg env forceNew offset st :
  exists evs,
    (getBranch cfg env forceNew offset st).1 = logged evs st /\
    forallb preparatory evs = true.
Proof.
  unfold getBranch, bind, gets, ret, request.
  destruct (fails env (log st) DbGetFirst); simpl; [by exists [DbGetFirst]|].
  destruct (db st) as [|file rows]; simpl; [by exists [DbGetFirst]|].
  destruct forceNew; simpl; [by exists [DbGetFirst]|].
  destruct (fails env _ (DbSumSize _)); simpl.
  - exists [DbGetFirst; DbSumSize (f_branch file)].
    by rewrite !emit_logged, logged_logged.
  - destruct (_ >=? _); exists [DbGetFirst; DbSumSize (f_branch file)];
      by rewrite !emit_logged, logged_logged.
Qed.

Lemma checkout_state cfg env forceNew fetch offset st :
  exists evs,
    (checkout cfg env forceNew fetch offset st).1 = logged evs st /\
    forallb preparatory evs = true.
Proof.
  unfold checkout. unfold bind at 1.
  destruct (getBranch_state cfg env forceNew offset st) as (evs & Hst & Hevs).
  destruct (getBranch cfg env forceNew offset st) as [st1 [res|e]]; simpl in *;
    subst st1; [|by exists evs].
  match goal with
  | |- exists evs0, ?X.1 = _ /\ _ =>
      cut (exists evs1, X.1 = logged evs1 (logged evs st) /\
                        forallb preparatory evs1 = true)
  end.
  { intros (evs1 & -> & H1). exists (evs ++ evs1).
    by rewrite logged_logged, forallb_app, Hevs, H1. }
  generalize (logged evs st). intros s0.
  unfold bind, request, ret.
  destruct (size res =? 0), fetch; simpl;
    repeat (match goal with
            | |- context [fails env ?h ?ev] => destruct (fails env h ev); simpl
            end);
    rewrite ?emit_logged, ?logged_logged;
    first [ eexists; split; [reflexivity|reflexivity]
          | exists []; split; [symmetry; apply logged_nil|reflexivity] ].
Qed.


(** ** The batch processor, step by step *)

Lemma foldl_emit {A} (f : A -> Event) (xs : list A) (st : State) :
  foldl (fun st x => emit (f x) st) st xs = logged (f <$> xs) st.
Proof.
  revert st. induction xs as [|x xs IH]; intros st; simpl.
  - by rewrite logged_nil.
  - by rewrite IH, emit_logged, logged_logged.
Qed.

Lemma resolveTask_logged cfg task st :
  resolveTask cfg st task = logged (resolutions cfg (heap st) [task]) st.
Proof.
  unfold resolveTask, resolutions. simpl.
  destruct (heap st !! task) as [t|]; simpl.
  - by rewrite foldl_emit, app_nil_r.
  - by rewrite logged_nil.
Qed.

Lemma resolveAll_logged cfg tasks st :
  foldl (resolveTask cfg) st tasks = logged (resolutions cfg (heap st) tasks) st.
Proof.
  revert st. induction tasks as [|task tasks IH]; intros st; simpl.
  - by rewrite logged_nil.
  - rewrite IH, resolveTask_logged, logged_logged.
    unfold resolutions; simpl. by rewrite app_nil_r.
Qed.

Lemma rejectTask_logged e task st :
  rejectTask e st task = logged (rejections e (heap st) [task]) st.
Proof.
  unfold rejectTask, rejections. simpl.
  destruct (heap st !! task) as [t|]; simpl.
  - by rewrite foldl_emit, app_nil_r.
  - by rewrite logged_nil.
Qed.

Lemma rejectAll_logged e tasks st :
  foldl (rejectTask e) st tasks = logged (rejections e (heap st) tasks) st.
Proof.
  revert st. induction tasks as [|task tasks IH]; intros st; simpl.
  - by rewrite logged_nil.
  - rewrite IH, rejectTask_logged, logged_logged.
    unfold rejections; simpl. by rewrite app_nil_r.
Qed.

Lemma processBatch_spec cfg env b tasks st :
  let st2 := committing env b tasks st in
  exists failure mid,
    processBatch cfg env b tasks st =
      (forget tasks
         (logged (mid ++ match failure with
                         | None => resolutions cfg (heap st2) tasks
                         | Some e => Warn ("Errored processing files: " ++ e)%string
                                       :: rejections e (heap st2) tasks
                         end)
            (match failure with
             | None => upsert (rowsOf tasks st2) st2
             | Some _ => st2
             end)),
       Ok (Settled tasks failure)) /\
    forallb (fun ev => negb (isSettlement ev)) mid = true /\
    (failure <> None ->
     (forall history rows, fails env history (DbUpsert rows) = None) ->
     forallb (fun ev => negb (isUpsert ev)) mid = true) /\
    (forall e, failure = Some e -> exists history ev, fails env history ev = Some e).
Proof.
  intros st2. subst st2. unfold committing.
  unfold processBatch, tryFinally, tryCatch, commitBatch, rejectBatch.
  unfold bind, lift, modify, gets, ret, throw, request.
  destruct (moveAll env (branch b) tasks st) as [st1 failure1] eqn:Hmove. simpl.
  set (st2 := arrive (whileCommitting env) st1).
  destruct failure1 as [e|]; simpl.
  { exists (Some e), []. simpl. rewrite rejectAll_logged, emit_logged, logged_logged.
    repeat split; try done.
    intros e' [= <-].
    clear -Hmove. revert st st1 Hmove. induction tasks as [|task tasks IH]; intros st st1; simpl.
    - discriminate.
    - destruct (moveAll env (branch b) tasks _) as [st3 later] eqn:Hrest.
      destruct (fails env _ (FsRename _)) eqn:Hf.
      + intros [= _ <-]. eauto.
      + intros [= _ ->]. eapply IH. exact Hrest. }
  repeat (match goal with
          | |- context [fails env ?h ?ev] =>
              let Hf := fresh "Hf" in destruct (fails env h ev) eqn:Hf; simpl
          end).
  all: rewrite ?rejectAll_logged, ?resolveAll_logged, ?emit_logged, ?logged_logged; simpl.
  - eexists (Some _), [_]. simpl. repeat split; try done.
    intros e' [= <-]. eauto.
  - eexists (Some _), [_; _]. simpl. repeat split; try done.
    intros e' [= <-]. eauto.
  - eexists (Some _), [_; _; _]. simpl. repeat split; try done.
    intros e' [= <-]. eauto.
  - eexists (Some _), [_; _; _; _]. simpl. repeat split; try done.
    + intros _ Hup. by rewrite Hup in Hf2.
    + intros e' [= <-]. eauto.
  - exists None, [GitAdd (filenamesOf tasks st2); GitCommit "upload";
                  GitPush (toBranchName (branch b)); DbUpsert (rowsOf tasks st2)].
    simpl. split; [|done]. f_equal.
    unfold forget, upsert, logged, setMap, setDb, rowsOf. simpl.
    by rewrite <- app_assoc.
Qed.


(** ** The invariant along an iteration *)

Lemma wf_logged evs st : wf st -> wf (logged evs st).
Proof. intros [? ? ?]. by split. Qed.

Lemma inflight_logged evs st tasks : inflight st tasks -> inflight (logged evs st) tasks.
Proof. done. Qed.

Lemma inflight_alter (f : Task -> Task) (l : loc) (st : State) tasks :
  (forall t, t_hash (f t) = t_hash t) ->
  inflight st tasks -> inflight (setHeap (alter f l (heap st)) st) tasks.
Proof.
  intros Hf Hin l' Hl'. destruct (Hin l' Hl') as [(t & Ht & Hm) Hq].
  split; [|done]. simpl. destruct (decide (l = l')) as [->|Hne].
  - exists (f t). rewrite list_lookup_alter_eq, Ht. simpl. by rewrite Hf.
  - exists t. by rewrite list_lookup_alter_ne.
Qed.

Lemma inflight_createTask file st tasks :
  inflight st tasks -> inflight (createTask file st).1 tasks.
Proof.
  intros Hin. destruct (taskMap st !! fb_hash file) as [l0|] eqn:H.
  - rewrite (createTask_hit _ _ _ H). simpl.
    by apply (inflight_alter _ l0 (setNextPromise _ st)).
  - rewrite (createTask_miss _ _ H). simpl.
    intros l Hl. destruct (Hin l Hl) as [(t & Ht & Hm) Hq]. simpl. split.
    + exists t. split; [by apply lookup_app_l_Some|].
      rewrite lookup_insert_ne; [done|]. congruence.
    + intros Hl'. apply elem_of_app in Hl' as [Hl'|Hl']; [done|].
      apply list_elem_of_singleton in Hl' as ->.
      apply lookup_lt_Some in Ht. lia.
Qed.

Lemma inflight_arrive files st tasks :
  inflight st tasks -> inflight (arrive files st) tasks.
Proof.
  revert st. induction files as [|file files IH]; intros st Hin; [done|].
  simpl. by apply IH, inflight_createTask.
Qed.

Lemma arrive_frame files st :
  isActive (arrive files st) = isActive st /\
  db (arrive files st) = db st /\
  log (arrive files st) = log st.
Proof.
  revert st. induction files as [|file files IH]; intros st; [done|].
  simpl. destruct (IH (createTask file st).1) as (-> & -> & ->).
  apply createTask_frame.
Qed.

Lemma moveAll_inv env b tasks batch st :
  let st' := (moveAll env b tasks st).1 in
  (wf st -> wf st') /\
  (inflight st batch -> inflight st' batch) /\
  taskQueue st' = taskQueue st /\
  taskMap st' = taskMap st /\
  isActive st' = isActive st /\
  db st' = db st /\
  exists evs, log st' = log st ++ evs /\
              forallb (fun ev => negb (isSettlement ev) && negb (isUpsert ev)) evs = true.
Proof.
  revert st. induction tasks as [|task tasks IH]; intros st; simpl.
  - split_and!; try done. exists []. by rewrite app_nil_r.
  - set (st1 := emit _ (setHeap (alter (assignBranch b) task (heap st)) st)).
    specialize (IH st1).
    destruct (moveAll env b tasks st1) as [st2 later]. simpl in *.
    destruct IH as (Hwf & Hin & Hq & Hm & Ha & Hd & evs & Hlog & Hevs).
    split_and!.
    + intros H. apply Hwf. subst st1. rewrite emit_logged.
      by apply wf_logged, wf_alter.
    + intros H. apply Hin. subst st1. rewrite emit_logged.
      by apply inflight_logged, inflight_alter.
    + by rewrite Hq.
    + by rewrite Hm.
    + by rewrite Ha.
    + by rewrite Hd.
    + eexists (_ :: evs). rewrite Hlog. subst st1. simpl.
      rewrite <- app_assoc. split; [reflexivity|]. simpl. exact Hevs.
Qed.

Lemma getTasks_inv available st :
  let st' := (getTasks available st).1 in
  let tasks := (getTasks available st).2 in
  st' = setQueue (taskQueue st') st /\
  taskQueue st = tasks ++ taskQueue st' /\
  (wf st -> wf st' /\ inflight st' tasks).
Proof.
  unfold getTasks.
  pose proof (getTasksFrom_split (heap st) available 0 (taskQueue st)) as Hsplit.
  destruct (getTasksFrom (heap st) available 0 (taskQueue st)) as [ts q'].
  simpl in *. split_and!; try done.
  intros Hwf. pose proof (wf_nodup st Hwf) as Hnd. rewrite Hsplit in Hnd.
  apply NoDup_app in Hnd as (_ & Hdisj & Hnd'). split; [split|]; simpl.
  - by apply wf_index.
  - intros l Hl. apply (wf_queued st); [done|].
    rewrite Hsplit. apply elem_of_app. by right.
  - done.
  - intros l Hl. split; simpl; [|by apply Hdisj].
    apply (wf_queued st); [done|].
    rewrite Hsplit. apply elem_of_app. by left.
Qed.

Lemma forget_lookup_batch tasks st l :
  l ∈ tasks -> taskMap (forget tasks st) !! hashOf (heap st) l = None.
Proof.
  unfold forget. simpl. generalize (taskMap st).
  induction tasks as [|task tasks IH]; intros m Hl; simpl.
  - by apply elem_of_nil in Hl.
  - apply elem_of_cons in Hl as [->|Hl].
    + clear IH. generalize (delete (hashOf (heap st) task) m) (lookup_delete_eq m (hashOf (heap st) task)).
      induction tasks as [|x tasks IH]; intros m' Hm'; simpl; [done|].
      apply IH. rewrite lookup_delete. by case_decide.
    + by apply IH.
Qed.

Lemma forget_lookup_other tasks st hash :
  (forall l, l ∈ tasks -> hashOf (heap st) l <> hash) ->
  taskMap (forget tasks st) !! hash = taskMap st !! hash.
Proof.
  unfold forget. simpl. generalize (taskMap st).
  induction tasks as [|task tasks IH]; intros m Hne; simpl; [done|].
  rewrite IH.
  - apply lookup_delete_ne, Hne, elem_of_cons. by left.
  - intros l Hl. apply Hne, elem_of_cons. by right.
Qed.

Lemma forget_lookup_Some tasks st hash l :
  taskMap (forget tasks st) !! hash = Some l -> taskMap st !! hash = Some l.
Proof.
  unfold forget. simpl. generalize (taskMap st).
  induction tasks as [|task tasks IH]; intros m; simpl; [done|].
  intros H. apply IH in H. rewrite lookup_delete in H. by case_decide.
Qed.

Lemma wf_forget tasks st :
  wf st -> inflight st tasks -> wf (forget tasks st).
Proof.
  intros Hwf Hin. split.
  - intros hash l H. apply forget_lookup_Some in H. by apply (wf_index st).
  - intros l Hl. simpl in Hl. destruct (wf_queued st Hwf l Hl) as (t & Ht & Hm).
    exists t. split; [done|]. rewrite forget_lookup_other; [done|].
    intros l' Hl' Heq. destruct (Hin l' Hl') as [(t' & Ht' & Hm') Hq].
    unfold hashOf in Heq. rewrite Ht' in Heq. simpl in Heq.
    rewrite Heq in Hm'. congruence.
  - by apply (wf_nodup st).
Qed.


(** ** One iteration *)

Lemma getTasks_frame available st :
  let st' := (getTasks available st).1 in
  heap st' = heap st /\ taskMap st' = taskMap st /\ isActive st' = isActive st /\
  db st' = db st /\ log st' = log st.
Proof.
  unfold getTasks.
  by destruct (getTasksFrom (heap st) available 0 (taskQueue st)).
Qed.

Lemma processBatch_result cfg env b tasks st :
  exists failure, (processBatch cfg env b tasks st).2 = Ok (Settled tasks failure).
Proof.
  destruct (processBatch_spec cfg env b tasks st) as (f & mid & -> & _). by exists f.
Qed.

(** The three ways an iteration goes: it sleeps on an empty queue; it ends
    before any task has left the queue, because a checkout threw or because
    nothing fits; or it goes through [processBatch] from a store that
    differs from the initial one by the arrivals, the requests of the
    checkouts and the tasks taken off the queue. *)
Lemma mainLoop_cases cfg env st :
  (taskQueue st = [] /\
   mainLoop cfg env st =
     (arrive (whileWaiting env) (logged [Sleep (flushInterval cfg)] st), Ok Idle)) \/
  (taskQueue st <> [] /\
   exists pre,
     (mainLoop cfg env st).1 = logged pre (arrive (whileWaiting env) st) /\
     forallb preparatory pre = true /\
     ((mainLoop cfg env st).2 = Ok NoFit \/ exists e, (mainLoop cfg env st).2 = Throw e)) \/
  (taskQueue st <> [] /\
   exists b st1 pre tasks,
     mainLoop cfg env st = processBatch cfg env b tasks st1 /\
     tasks <> [] /\
     (wf st -> wf st1 /\ inflight st1 tasks) /\
     log st1 = log st ++ pre /\
     forallb preparatory pre = true /\
     db st1 = db st /\
     isActive st1 = isActive st).
Proof.
  destruct (mainLoop cfg env st) as [st' r] eqn:Hres. revert Hres.
  unfold mainLoop. unfold bind at 1. unfold gets. simpl.
  destruct (taskQueue st) as [|l0 q0] eqn:Hqueue; simpl.
  { unfold bind, modify, ret. simpl. intros [= <- <-]. by left. }
  unfold bind at 1. unfold modify. simpl.
  set (sA := arrive (whileWaiting env) st).
  destruct (arrive_frame (whileWaiting env) st) as (HaA & HdA & HlA). fold sA in HaA, HdA, HlA.
  unfold bind at 1.
  destruct (checkout_state cfg env false false 1 sA) as (evs & HsB & Hevs).
  destruct (checkout cfg env false false 1 sA) as [sB [b|e]]; simpl in HsB; subst sB.
  2:{ intros [= <- <-]. right; left. split; [done|]. exists evs. simpl. split_and!; eauto. }
  unfold bind at 1. unfold lift.
  destruct (getTasks_inv (maxBranchSize cfg - size b) (logged evs sA)) as (HsC & HqC & HwfC).
  destruct (getTasks_frame (maxBranchSize cfg - size b) (logged evs sA))
    as (HhC & HmC & HaC & HdC & HlC).
  destruct (getTasks (maxBranchSize cfg - size b) (logged evs sA)) as [sC ts].
  simpl in HsC, HqC, HwfC, HhC, HmC, HaC, HdC, HlC.
  unfold bind at 1.
  destruct ts as [|t0 ts]; simpl.
  - (* nothing fits: a second checkout and a second drain *)
    assert (sC = logged evs sA) as ->.
    { rewrite HsC. simpl in HqC. rewrite <- HqC. exact (setQueue_same (logged evs sA)). }
    unfold bind at 1.
    destruct (checkout_state cfg env true false 1 (logged evs sA)) as (evs2 & HsD & Hevs2).
    destruct (checkout cfg env true false 1 (logged evs sA)) as [sD [b2|e]];
      simpl in HsD; subst sD; rewrite logged_logged.
    2:{ intros [= <- <-]. right; left. split; [done|]. exists (evs ++ evs2). simpl.
        rewrite forallb_app, Hevs, Hevs2. split_and!; eauto. }
    unfold bind at 1. unfold lift.
    destruct (getTasks_inv (maxBranchSize cfg) (logged (evs ++ evs2) sA)) as (HsE & HqE & HwfE).
    destruct (getTasks_frame (maxBranchSize cfg) (logged (evs ++ evs2) sA))
      as (HhE & HmE & HaE & HdE & HlE).
    destruct (getTasks (maxBranchSize cfg) (logged (evs ++ evs2) sA)) as [sE ts2].
    simpl in HsE, HqE, HwfE, HhE, HmE, HaE, HdE, HlE. simpl.
    destruct ts2 as [|t2 ts2]; simpl.
    + intros [= <- <-]. right; left. split; [done|]. exists (evs ++ evs2).
      rewrite forallb_app, Hevs, Hevs2. split_and!; eauto.
      simpl. rewrite HsE. simpl in HqE. rewrite <- HqE.
      exact (setQueue_same (logged (evs ++ evs2) sA)).
    + intros <-. right; right. split; [done|].
      exists b2, sE, (evs ++ evs2), (t2 :: ts2). split_and!; try done.
      * intros Hwf. by apply HwfE, wf_logged, wf_arrive.
      * by rewrite HlE, HlA.
      * by rewrite forallb_app, Hevs, Hevs2.
      * by rewrite HdE, HdA.
      * by rewrite HaE, HaA.
  - intros <-. right; right. split; [done|].
    exists b, sC, evs, (t0 :: ts). split_and!; try done.
    + intros Hwf. by apply HwfC, wf_logged, wf_arrive.
    + by rewrite HlC, HlA.
    + by rewrite HdC, HdA.
    + by rewrite HaC, HaA.
Qed.

(** What [processBatch] leaves behind. *)
Lemma processBatch_settled cfg env b tasks st :
  let st2 := committing env b tasks st in
  let st' := (processBatch cfg env b tasks st).1 in
  exists failure evs,
    (processBatch cfg env b tasks st).2 = Ok (Settled tasks failure) /\
    heap st' = heap st2 /\
    taskQueue st' = taskQueue st2 /\
    taskMap st' = taskMap (forget tasks st2) /\
    isActive st' = isActive st /\
    forallb (fun ev => negb (isSettlement ev)) evs = true /\
    match failure with
    | None =>
        db st' = db st ++ rowsOf tasks st' /\
        log st' = log st ++ evs ++ resolutions cfg (heap st') tasks
    | Some e =>
        db st' = db st /\
        log st' = log st ++ evs ++ rejections e (heap st') tasks /\
        (exists history ev, fails env history ev = Some e) /\
        ((forall history rows, fails env history (DbUpsert rows) = None) ->
         forallb (fun ev => negb (isUpsert ev)) evs = true)
    end /\
    (wf st -> inflight st tasks ->
     wf st' /\
     forall l, l ∈ tasks ->
       taskMap st' !! hashOf (heap st') l = None /\ l ∉ taskQueue st').
Proof.
  intros st2 st'. subst st'.
  destruct (processBatch_spec cfg env b tasks st) as (failure & mid & Heq & Hmid & Hup & Herr).
  fold st2 in Heq. rewrite Heq. simpl.
  pose proof (moveAll_inv env (branch b) tasks tasks st) as Hmove. simpl in Hmove.
  destruct Hmove as (Hwf1 & Hin1 & Hq1 & Hm1 & Ha1 & Hd1 & moves & Hl1 & Hmoves).
  destruct (arrive_frame (whileCommitting env) (moveAll env (branch b) tasks st).1)
    as (Ha2 & Hd2 & Hl2).
  fold (committing env b tasks st) in Ha2, Hd2, Hl2. fold st2 in Ha2, Hd2, Hl2.
  assert (Hmoves1 : forallb (fun ev => negb (isSettlement ev)) moves = true).
  { clear -Hmoves. induction moves as [|ev moves IH]; [done|]. simpl in *.
    apply andb_prop in Hmoves as [Hev ?]. apply andb_prop in Hev as [-> _]. by apply IH. }
  assert (Hmoves2 : forallb (fun ev => negb (isUpsert ev)) moves = true).
  { clear -Hmoves. induction moves as [|ev moves IH]; [done|]. simpl in *.
    apply andb_prop in Hmoves as [Hev ?]. apply andb_prop in Hev as [_ ->]. by apply IH. }
  exists failure.
  exists (moves ++ mid ++ match failure with
                          | None => []
                          | Some e => [Warn ("Errored processing files: " ++ e)%string]
                          end).
  split; [done|]. split; [by destruct failure|]. split; [by destruct failure|].
  split; [by destruct failure|].
  split; [destruct failure; simpl; congruence|].
  split.
  { rewrite !forallb_app, Hmoves1, Hmid. by destruct failure. }
  split.
  { destruct failure as [e|]; simpl.
    - split; [congruence|]. split.
      { rewrite Hl2, Hl1. rewrite <- !app_assoc. simpl. reflexivity. }
      split; [by apply Herr|].
      intros Hhealthy. rewrite !forallb_app, Hmoves2, Hup; done.
    - split.
      { rewrite Hd2, Hd1. done. }
      rewrite Hl2, Hl1, app_nil_r. by rewrite <- !app_assoc. }
  intros Hwf Hin.
  assert (Hwf2 : wf st2) by by apply wf_arrive, Hwf1.
  assert (Hin2 : inflight st2 tasks) by by apply inflight_arrive, Hin1.
  assert (Hfinal : forall s, heap s = heap st2 -> taskQueue s = taskQueue st2 ->
                             taskMap s = taskMap st2 ->
                             wf (forget tasks s) /\
                             forall l, l ∈ tasks ->
                               taskMap (forget tasks s) !! hashOf (heap s) l = None /\
                               l ∉ taskQueue s).
  { intros s Hh Hq Hm.
    assert (wf s).
    { destruct Hwf2 as [Hi Hqd Hnd]. split.
      - intros hash l. rewrite Hm, Hh. apply Hi.
      - intros l. rewrite Hq, Hm, Hh. apply Hqd.
      - by rewrite Hq. }
    assert (inflight s tasks).
    { intros l Hl. destruct (Hin2 l Hl) as [? ?]. by rewrite Hh, Hm, Hq. }
    split; [by apply wf_forget|].
    intros l Hl. split; [by apply forget_lookup_batch|].
    rewrite Hq. by apply Hin2. }
  destruct failure as [e|].
  - exact (Hfinal (logged _ st2) eq_refl eq_refl eq_refl).
  - exact (Hfinal (logged _ (upsert _ st2)) eq_refl eq_refl eq_refl).
Qed.


Lemma wf_mainLoop cfg env st : wf st -> wf (mainLoop cfg env st).1.
Proof.
  intros Hwf.
  destruct (mainLoop_cases cfg env st)
    as [[_ ->]|[(_ & pre & -> & _)|(_ & b & st1 & pre & tasks & -> & _ & Hst1 & _)]].
  - simpl. by apply wf_arrive, wf_logged.
  - by apply wf_logged, wf_arrive.
  - destruct (Hst1 Hwf) as [Hwf1 Hin1].
    destruct (processBatch_settled cfg env b tasks st1) as (f & evs & _ & _ & _ & _ & _ & _ & _ & H).
    by apply H.
Qed.

(** ** The requests of a batch and the one that fails *)

Lemma firstFailure_app env history a b :
  firstFailure env history (a ++ b) =
  match firstFailure env history a with
  | Some e => Some e
  | None => firstFailure env (history ++ a) b
  end.
Proof.
  revert history. induction a as [|ev a IH]; intros history; simpl.
  - by rewrite app_nil_r.
  - destruct (fails env history ev); [done|]. rewrite IH. by rewrite <- app_assoc.
Qed.

(** Every move is requested, and the moves fail with the error of the
    first of them that fails. *)
Lemma moveAll_failure env b tasks st :
  exists moves,
    log (moveAll env b tasks st).1 = log st ++ moves /\
    forallb isMove moves = true /\
    (moveAll env b tasks st).2 = firstFailure env (log st) moves.
Proof.
  revert st. induction tasks as [|task tasks IH]; intros st; simpl.
  - exists []. by rewrite app_nil_r.
  - set (st1 := emit _ (setHeap (alter (assignBranch b) task (heap st)) st)).
    destruct (IH st1) as (moves & Hlog & Hmv & Hf).
    destruct (moveAll env b tasks st1) as [st2 later]. simpl in *.
    eexists (_ :: moves). split_and!.
    + rewrite Hlog. subst st1. simpl. by rewrite <- app_assoc.
    + done.
    + simpl. rewrite Hf. subst st1. simpl. reflexivity.
Qed.

Ltac first_failure :=
  rewrite ?firstFailure_app;
  repeat (cbn [firstFailure]; rewrite <- ?app_assoc; cbn [app];
          match goal with
          | H : fails _ ?h ?ev = _ |- context [fails _ ?h ?ev] => rewrite H
          | H : None = firstFailure _ ?h ?evs |- context [firstFailure _ ?h ?evs] =>
              rewrite <- H
          end).

Ltac not_among :=
  let Hin := fresh "Hin" in
  intros Hin;
  repeat (apply elem_of_cons in Hin as [Hin|Hin]; [discriminate|]);
  by apply elem_of_nil in Hin.

(** The requests of [processBatch]: every move, then the add, the commit,
    the push and the upsert, in this order, up to the first that fails; the
    batch fails with the error of the first request that fails, and the
    upsert is requested only when no move and none of the add, the commit
    and the push has failed. *)
Lemma processBatch_requests cfg env b tasks st :
  let st2 := committing env b tasks st in
  let push := [GitAdd (filenamesOf tasks st2); GitCommit "upload";
               GitPush (toBranchName (branch b))] in
  let store := DbUpsert (rowsOf tasks st2) in
  exists failure moves made,
    (processBatch cfg env b tasks st).2 = Ok (Settled tasks failure) /\
    log (processBatch cfg env b tasks st).1
      = log st ++ moves ++ made
          ++ match failure with
             | None => resolutions cfg (heap st2) tasks
             | Some e => Warn ("Errored processing files: " ++ e)%string
                           :: rejections e (heap st2) tasks
             end /\
    forallb isMove moves = true /\
    made `prefix_of` push ++ [store] /\
    failure = firstFailure env (log st) (moves ++ push ++ [store]) /\
    (store ∈ made <-> firstFailure env (log st) (moves ++ push) = None) /\
    (firstFailure env (log st) (moves ++ push) <> None ->
     forallb (fun ev => negb (isUpsert ev)) made = true).
Proof.
  intros st2 push store.
  destruct (moveAll_failure env (branch b) tasks st) as (moves & Hlog & Hmv & Hfail).
  assert (Hlog2 : log st2 = log st ++ moves).
  { subst st2. unfold committing.
    destruct (arrive_frame (whileCommitting env) (moveAll env (branch b) tasks st).1)
      as (_ & _ & ->). exact Hlog. }
  subst push store. revert Hlog2. subst st2. unfold committing.
  unfold processBatch, tryFinally, tryCatch, commitBatch, rejectBatch.
  unfold bind, lift, modify, gets, ret, throw, request.
  destruct (moveAll env (branch b) tasks st) as [st1 failure1] eqn:Hmove. simpl in *.
  set (st2 := arrive (whileCommitting env) st1). intros Hlog2.
  destruct failure1 as [e|]; simpl.
  { exists (Some e), moves, []. simpl.
    rewrite rejectAll_logged, emit_logged, logged_logged. simpl.
    rewrite Hlog2, !firstFailure_app, <- Hfail.
    split_and!; try done.
    - by rewrite <- !app_assoc.
    - apply prefix_nil.
    - split; [|done]. intros Hin. by apply elem_of_nil in Hin. }
  repeat (match goal with
          | |- context [fails env ?h ?ev] =>
              let Hf := fresh "Hf" in destruct (fails env h ev) eqn:Hf; simpl
          end).
  all: rewrite ?rejectAll_logged, ?resolveAll_logged, ?emit_logged, ?logged_logged; simpl.
  all: rewrite Hlog2 in *.
  all: rewrite <- ?app_assoc in *; simpl in *.
  all: change (rowsOf tasks (emit (GitPush (toBranchName (branch b)))
                 (emit (GitCommit "upload") (emit (GitAdd (filenamesOf tasks st2)) st2))))
         with (rowsOf tasks st2) in *.
  - eexists (Some _), moves, [GitAdd (filenamesOf tasks st2)].
    first_failure. split_and!; try done.
    + by exists [GitCommit "upload"; GitPush (toBranchName (branch b));
                 DbUpsert (rowsOf tasks st2)].
    + split; [not_among | done].
  - eexists (Some _), moves, [GitAdd (filenamesOf tasks st2); GitCommit "upload"].
    first_failure. split_and!; try done.
    + by exists [GitPush (toBranchName (branch b)); DbUpsert (rowsOf tasks st2)].
    + split; [not_among | done].
  - eexists (Some _), moves, [GitAdd (filenamesOf tasks st2); GitCommit "upload";
                              GitPush (toBranchName (branch b))].
    first_failure. split_and!; try done.
    + by exists [DbUpsert (rowsOf tasks st2)].
    + split; [not_among | done].
  - eexists (Some _), moves, [GitAdd (filenamesOf tasks st2); GitCommit "upload";
                              GitPush (toBranchName (branch b));
                              DbUpsert (rowsOf tasks st2)].
    first_failure. split_and!; try done.
    split; [done|]. intros _. do 3 right. left.
  - exists None, moves, [GitAdd (filenamesOf tasks st2); GitCommit "upload";
                         GitPush (toBranchName (branch b));
                         DbUpsert (rowsOf tasks st2)].
    first_failure. split_and!; try done.
    split; [done|]. intros _. do 3 right. left.
Qed.

Lemma rowsOf_heap tasks s s' : heap s = heap s' -> rowsOf tasks s = rowsOf tasks s'.
Proof. unfold rowsOf. by intros ->. Qed.

Lemma filenamesOf_heap tasks s s' :
  heap s = heap s' -> filenamesOf tasks s = filenamesOf tasks s'.
Proof. unfold filenamesOf. by intros ->. Qed.

Lemma forallb_impl {A} (f g : A -> bool) (l : list A) :
  (forall x, f x = true -> g x = true) -> forallb f l = true -> forallb g l = true.
Proof.
  intros Hfg. induction l as [|x l IH]; [done|]. simpl.
  intros [Hx Hl]%andb_prop. by rewrite (Hfg x Hx), (IH Hl).
Qed.

(** ** Settlement of a batch *)

(** C5. When an iteration settles a batch and the batch failed, no record
    is stored, every rejector of every task of the batch is called with the
    error that made the batch fail, in order, and these are the only
    callbacks called; unless it is the upsert itself that failed, no upsert
    is requested. When the batch succeeded, one record per task is stored
    and every resolver of every task of the batch is called with the public
    URL of the task. Whether the batch fails is decided by its requests:
    after the checkouts, every move is requested, then the add, the commit,
    the push and the upsert, in this order and up to the first that fails;
    the batch fails exactly when one of these requests fails, with the
    error of the first that does. So when a move, the add, the commit or
    the push fails, the batch fails with that error and the upsert is not
    requested. *)
Theorem mainLoop_settles_batch_as_one cfg env st st' tasks failure :
  mainLoop cfg env st = (st', Ok (Settled tasks failure)) ->
  exists evs,
    forallb (fun ev => negb (isSettlement ev)) evs = true /\
    match failure with
    | Some e =>
        db st' = db st /\
        log st' = log st ++ evs ++ rejections e (heap st') tasks /\
        (exists history ev, fails env history ev = Some e) /\
        ((forall history rows, fails env history (DbUpsert rows) = None) ->
         forallb (fun ev => negb (isUpsert ev)) evs = true)
    | None =>
        db st' = db st ++ rowsOf tasks st' /\
        log st' = log st ++ evs ++ resolutions cfg (heap st') tasks
    end /\
    exists pre moves made b,
      let history := log st ++ pre in
      let push := [GitAdd (filenamesOf tasks st'); GitCommit "upload";
                   GitPush (toBranchName (branch b))] in
      let store := DbUpsert (rowsOf tasks st') in
      evs = pre ++ moves ++ made
              ++ match failure with
                 | Some e => [Warn ("Errored processing files: " ++ e)%string]
                 | None => []
                 end /\
      forallb preparatory pre = true /\
      forallb isMove moves = true /\
      made `prefix_of` push ++ [store] /\
      failure = firstFailure env history (moves ++ push ++ [store]) /\
      (store ∈ made <-> firstFailure env history (moves ++ push) = None) /\
      (forall e, firstFailure env history (moves ++ push) = Some e ->
                 failure = Some e /\
                 forallb (fun ev => negb (isUpsert ev)) evs = true).
Proof.
  intros Hrun.
  destruct (mainLoop_cases cfg env st)
    as [[_ Heq]|[(_ & pre & _ & _ & Hr)|(_ & b & st1 & pre & tasks' & Heq & _ & _ & Hlog & Hpre & Hdb & _)]].
  - rewrite Hrun in Heq. discriminate.
  - rewrite Hrun in Hr. simpl in Hr. by destruct Hr as [?|[? ?]].
  - rewrite Hrun in Heq.
    destruct (processBatch_settled cfg env b tasks' st1)
      as (f & evs & Hres & Hheap & _ & _ & _ & Hevs & Hout & _).
    destruct (processBatch_requests cfg env b tasks' st1)
      as (f' & moves & made & Hres' & Hlog' & Hmv & Hpref & Hff & Hiff & Hno).
    rewrite <- Heq in Hres, Hout, Hheap, Hres', Hlog'.
    simpl in Hres, Hout, Hheap, Hres', Hlog'.
    injection Hres as <- <-. injection Hres' as <-.
    rewrite <- Hheap in Hlog'.
    pose proof (rowsOf_heap tasks st' (committing env b tasks st1) Hheap) as Hrows.
    pose proof (filenamesOf_heap tasks st' (committing env b tasks st1) Hheap) as Hnames.
    rewrite <- Hrows, <- Hnames in Hpref. rewrite <- Hrows, <- Hnames in Hff.
    rewrite <- Hrows, <- Hnames in Hiff. rewrite <- Hnames in Hno.
    rewrite Hlog in Hff, Hiff, Hno.
    assert (Hprep : forallb (fun ev => negb (isSettlement ev)) pre = true
                    /\ forallb (fun ev => negb (isUpsert ev)) pre = true).
    { clear -Hpre. induction pre as [|ev pre IH]; [done|]. simpl in *.
      apply andb_prop in Hpre as [Hev Hpre]. destruct (IH Hpre) as [-> ->].
      by destruct ev. }
    destruct Hprep as [Hprep1 Hprep2].
    assert (Hsplit : evs = moves ++ made
                       ++ match failure with
                          | Some e => [Warn ("Errored processing files: " ++ e)%string]
                          | None => []
                          end).
    { destruct failure as [e|].
      - destruct Hout as (_ & Hl & _). rewrite Hl in Hlog'.
        apply app_inv_head in Hlog'.
        apply (app_inv_tail (rejections e (heap st') tasks)).
        rewrite Hlog', <- !app_assoc. done.
      - destruct Hout as (_ & Hl). rewrite Hl in Hlog'.
        apply app_inv_head in Hlog'.
        apply (app_inv_tail (resolutions cfg (heap st') tasks)).
        rewrite Hlog', app_nil_r, <- !app_assoc. done. }
    exists (pre ++ evs). rewrite forallb_app, Hprep1, Hevs. split; [done|].
    split.
    { destruct failure as [e|].
      + destruct Hout as (Hd & Hl & Herr & Hup). split_and!; try done.
        * by rewrite Hd, Hdb.
        * by rewrite Hl, Hlog, <- !app_assoc.
        * intros Hh. by rewrite forallb_app, Hprep2, Hup.
      + destruct Hout as (Hd & Hl). split.
        * by rewrite Hd, Hdb.
        * by rewrite Hl, Hlog, <- !app_assoc. }
    exists pre, moves, made, b. cbv zeta. split_and!; try done.
    + by rewrite Hsplit.
    + intros e He.
      assert (failure = Some e) as ->.
      { rewrite Hff. rewrite (app_assoc moves), firstFailure_app, He. done. }
      split; [done|]. rewrite Hsplit, !forallb_app, Hprep2. simpl.
      rewrite (forallb_impl isMove (fun ev => negb (isUpsert ev)) moves);
        [|by intros []|done].
      rewrite Hno; [done|]. by rewrite He.
Qed.

Lemma mainLoop_settles_batch_as_one_witness :
  let st' := (mainLoop tiny pushFails queued_10_10_30).1 in
  mainLoop tiny pushFails queued_10_10_30
    = (st', Ok (Settled [0; 1]%nat (Some "push failed"%string))) /\
  db st' = [] /\
  filter (fun ev => isSettlement ev = true) (log st')
    = [CallReject 0 "push failed"; CallReject 3 "push failed"; CallReject 1 "push failed"].
Proof.
  assert (H : mainLoop tiny pushFails queued_10_10_30
              = ((mainLoop tiny pushFails queued_10_10_30).1,
                 Ok (Settled [0; 1]%nat (Some "push failed"%string))))
    by (vm_compute; reflexivity).
  split; [exact H|].
  destruct (mainLoop_settles_batch_as_one _ _ _ _ _ _ H) as (evs & _ & (Hdb & _) & _).
  split; [exact Hdb|]. vm_compute. reflexivity.
Defined.

(** A commit that fails: the batch of two fails with the error of the
    commit, neither the push nor the upsert is requested, no record is
    stored and both waiters are rejected. *)
Example mainLoop_commit_fails :
  let st' := (mainLoop tiny commitFails queued_10_10_30).1 in
  (mainLoop tiny commitFails queued_10_10_30).2
    = Ok (Settled [0; 1]%nat (Some "commit failed"%string)) /\
  db st' = [] /\
  List.filter (fun ev => match ev with
                         | GitAdd _ | GitCommit _ | GitPush _ | DbUpsert _
                         | CallResolve _ _ | CallReject _ _ => true
                         | _ => false
                         end) (log st')
    = [GitAdd ["a-a.png"; "b-b.png"]; GitCommit "upload";
       CallReject 0 "commit failed"; CallReject 1 "commit failed"].
Proof. vm_compute. split_and!; reflexivity. Qed.

(** C8. Once an iteration has settled a batch, with or without failure, no
    task of the batch is indexed under its hash or queued any more, and the
    store is well formed; so the next [createTask] for such a hash makes a
    fresh task, queues it at the back and indexes it. *)
Theorem mainLoop_forgets_settled_tasks cfg env st st' tasks failure :
  wf st ->
  mainLoop cfg env st = (st', Ok (Settled tasks failure)) ->
  wf st' /\
  forall l, l ∈ tasks ->
    taskMap st' !! hashOf (heap st') l = None /\
    (l ∉ taskQueue st') /\
    forall file, fb_hash file = hashOf (heap st') l ->
      let st'' := (createTask file st').1 in
      let fresh := length (heap st') in
      fresh <> l /\
      taskQueue st'' = taskQueue st' ++ [fresh] /\
      taskMap st'' !! fb_hash file = Some fresh /\
      heap st'' !! fresh = Some (addWaiter (nextPromise st') (newTask file)).
Proof.
  intros Hwf Hrun.
  destruct (mainLoop_cases cfg env st)
    as [[_ Heq]|[(_ & pre & _ & _ & Hr)|(_ & b & st1 & pre & tasks' & Heq & _ & Hst1 & _)]].
  - rewrite Hrun in Heq. discriminate.
  - rewrite Hrun in Hr. simpl in Hr. by destruct Hr as [?|[? ?]].
  - rewrite Hrun in Heq. destruct (Hst1 Hwf) as [Hwf1 Hin1].
    destruct (processBatch_settled cfg env b tasks' st1)
      as (f & evs & Hres & Hheap & _ & _ & _ & _ & _ & Hfin).
    rewrite <- Heq in Hres, Hfin, Hheap. simpl in Hres, Hfin, Hheap.
    injection Hres as <- <-.
    destruct (Hfin Hwf1 Hin1) as [Hwf' Hgone]. split; [done|].
    intros l Hl. destruct (Hgone l Hl) as [Hnone Hq]. split_and!; try done.
    intros file Hfile st'' fresh. subst st'' fresh.
    rewrite <- Hfile in Hnone. rewrite (createTask_miss _ _ Hnone). simpl.
    split_and!; try done.
    + assert (is_Some (heap st' !! l)) as [t Ht%lookup_lt_Some]; [|lia].
      rewrite Hheap.
      assert (Hin2 : inflight (committing env b tasks st1) tasks).
      { apply inflight_arrive. by apply moveAll_inv. }
      destruct (Hin2 l Hl) as [(t & Ht & _) _]. by exists t.
    + by rewrite lookup_insert_eq.
    + by rewrite lookup_app_r, Nat.sub_diag.
Qed.

Lemma mainLoop_forgets_settled_tasks_witness :
  let st' := (mainLoop tiny pushFails queued_10_10_30).1 in
  wf queued_10_10_30 /\
  mainLoop tiny pushFails queued_10_10_30
    = (st', Ok (Settled [0; 1]%nat (Some "push failed"%string))) /\
  taskMap st' !! hashOf (heap st') 0%nat = None.
Proof.
  assert (Hwf : wf queued_10_10_30) by (apply wf_arrive; exact wf_initial).
  assert (H : mainLoop tiny pushFails queued_10_10_30
              = ((mainLoop tiny pushFails queued_10_10_30).1,
                 Ok (Settled [0; 1]%nat (Some "push failed"%string))))
    by (vm_compute; reflexivity).
  split; [exact Hwf|]. split; [exact H|].
  destruct (mainLoop_forgets_settled_tasks _ _ _ _ _ _ Hwf H) as [_ Hgone].
  refine (proj1 (Hgone 0%nat _)). apply elem_of_cons. by left.
Defined.


(** ** The branch allocator *)

Lemma getBranch_healthy cfg env forceNew offset st :
  healthy env ->
  getBranch cfg env forceNew offset st =
    match db st with
    | [] => (logged [DbGetFirst] st, Ok {| branch := offset; size := 0 |})
    | file :: _ =>
        let current := f_branch file in
        let used := sumSize (db st) current in
        if forceNew then
          (logged [DbGetFirst] st, Ok {| branch := current + offset; size := 0 |})
        else if used >=? maxBranchSize cfg then
          (logged [DbGetFirst; DbSumSize current] st,
           Ok {| branch := current + offset; size := 0 |})
        else
          (logged [DbGetFirst; DbSumSize current] st,
           Ok {| branch := current; size := used |})
    end.
Proof.
  intros Hh. unfold getBranch, bind, gets, ret, request. rewrite Hh. simpl.
  destruct (db st) as [|file rows] eqn:Hdb; simpl; [done|].
  destruct forceNew; simpl; [done|]. rewrite Hh. simpl.
  destruct (_ >=? _); by rewrite !emit_logged, logged_logged.
Qed.

Lemma checkout_healthy cfg env forceNew fetch offset st :
  healthy env ->
  exists reads res,
    getBranch cfg env forceNew offset st = (logged reads st, Ok res) /\
    checkout cfg env forceNew fetch offset st =
      (logged (reads ++ checkoutRequests fetch res) st, Ok res).
Proof.
  intros Hh. pose proof (getBranch_healthy cfg env forceNew offset st Hh) as Hget.
  assert (exists reads res, getBranch cfg env forceNew offset st = (logged reads st, Ok res))
    as (reads & res & Hres).
  { rewrite Hget. destruct (db st); [eauto|]. simpl.
    destruct forceNew; [eauto|]. destruct (_ >=? _); eauto. }
  exists reads, res. split; [done|].
  unfold checkout. unfold bind at 1. rewrite Hres.
  unfold checkoutRequests, bind, request, ret.
  destruct (size res =? 0), fetch; rewrite ?Hh; simpl; rewrite ?Hh; simpl; rewrite ?Hh; simpl;
    by rewrite ?emit_logged, ?logged_logged, ?app_nil_r.
Qed.

(** C6. With at least one record in the table and no failing request,
    [getBranch] returns the branch after that of the first record
    ([current + offset]) with size zero if [forceNew] is set or the sizes
    recorded for the current branch add up to [maxBranchSize] or more, and
    the current branch with that sum otherwise; [checkout] returns the same
    and asks git for an orphan branch and an emptied working tree exactly
    when the size returned is zero, and for a forced checkout of the branch
    otherwise. *)
Theorem getBranch_rollover cfg env forceNew fetch offset st file rows :
  healthy env ->
  db st = file :: rows ->
  let current := f_branch file in
  let used := sumSize (db st) current in
  let res :=
    if forceNew || (used >=? maxBranchSize cfg)
    then {| branch := current + offset; size := 0 |}
    else {| branch := current; size := used |} in
  (getBranch cfg env forceNew offset st).2 = Ok res /\
  exists reads,
    checkout cfg env forceNew fetch offset st =
      (logged (reads ++ checkoutRequests fetch res) st, Ok res) /\
    forallb (fun ev => match ev with DbGetFirst | DbSumSize _ => true | _ => false end)
      reads = true /\
    (size res = 0 ->
     checkoutRequests fetch res = [GitCheckoutOrphan (toBranchName (branch res)); GitRmAll]) /\
    (size res <> 0 ->
     (GitCheckoutOrphan (toBranchName (branch res)) ∉ checkoutRequests fetch res) /\
     (GitRmAll ∉ checkoutRequests fetch res) /\
     GitCheckoutForce (toBranchName (branch res)) ∈ checkoutRequests fetch res).
Proof.
  intros Hh Hdb current used res.
  pose proof (getBranch_healthy cfg env forceNew offset st Hh) as Hget.
  rewrite Hdb in Hget. simpl in Hget. rewrite <- Hdb in Hget.
  fold current in Hget. fold used in Hget.
  destruct (checkout_healthy cfg env forceNew fetch offset st Hh) as (reads & res' & Hres & Hco).
  assert (res' = res /\
          forallb (fun ev => match ev with DbGetFirst | DbSumSize _ => true | _ => false end)
            reads = true) as [-> Hreads].
  { rewrite Hget in Hres. subst res. destruct forceNew; simpl in *.
    - injection Hres as Hl <-. apply app_inv_head in Hl as <-. done.
    - destruct (used >=? maxBranchSize cfg); injection Hres as Hl <-;
        apply app_inv_head in Hl as <-; done. }
  split; [by rewrite Hres|]. exists reads. split_and!; try done.
  - intros Hz. unfold checkoutRequests. by rewrite Hz.
  - intros Hnz. unfold checkoutRequests.
    destruct (Z.eqb_spec (size res) 0) as [?|_]; [done|].
    split_and!; destruct fetch; simpl;
      rewrite ?elem_of_cons, ?elem_of_nil;
      first [ by (intros H; repeat (destruct H as [H|H]; [discriminate|])) | auto ].
Qed.

Lemma getBranch_rollover_witness :
  healthy allGood /\
  (getBranch tiny allGood false 1 oneRecord).2 = Ok {| branch := 2; size := 0 |}.
Proof.
  assert (Hh : healthy allGood) by (intros history ev; reflexivity).
  split; [exact Hh|].
  exact (proj1 (getBranch_rollover tiny allGood false false 1 oneRecord _ [] Hh eq_refl)).
Defined.

(** ** The empty table *)

Lemma arrive_head files st l q :
  wf st ->
  taskQueue st = l :: q ->
  exists q', taskQueue (arrive files st) = l :: q' /\
             sizeOf (heap (arrive files st)) l = sizeOf (heap st) l.
Proof.
  revert st q. induction files as [|file files IH]; intros st q Hwf Hq; [by exists q|].
  simpl.
  assert (exists q1, taskQueue (createTask file st).1 = l :: q1 /\
                     sizeOf (heap (createTask file st).1) l = sizeOf (heap st) l)
    as (q1 & Hq1 & Hs1).
  { destruct (wf_queued st Hwf l) as (t & Ht & _); [rewrite Hq; by left|].
    destruct (taskMap st !! fb_hash file) as [l0|] eqn:H.
    - rewrite (createTask_hit _ _ _ H). simpl. exists q. split; [done|].
      unfold sizeOf. rewrite list_lookup_alter. case_decide; [subst|done].
      by rewrite Ht.
    - rewrite (createTask_miss _ _ H). simpl. exists (q ++ [length (heap st)]).
      rewrite Hq. split; [done|]. unfold sizeOf.
      by rewrite (lookup_app_l_Some _ _ _ _ Ht), Ht. }
  destruct (IH _ q1 (wf_createTask file st Hwf) Hq1) as (q' & Hq' & Hs').
  exists q'. by rewrite Hq', Hs', Hs1.
Qed.

(** C10. On an empty table [getBranch] returns [{ branch: offset, size: 0 }]
    whether [forceNew] is set or not. So when the task at the front of the
    queue is larger than the ceiling and no request fails, the iteration
    checks out the orphan branch 1 twice, the second time with [forceNew],
    takes no task and ends. *)
Theorem getBranch_empty_store cfg env forceNew offset st l q :
  healthy env ->
  wf st ->
  db st = [] ->
  taskQueue st = l :: q ->
  sizeOf (heap st) l > maxBranchSize cfg ->
  getBranch cfg env forceNew offset st
    = (logged [DbGetFirst] st, Ok {| branch := offset; size := 0 |}) /\
  mainLoop cfg env st
    = (logged [DbGetFirst; GitCheckoutOrphan (toBranchName 1); GitRmAll;
               DbGetFirst; GitCheckoutOrphan (toBranchName 1); GitRmAll]
         (arrive (whileWaiting env) st),
       Ok NoFit).
Proof.
  intros Hh Hwf Hdb Hq Hbig. split.
  { rewrite (getBranch_healthy _ _ _ _ _ Hh). by rewrite Hdb. }
  destruct (arrive_head (whileWaiting env) st l q Hwf Hq) as (q' & HqA & HsA).
  destruct (arrive_frame (whileWaiting env) st) as (_ & HdA & _).
  set (sA := arrive (whileWaiting env) st) in *.
  assert (Hco : forall forceNew evs,
    checkout cfg env forceNew false 1 (logged evs sA)
    = (logged (evs ++ [DbGetFirst; GitCheckoutOrphan (toBranchName 1); GitRmAll]) sA,
       Ok {| branch := 1; size := 0 |})).
  { intros fn evs.
    destruct (checkout_healthy cfg env fn false 1 (logged evs sA) Hh) as (reads & res & Hres & ->).
    rewrite (getBranch_healthy _ _ _ _ _ Hh) in Hres. simpl in Hres. rewrite HdA, Hdb in Hres.
    injection Hres as Hl <-. apply app_inv_head in Hl as <-. by rewrite logged_logged. }
  assert (Hdrain : forall a evs, a <= maxBranchSize cfg ->
    getTasks a (logged evs sA) = (logged evs sA, [])).
  { intros a evs Ha. unfold getTasks. simpl. rewrite HqA. simpl.
    destruct (Z.gtb_spec (0 + sizeOf (heap sA) l) a) as [_|?]; [|lia].
    rewrite <- HqA. by rewrite (setQueue_same (logged evs sA)) || reflexivity. }
  unfold mainLoop. unfold bind at 1. unfold gets. rewrite Hq. simpl.
  unfold bind at 1. unfold modify. simpl. fold sA.
  rewrite <- (logged_nil sA) at 1.
  unfold bind at 1. rewrite Hco. simpl.
  unfold bind at 1. unfold lift. rewrite Hdrain by lia. simpl.
  unfold bind at 1. unfold bind at 1. rewrite Hco.
  unfold bind at 1. unfold lift. rewrite Hdrain by lia. simpl.
  unfold ret. done.
Qed.

Lemma getBranch_empty_store_witness :
  healthy allGood /\ wf oversized /\ db oversized = [] /\
  (mainLoop tiny allGood oversized).2 = Ok NoFit.
Proof.
  assert (Hh : healthy allGood) by (intros history ev; reflexivity).
  assert (Hwf : wf oversized) by (apply wf_arrive; exact wf_initial).
  assert (Hbig : sizeOf (heap oversized) 0%nat > maxBranchSize tiny) by reflexivity.
  split; [exact Hh|]. split; [exact Hwf|]. split; [reflexivity|].
  pose proof (getBranch_empty_store tiny allGood true 1 oversized 0%nat [] Hh Hwf
                eq_refl eq_refl Hbig) as [_ H].
  exact (f_equal snd H).
Defined.


(** ** The polling loop *)

Lemma mainLoop_isActive cfg env st : isActive (mainLoop cfg env st).1 = isActive st.
Proof.
  destruct (mainLoop_cases cfg env st)
    as [[_ ->]|[(_ & pre & -> & _)|(_ & b & st1 & pre & tasks & -> & _ & _ & _ & _ & _ & Ha)]].
  - simpl. by destruct (arrive_frame (whileWaiting env) (logged [Sleep (flushInterval cfg)] st))
      as (-> & _).
  - simpl. by destruct (arrive_frame (whileWaiting env) st) as (-> & _).
  - destruct (processBatch_settled cfg env b tasks st1) as (f & evs & _ & _ & _ & _ & -> & _).
    done.
Qed.

Lemma start_exited cfg envs st :
  (start cfg envs st).2 = Exited -> isActive (start cfg envs st).1 = false.
Proof.
  revert st. induction envs as [|env envs IH]; intros st; simpl.
  - by destruct (isActive st) eqn:Ha.
  - destruct (isActive st) eqn:Ha; [|done].
    destruct (mainLoop cfg env st) as [st1 r]. apply IH.
Qed.

Lemma start_running cfg envs st :
  isActive st = true ->
  Forall (fun env => disconnect env = false) envs ->
  (start cfg envs st).2 = Running /\ isActive (start cfg envs st).1 = true.
Proof.
  revert st. induction envs as [|env envs IH]; intros st Ha Hd; simpl; rewrite Ha; [done|].
  inversion Hd as [|? ? Hd1 Hd2]; subst.
  pose proof (mainLoop_isActive cfg env st) as Hkeep.
  destruct (mainLoop cfg env st) as [st1 r]. simpl in Hkeep. rewrite Hd1.
  apply IH; [|done]. destruct r; simpl; congruence.
Qed.

(** C9. An error thrown by an iteration does not end the loop: [start]
    logs it and goes on with the next iteration, and as long as the
    [disconnect] event does not fire the loop is still running after any
    number of iterations, whatever they threw. The loop exits only with
    [isActive] false. An iteration that finds the queue empty sleeps for
    [flushInterval] and does nothing else. *)
Theorem start_never_exits_on_error cfg env envs st st1 e :
  isActive st = true ->
  mainLoop cfg env st = (st1, Throw e) ->
  start cfg (env :: envs) st
    = start cfg envs
        (emit (Warn ("Loop failed: " ++ e)%string)
           (if disconnect env then setActive false st1 else st1)) /\
  (Forall (fun env => disconnect env = false) (env :: envs) ->
   (start cfg (env :: envs) st).2 = Running) /\
  (forall envs' st0,
     (start cfg envs' st0).2 = Exited -> isActive (start cfg envs' st0).1 = false) /\
  (forall env' st0,
     taskQueue st0 = [] ->
     mainLoop cfg env' st0
       = (arrive (whileWaiting env') (emit (Sleep (flushInterval cfg)) st0), Ok Idle)).
Proof.
  intros Ha Hthrow. split_and!.
  - simpl. by rewrite Ha, Hthrow.
  - intros Hd. by apply start_running.
  - intros envs' st0. apply start_exited.
  - intros env' st0 Hq.
    destruct (mainLoop_cases cfg env' st0) as [[_ ->]|[[Hne _]|[Hne _]]]; done.
Qed.


Lemma start_never_exits_on_error_witness :
  let st := setActive true queued_10_10_30 in
  isActive st = true /\
  (exists st1, mainLoop tiny databaseDown st = (st1, Throw "connection lost"%string)) /\
  (start tiny [databaseDown; databaseDown; allGood] st).2 = Running.
Proof.
  assert (H : mainLoop tiny databaseDown (setActive true queued_10_10_30)
              = ((mainLoop tiny databaseDown (setActive true queued_10_10_30)).1,
                 Throw "connection lost"%string))
    by (vm_compute; reflexivity).
  split; [reflexivity|]. split; [eexists; exact H|].
  refine (proj1 (proj2 (start_never_exits_on_error tiny databaseDown [databaseDown; allGood]
                          (setActive true queued_10_10_30) _ _ eq_refl H)) _).
  repeat constructor.
Defined.


(** ** Uploading what is already stored *)

Section Dedup.

Variable decodeBase64 : string -> list Byte.byte.
Variable httpBody : string -> list Byte.byte.
Variable sha1hex : list Byte.byte -> string.
Variable sniffExt : list Byte.byte -> option string.

Lemma getAssetBuffer_state env url st :
  exists evs,
    (getAssetBuffer decodeBase64 httpBody env url st).1 = logged evs st /\
    Forall (fun ev => ev = HttpGet url) evs.
Proof.
  unfold getAssetBuffer. destruct (String.prefix PTC_BASE64 url).
  - exists []. by rewrite logged_nil.
  - unfold bind, request, ret. destruct (fails env (log st) (HttpGet url)); simpl;
      exists [HttpGet url]; by repeat constructor.
Qed.

(** C7. When the bytes can be obtained and the table has a record for
    their digest, [upload] returns the public URL of the first such record;
    the queue, the index, the task objects, the table and the promise
    counter stay as they are, and the only requests made are the HTTP GET of
    the source, if it is not inline, and the lookup by digest: no task is
    created and nothing is written to the scratch directory. *)
Theorem upload_dedup_hit cfg env url name st st1 buffer file rest :
  getAssetBuffer decodeBase64 httpBody env url st = (st1, Ok buffer) ->
  fails env (log st1) (DbGetByHash (sha1hex buffer)) = None ->
  filter (fun f => f_hash f = sha1hex buffer) (db st) = file :: rest ->
  exists evs,
    upload decodeBase64 httpBody sha1hex sniffExt cfg env url name st
      = (logged evs st, Ok (Url (toPublicUrl cfg file))) /\
    Forall (fun ev => ev = HttpGet url \/ ev = DbGetByHash (sha1hex buffer)) evs /\
    forallb (fun ev => negb (isWriteFile ev)) evs = true.
Proof.
  intros Hbuf Hlookup Hrow.
  destruct (getAssetBuffer_state env url st) as (evs & Hst1 & Hevs).
  rewrite Hbuf in Hst1. simpl in Hst1. subst st1.
  exists (evs ++ [DbGetByHash (sha1hex buffer)]).
  split; [|split].
  - unfold upload. unfold bind at 1. rewrite Hbuf.
    unfold bind at 1. unfold request. rewrite Hlookup.
    unfold bind at 1. unfold gets. simpl. rewrite Hrow.
    unfold ret. by rewrite emit_logged, logged_logged.
  - apply Forall_app. split.
    + eapply Forall_impl; [exact Hevs|]. intros ev ->. simpl. by left.
    + apply Forall_singleton. by right.
  - rewrite forallb_app. simpl. rewrite andb_true_r.
    clear -Hevs. induction Hevs as [|ev evs -> _ IH]; [done|]. simpl. exact IH.
Qed.

End Dedup.

Lemma upload_dedup_hit_witness :
  let decode := fun _ : string => @nil Byte.byte in
  let digest := fun _ : list Byte.byte => "a"%string in
  exists evs,
    upload decode decode digest (fun _ => None) tiny allGood "base64://aGVsbG8=" None oneRecord
      = (logged evs oneRecord, Ok (Url "https://cdn.jsdelivr.net/gh/u/r@1/a-a.png")) /\
    taskQueue (logged evs oneRecord) = [].
Proof.
  destruct (upload_dedup_hit (fun _ => []) (fun _ => []) (fun _ => "a"%string) (fun _ => None)
              tiny allGood "base64://aGVsbG8=" None oneRecord oneRecord []
              {| f_hash := "a"; f_name := "a.png"; f_size := 30; f_branch := 1 |} []
              eq_refl eq_refl eq_refl) as (evs & H & _).
  exists evs. split; [exact H|reflexivity].
Defined.


(** ** Branch names and public URLs *)

Lemma length_spaces n : String.length (spaces n) = n.
Proof. induction n as [|n IH]; [reflexivity|]. cbn. now rewrite IH. Qed.

Lemma length_append (s1 s2 : string) :
  String.length (s1 +:+ s2) = (String.length s1 + String.length s2)%nat.
Proof. induction s1 as [|c s1 IH]; [reflexivity|]. simpl. f_equal. exact IH. Qed.

Lemma digitIndex_digitChar d :
  (d < 36)%N -> digitIndex (Number.digitChar d) Number.alphabet = d.
Proof.
  intros Hd. destruct d as [|p]; [reflexivity|].
  do 6 (destruct p as [p|p|]; try reflexivity; try lia).
Qed.

Lemma valueFrom_app radix acc s1 s2 :
  valueFrom radix acc (s1 +:+ s2) = valueFrom radix (valueFrom radix acc s1) s2.
Proof. revert acc. induction s1 as [|c s1 IH]; intros acc; simpl; [done|]. apply IH. Qed.

(** With enough fuel the digits produced read back as the number. *)
Lemma digitsFuel_value fuel radix n acc :
  (2 <= radix <= 36)%N ->
  (n < 2 ^ N.of_nat fuel)%N ->
  exists ds,
    Number.digitsFuel fuel radix n acc = ds +:+ acc /\
    forall a, valueFrom radix a ds = (a * radix ^ N.of_nat (String.length ds) + n)%N.
Proof.
  intros Hr. revert n acc. induction fuel as [|fuel IH]; intros n acc Hn.
  - simpl in Hn. assert (n = 0%N) as -> by lia. exists EmptyString.
    split; [done|]. intros a. simpl. lia.
  - simpl. destruct (N.eqb_spec (n / radix) 0) as [Hz|Hz].
    + exists (String (Number.digitChar (n mod radix)) EmptyString).
      split; [done|]. intros a. cbn [valueFrom String.length].
      rewrite digitIndex_digitChar.
      * rewrite N.pow_1_r. rewrite (N.div_mod n radix) at 2 by lia. rewrite Hz. lia.
      * pose proof (N.mod_upper_bound n radix). lia.
    + destruct (IH (n / radix)%N (String (Number.digitChar (n mod radix)) acc))
        as (ds & Hds & Hval).
      { apply N.Div0.div_lt_upper_bound.
        rewrite Nat2N.inj_succ, N.pow_succ_r' in Hn.
        assert (2 * 2 ^ N.of_nat fuel <= radix * 2 ^ N.of_nat fuel)%N
          by (apply N.mul_le_mono_r; lia).
        lia. }
      exists (ds +:+ String (Number.digitChar (n mod radix)) EmptyString).
      split.
      * rewrite Hds. generalize (Number.digitChar (n mod radix)). clear.
        intros d. induction ds as [|c ds IH]; [done|].
        change (String c (ds +:+ String d acc) = String c ((ds +:+ String d "") +:+ acc)).
        by rewrite IH.
      * intros a. rewrite valueFrom_app, Hval. cbn [valueFrom].
        rewrite digitIndex_digitChar by (pose proof (N.mod_upper_bound n radix); lia).
        rewrite length_append. simpl.
        rewrite Nat2N.inj_add. simpl N.of_nat. rewrite N.pow_add_r, N.pow_1_r.
        rewrite (N.div_mod n radix) at 3 by lia. lia.
Qed.

Lemma append_empty_r (s : string) : s +:+ "" = s.
Proof.
  induction s as [|c s IH]; [done|].
  change (String c (s +:+ "") = String c s). by rewrite IH.
Qed.

Lemma digits_value radix n :
  (2 <= radix <= 36)%N -> valueOf radix (Number.digits radix n) = n.
Proof.
  intros Hr. unfold valueOf, Number.digits.
  destruct (digitsFuel_value (S (N.to_nat (N.log2 n))) radix n "" Hr) as (ds & -> & Hval).
  - rewrite Nat2N.inj_succ, N2Nat.id.
    destruct n as [|p]; [done|]. apply N.log2_spec. lia.
  - rewrite append_empty_r, Hval. lia.
Qed.

Lemma digitsFuel_length_ge fuel radix n acc :
  (String.length acc <= String.length (Number.digitsFuel fuel radix n acc))%nat.
Proof.
  revert n acc. induction fuel as [|fuel IH]; intros n acc; simpl; [lia|].
  destruct (n / radix =? 0)%N; simpl; [lia|].
  etransitivity; [|apply IH]. simpl. lia.
Qed.

Lemma digitsFuel_length_le fuel radix k n acc :
  (n < radix ^ N.of_nat (S k))%N ->
  (String.length (Number.digitsFuel fuel radix n acc) <= S k + String.length acc)%nat.
Proof.
  revert k n acc. induction fuel as [|fuel IH]; intros k n acc Hn; simpl; [lia|].
  destruct (N.eqb_spec (n / radix) 0) as [Hz|Hz]; simpl; [lia|].
  destruct k as [|k].
  - exfalso. apply Hz. apply N.div_small. simpl in Hn. lia.
  - etransitivity; [apply (IH k)|simpl; lia].
    apply N.Div0.div_lt_upper_bound.
    rewrite Nat2N.inj_succ, N.pow_succ_r' in Hn. exact Hn.
Qed.

Lemma digits_length radix n k :
  (n < radix ^ N.of_nat (S k))%N ->
  (1 <= String.length (Number.digits radix n) <= S k)%nat.
Proof.
  intros Hn. unfold Number.digits. split.
  - simpl. destruct (n / radix =? 0)%N; simpl; [lia|].
    etransitivity; [|apply digitsFuel_length_ge]. simpl. lia.
  - etransitivity; [apply digitsFuel_length_le, Hn|simpl; lia].
Qed.

Lemma toString36_width id :
  0 <= id < 36 ^ 8 ->
  (1 <= String.length (Number.toString 36 id) <= 8)%nat.
Proof.
  intros [H0 H8]. unfold Number.toString.
  destruct (Z.ltb_spec id 0) as [?|_]; [lia|].
  apply (digits_length 36 (Z.to_N id) 7).
  change (36 ^ N.of_nat 8)%N with (Z.to_N (36 ^ 8)). lia.
Qed.

(** C1. For the record [{hash: "abc", name: "f.png", branch: 2}] and the
    mirror [u/r], [toPublicUrl] yields [.../gh/u/r@2/abc-f.png]: the branch
    appears as the decimal numeral of the number, which is not the name
    [toBranchName] gives the branch; for branch 71 the URL has [@71] while
    the branch is named by [1z] after six spaces. *)
Theorem toPublicUrl_branch_in_decimal :
  let file b := {| f_hash := "abc"; f_name := "f.png"; f_size := 1; f_branch := b |} in
  toPublicUrl tiny (file 2) = "https://cdn.jsdelivr.net/gh/u/r@2/abc-f.png" /\
  toPublicUrl tiny (file 2)
    <> "https://cdn.jsdelivr.net/gh/u/r@" +:+ toBranchName 2 +:+ "/abc-f.png" /\
  toPublicUrl tiny (file 71) = "https://cdn.jsdelivr.net/gh/u/r@71/abc-f.png" /\
  toBranchName 71 = "      1z".
Proof. vm_compute. split_and!; done. Qed.

(** The branch a batch is pushed to and the branch its URLs mention. *)
Example pushed_branch_and_resolved_url :
  let st' := (mainLoop tiny allGood queued_10_10_30).1 in
  GitPush "       1" ∈ log st' /\
  CallResolve 0 "https://cdn.jsdelivr.net/gh/u/r@1/a-a.png" ∈ log st'.
Proof. vm_compute. split; apply list_elem_of_In; simpl; tauto. Qed.

(** C2. [toBranchName] pads with spaces where the claim has zeros: the
    name of branch 2 is seven spaces and [2], not [00000002]; so are that
    of branch 1, the first the plugin allocates, and that of branch 71; even
    the largest id of seven digits is named with a space in front. This is
    the name [checkout] hands to git. *)
Theorem toBranchName_pads_with_spaces :
  toBranchName 2 = "       2" /\
  zeroPadded8 2 = "00000002" /\
  toBranchName 1 = "       1" /\
  toBranchName 71 = "      1z" /\
  zeroPadded8 71 = "0000001z" /\
  toBranchName (36 ^ 7 - 1) = " zzzzzzz" /\
  checkoutRequests false {| branch := 2; size := 0 |}
    = [GitCheckoutOrphan "       2"; GitRmAll].
Proof. vm_compute. split_and!; reflexivity. Qed.

(** * Further properties of the plugin *)

(** ** What an iteration is made of *)

Lemma getBranch_result cfg env forceNew offset st res :
  (getBranch cfg env forceNew offset st).2 = Ok res ->
  res = chooseBranch cfg forceNew offset (db st).
Proof.
  unfold getBranch, chooseBranch, bind, gets, ret, request.
  destruct (fails env (log st) DbGetFirst); simpl; [discriminate|].
  destruct (db st) as [|file rows]; simpl; [congruence|].
  destruct forceNew; simpl; [congruence|].
  destruct (fails env _ (DbSumSize _)); simpl; [discriminate|].
  destruct (_ >=? _); simpl; congruence.
Qed.

Lemma checkout_result cfg env forceNew fetch offset st res :
  (checkout cfg env forceNew fetch offset st).2 = Ok res ->
  res = chooseBranch cfg forceNew offset (db st).
Proof.
  unfold checkout. unfold bind at 1.
  pose proof (getBranch_result cfg env forceNew offset st) as Hget.
  destruct (getBranch cfg env forceNew offset st) as [st1 [res1|e]]; simpl in *;
    [|discriminate].
  specialize (Hget res1 eq_refl). subst res1.
  unfold bind, request, ret.
  destruct (size _ =? 0), fetch; simpl;
    repeat (match goal with
            | |- context [fails env ?h ?ev] => destruct (fails env h ev); simpl
            end);
    congruence.
Qed.

(** The ways an iteration goes, with the branch it works on and the budget
    its batch was taken under. *)
Lemma mainLoop_trace cfg env st :
  let sA := arrive (whileWaiting env) st in
  (taskQueue st = [] /\
   mainLoop cfg env st =
     (arrive (whileWaiting env) (logged [Sleep (flushInterval cfg)] st), Ok Idle)) \/
  (taskQueue st <> [] /\
   exists pre r,
     mainLoop cfg env st = (logged pre sA, r) /\
     forallb preparatory pre = true /\
     (r = Ok NoFit \/ exists e, r = Throw e)) \/
  (taskQueue st <> [] /\
   exists forceNew tasks q1 pre,
     let b := chooseBranch cfg forceNew 1 (db st) in
     let budget := if forceNew : bool then maxBranchSize cfg
                   else maxBranchSize cfg - size b in
     tasks <> [] /\
     getTasksFrom (heap sA) budget 0 (taskQueue sA) = (tasks, q1) /\
     forallb preparatory pre = true /\
     mainLoop cfg env st = processBatch cfg env b tasks (setQueue q1 (logged pre sA))).
Proof.
  intros sA.
  destruct (mainLoop cfg env st) as [st' r] eqn:Hres. revert Hres.
  unfold mainLoop. unfold bind at 1. unfold gets. simpl.
  destruct (taskQueue st) as [|l0 q0] eqn:Hqueue; simpl.
  { unfold bind, modify, ret. simpl. intros [= <- <-]. by left. }
  unfold bind at 1. unfold modify. simpl. fold sA.
  destruct (arrive_frame (whileWaiting env) st) as (_ & HdA & _). fold sA in HdA.
  unfold bind at 1.
  destruct (checkout_state cfg env false false 1 sA) as (evs & HsB & Hevs).
  pose proof (checkout_result cfg env false false 1 sA) as Hb.
  destruct (checkout cfg env false false 1 sA) as [sB [b|e]]; simpl in HsB, Hb; subst sB.
  2:{ intros [= <- <-]. right; left. split; [done|]. exists evs, (Throw e). eauto. }
  specialize (Hb b eq_refl). rewrite HdA in Hb.
  unfold bind at 1. unfold lift. unfold getTasks at 1. simpl.
  destruct (getTasksFrom (heap sA) (maxBranchSize cfg - size b) 0 (taskQueue sA))
    as [ts q1] eqn:Hdrain1.
  pose proof (getTasksFrom_split (heap sA) (maxBranchSize cfg - size b) 0 (taskQueue sA))
    as Hsplit1. rewrite Hdrain1 in Hsplit1. simpl in Hsplit1.
  unfold bind at 1.
  destruct ts as [|t0 ts]; simpl.
  - simpl in Hsplit1. subst q1.
    replace (setQueue (taskQueue sA) (logged evs sA)) with (logged evs sA)
      by (symmetry; exact (setQueue_same (logged evs sA))).
    unfold bind at 1.
    destruct (checkout_state cfg env true false 1 (logged evs sA)) as (evs2 & HsD & Hevs2).
    pose proof (checkout_result cfg env true false 1 (logged evs sA)) as Hb2.
    destruct (checkout cfg env true false 1 (logged evs sA)) as [sD [b2|e]];
      simpl in HsD, Hb2; subst sD; rewrite logged_logged.
    2:{ intros [= <- <-]. right; left. split; [done|]. exists (evs ++ evs2), (Throw e).
        rewrite forallb_app, Hevs, Hevs2. eauto. }
    specialize (Hb2 b2 eq_refl). rewrite HdA in Hb2.
    unfold bind at 1. unfold lift. unfold getTasks at 1. simpl.
    destruct (getTasksFrom (heap sA) (maxBranchSize cfg) 0 (taskQueue sA))
      as [ts2 q2] eqn:Hdrain2.
    pose proof (getTasksFrom_split (heap sA) (maxBranchSize cfg) 0 (taskQueue sA))
      as Hsplit2. rewrite Hdrain2 in Hsplit2. simpl in Hsplit2.
    simpl. destruct ts2 as [|t2 ts2]; simpl.
    + simpl in Hsplit2. subst q2. intros [= <- <-]. right; left. split; [done|].
      exists (evs ++ evs2), (Ok NoFit). rewrite forallb_app, Hevs, Hevs2.
      split_and!; eauto.
    + intros <-. right; right. split; [done|].
      exists true, (t2 :: ts2), q2, (evs ++ evs2). simpl.
      rewrite forallb_app, Hevs, Hevs2. subst b2. done.
  - intros <-. right; right. split; [done|].
    exists false, (t0 :: ts), q1, evs. simpl. subst b. done.
Qed.

(** ** Task objects only grow *)

Lemma grown_refl t : grown t t.
Proof. by split_and!. Qed.

Lemma grown_trans t1 t2 t3 : grown t1 t2 -> grown t2 t3 -> grown t1 t3.
Proof.
  intros (Hs1 & Hh1 & Hn1 & Hr1 & Hj1) (Hs2 & Hh2 & Hn2 & Hr2 & Hj2).
  split_and!; try congruence; by etransitivity.
Qed.

Lemma heapGrown_refl h : heapGrown h h.
Proof. intros l t Ht. exists t. split; [done|apply grown_refl]. Qed.

Lemma heapGrown_trans h1 h2 h3 : heapGrown h1 h2 -> heapGrown h2 h3 -> heapGrown h1 h3.
Proof.
  intros H12 H23 l t Ht. destruct (H12 l t Ht) as (t2 & Ht2 & Hg2).
  destruct (H23 l t2 Ht2) as (t3 & Ht3 & Hg3). exists t3.
  split; [done|by eapply grown_trans].
Qed.

Lemma heapGrown_alter (f : Task -> Task) l h :
  (forall t, grown t (f t)) -> heapGrown h (alter f l h).
Proof.
  intros Hf l' t Ht. destruct (decide (l = l')) as [->|Hne].
  - exists (f t). by rewrite list_lookup_alter_eq, Ht.
  - exists t. rewrite list_lookup_alter_ne by done. split; [done|apply grown_refl].
Qed.

Lemma grown_addWaiter p t : grown t (addWaiter p t).
Proof. split_and!; try done; by apply prefix_app_r. Qed.

Lemma grown_assignBranch b t : grown t (assignBranch b t).
Proof. by split_and!. Qed.

(** [createTask] keeps every task object, with its branch, and may add a
    waiter to it. *)
Lemma createTask_keeps file st l t :
  heap st !! l = Some t ->
  exists t', heap (createTask file st).1 !! l = Some t' /\ grown t t' /\
             t_branch t' = t_branch t.
Proof.
  intros Ht. destruct (taskMap st !! fb_hash file) as [l0|] eqn:H.
  - rewrite (createTask_hit _ _ _ H). simpl. destruct (decide (l0 = l)) as [->|Hne].
    + exists (addWaiter (nextPromise st) t). rewrite list_lookup_alter_eq, Ht.
      split_and!; first [done|apply grown_addWaiter].
    + exists t. rewrite list_lookup_alter_ne by done. split_and!; first [done|apply grown_refl].
  - rewrite (createTask_miss _ _ H). simpl. exists t.
    split_and!; first [done|by apply lookup_app_l_Some|apply grown_refl].
Qed.

Lemma arrive_keeps files st l t :
  heap st !! l = Some t ->
  exists t', heap (arrive files st) !! l = Some t' /\ grown t t' /\
             t_branch t' = t_branch t.
Proof.
  revert st t. induction files as [|file files IH]; intros st t Ht; simpl.
  - exists t. split_and!; first [done|apply grown_refl].
  - destruct (createTask_keeps file st l t Ht) as (t1 & Ht1 & Hg1 & Hb1).
    destruct (IH _ t1 Ht1) as (t2 & Ht2 & Hg2 & Hb2). exists t2.
    split_and!; [done|by eapply grown_trans|congruence].
Qed.

(** Where the tasks that arrive are queued: behind the queue, as new
    objects. *)
Lemma createTask_queue file st :
  exists newer,
    taskQueue (createTask file st).1 = taskQueue st ++ newer /\
    Forall (fun l => (length (heap st) <= l)%nat) newer /\
    (length (heap st) <= length (heap (createTask file st).1))%nat.
Proof.
  destruct (taskMap st !! fb_hash file) as [l0|] eqn:H.
  - rewrite (createTask_hit _ _ _ H). simpl. exists [].
    rewrite app_nil_r, length_alter. by split_and!.
  - rewrite (createTask_miss _ _ H). simpl. exists [length (heap st)].
    rewrite length_app. simpl. split_and!; [done|by apply Forall_singleton|lia].
Qed.

Lemma arrive_queue files st :
  exists newer,
    taskQueue (arrive files st) = taskQueue st ++ newer /\
    Forall (fun l => (length (heap st) <= l)%nat) newer /\
    (length (heap st) <= length (heap (arrive files st)))%nat.
Proof.
  revert st. induction files as [|file files IH]; intros st; simpl.
  - exists []. rewrite app_nil_r. by split_and!.
  - destruct (createTask_queue file st) as (n1 & Hq1 & Hn1 & Hl1).
    destruct (IH (createTask file st).1) as (n2 & Hq2 & Hn2 & Hl2).
    exists (n1 ++ n2). rewrite Hq2, Hq1, app_assoc. split_and!; [done| |lia].
    apply Forall_app. split; [done|].
    eapply Forall_impl; [exact Hn2|]. simpl. intros l ?. lia.
Qed.

(** [moveAll] gives each task of the batch its branch and touches nothing
    else of the task objects. *)
Lemma moveAll_heap env b tasks st l t :
  heap st !! l = Some t ->
  heap (moveAll env b tasks st).1 !! l
    = Some (if bool_decide (l ∈ tasks) then assignBranch b t else t).
Proof.
  revert st t. induction tasks as [|task tasks IH]; intros st t Ht; simpl.
  - done.
  - set (st1 := emit _ (setHeap (alter (assignBranch b) task (heap st)) st)).
    specialize (IH st1).
    destruct (moveAll env b tasks st1) as [st2 later]. simpl in *.
    destruct (decide (task = l)) as [->|Hne].
    + rewrite (IH (assignBranch b t)).
      2:{ subst st1. simpl. by rewrite list_lookup_alter_eq, Ht. }
      rewrite (bool_decide_eq_true_2 (l ∈ l :: tasks)) by (by left).
      by case_bool_decide.
    + rewrite (IH t).
      2:{ subst st1. simpl. by rewrite list_lookup_alter_ne. }
      case_bool_decide as Hin; case_bool_decide as Hin'; try done.
      * exfalso. apply Hin'. by right.
      * exfalso. apply elem_of_cons in Hin' as [?|?]; [congruence|done].
Qed.

Lemma moveAll_length env b tasks st :
  length (heap (moveAll env b tasks st).1) = length (heap st).
Proof.
  revert st. induction tasks as [|task tasks IH]; intros st; simpl; [done|].
  set (st1 := emit _ (setHeap (alter (assignBranch b) task (heap st)) st)).
  specialize (IH st1). destruct (moveAll env b tasks st1) as [st2 later]. simpl in *.
  rewrite IH. subst st1. simpl. by rewrite length_alter.
Qed.

(** The task objects of a batch when it is settled. *)
Lemma committing_keeps env b tasks st l t :
  heap st !! l = Some t ->
  exists t', heap (committing env b tasks st) !! l = Some t' /\ grown t t' /\
             (l ∈ tasks -> t_branch t' = Some (branch b)).
Proof.
  intros Ht. unfold committing.
  pose proof (moveAll_heap env (branch b) tasks st l t Ht) as Hmove.
  destruct (arrive_keeps (whileCommitting env) _ l _ Hmove) as (t' & Ht' & Hg & Hb).
  exists t'. split_and!; [done| |].
  - eapply grown_trans; [|exact Hg]. case_bool_decide; [apply grown_assignBranch|apply grown_refl].
  - intros Hin. rewrite Hb. by rewrite bool_decide_eq_true_2.
Qed.

(** ** An iteration that settles a batch *)

Lemma chooseBranch_budget cfg forceNew rows :
  (if forceNew : bool then maxBranchSize cfg
   else maxBranchSize cfg - size (chooseBranch cfg forceNew 1 rows))
  = maxBranchSize cfg - size (chooseBranch cfg forceNew 1 rows).
Proof.
  destruct forceNew; [|done]. unfold chooseBranch.
  destruct rows; simpl; lia.
Qed.

(** A settling iteration: the batch is a prefix of the queue taken under
    the room left on the branch, and the rest is [processBatch]. *)
Lemma mainLoop_settled_trace cfg env st st' tasks failure :
  mainLoop cfg env st = (st', Ok (Settled tasks failure)) ->
  let sA := arrive (whileWaiting env) st in
  exists forceNew q1 pre,
    let b := chooseBranch cfg forceNew 1 (db st) in
    tasks <> [] /\
    getTasksFrom (heap sA) (maxBranchSize cfg - size b) 0 (taskQueue sA) = (tasks, q1) /\
    forallb preparatory pre = true /\
    processBatch cfg env b tasks (setQueue q1 (logged pre sA))
      = (st', Ok (Settled tasks failure)).
Proof.
  intros Hrun sA.
  destruct (mainLoop_trace cfg env st)
    as [[_ Heq]|[(_ & pre & r & Heq & _ & Hr)|(_ & fn & ts & q1 & pre & Hne & Hdrain & Hpre & Heq)]].
  - rewrite Hrun in Heq. discriminate.
  - rewrite Hrun in Heq. injection Heq as _ <-. by destruct Hr as [?|[? ?]].
  - rewrite Hrun in Heq. simpl in Hdrain. rewrite chooseBranch_budget in Hdrain.
    destruct (processBatch_result cfg env (chooseBranch cfg fn 1 (db st)) ts
                (setQueue q1 (logged pre (arrive (whileWaiting env) st)))) as (f & Hf).
    rewrite <- Heq in Hf. simpl in Hf. injection Hf as <- <-.
    exists fn, q1, pre. by split_and!.
Qed.

Lemma elem_of_resolutions cfg h tasks l t p :
  l ∈ tasks -> h !! l = Some t -> p ∈ resolvers t ->
  CallResolve p (toPublicUrl cfg (asFile t)) ∈ resolutions cfg h tasks.
Proof.
  intros Hl Ht Hp. unfold resolutions. apply list_elem_of_In, in_flat_map.
  exists l. split; [by apply list_elem_of_In|]. rewrite Ht.
  apply list_elem_of_In, list_elem_of_fmap. by exists p.
Qed.

Lemma elem_of_rejections e h tasks l t p :
  l ∈ tasks -> h !! l = Some t -> p ∈ rejectors t ->
  CallReject p e ∈ rejections e h tasks.
Proof.
  intros Hl Ht Hp. unfold rejections. apply list_elem_of_In, in_flat_map.
  exists l. split; [by apply list_elem_of_In|]. rewrite Ht.
  apply list_elem_of_In, list_elem_of_fmap. by exists p.
Qed.

(** The promise [createTask] returns waits on the task indexed under the
    hash of the file. *)
Lemma createTask_waits file st :
  wf st ->
  exists l t,
    taskMap (createTask file st).1 !! fb_hash file = Some l /\
    heap (createTask file st).1 !! l = Some t /\
    t_hash t = fb_hash file /\
    (createTask file st).2 ∈ resolvers t /\
    (createTask file st).2 ∈ rejectors t.
Proof.
  intros Hwf. destruct (taskMap st !! fb_hash file) as [l|] eqn:H.
  - destruct (wf_index st Hwf _ _ H) as (t & Ht & Hh).
    rewrite (createTask_hit _ _ _ H). simpl.
    exists l, (addWaiter (nextPromise st) t). rewrite list_lookup_alter_eq, Ht. simpl.
    split_and!; try done; apply elem_of_app; right; by apply list_elem_of_singleton.
  - rewrite (createTask_miss _ _ H). simpl.
    exists (length (heap st)), (addWaiter (nextPromise st) (newTask file)).
    rewrite lookup_insert_eq, lookup_app_r, Nat.sub_diag by done. simpl.
    split_and!; try done; by apply list_elem_of_singleton.
Qed.

(** X1. A promise that waits on a task is settled by the iteration that
    takes the task into its batch: its resolver is called with the URL of
    the task if the batch succeeds, its rejector with the error if it
    fails. *)
Theorem waiting_promise_is_settled cfg env st st' tasks failure l t p :
  heap st !! l = Some t ->
  p ∈ resolvers t ->
  p ∈ rejectors t ->
  mainLoop cfg env st = (st', Ok (Settled tasks failure)) ->
  l ∈ tasks ->
  exists t',
    heap st' !! l = Some t' /\ grown t t' /\
    match failure with
    | None => CallResolve p (toPublicUrl cfg (asFile t')) ∈ log st'
    | Some e => CallReject p e ∈ log st'
    end.
Proof.
  intros Ht Hres Hrej Hrun Hl.
  destruct (mainLoop_settled_trace _ _ _ _ _ _ Hrun) as (fn & q1 & pre & _ & _ & _ & Hpb).
  destruct (arrive_keeps (whileWaiting env) st l t Ht) as (tA & HtA & HgA & _).
  set (b := chooseBranch cfg fn 1 (db st)) in *.
  set (st1 := setQueue q1 (logged pre (arrive (whileWaiting env) st))) in *.
  destruct (committing_keeps env b tasks st1 l tA HtA) as (t' & Ht' & Hg' & _).
  destruct (processBatch_settled cfg env b tasks st1)
    as (f & evs & Hr & Hheap & _ & _ & _ & _ & Hout & _).
  rewrite Hpb in Hr, Hheap, Hout. simpl in Hr, Hheap, Hout. injection Hr as <-.
  rewrite <- Hheap in Ht'.
  assert (Hg : grown t t') by by eapply grown_trans.
  exists t'. split_and!; [done|done|].
  destruct Hg as (_ & _ & _ & Hpr & Hpj).
  destruct failure as [e|].
  - destruct Hout as (_ & -> & _). rewrite !elem_of_app. right; right.
    eapply elem_of_rejections; [done|done|]. exact (elem_of_prefix _ _ _ Hrej Hpj).
  - destruct Hout as (_ & ->). rewrite !elem_of_app. right; right.
    eapply elem_of_resolutions; [done|done|]. exact (elem_of_prefix _ _ _ Hres Hpr).
Qed.

Lemma waiting_promise_is_settled_witness :
  let st := queued_10_10_30 in
  let st' := (mainLoop tiny pushFails st).1 in
  heap st !! 1%nat = Some {| t_size := 10; t_hash := "b"; t_name := "b.png";
                            t_branch := None; resolvers := [1%nat]; rejectors := [1%nat] |} /\
  mainLoop tiny pushFails st = (st', Ok (Settled [0; 1]%nat (Some "push failed"%string))) /\
  CallReject 1 "push failed" ∈ log st'.
Proof.
  assert (H : mainLoop tiny pushFails queued_10_10_30
              = ((mainLoop tiny pushFails queued_10_10_30).1,
                 Ok (Settled [0; 1]%nat (Some "push failed"%string))))
    by (vm_compute; reflexivity).
  split; [reflexivity|]. split; [exact H|].
  destruct (waiting_promise_is_settled tiny pushFails queued_10_10_30 _ _ _ 1%nat _ 1%nat
              eq_refl (list_elem_of_here _ _) (list_elem_of_here _ _) H
              (list_elem_of_further _ _ _ (list_elem_of_here _ _)))
    as (t' & _ & _ & Hlog).
  exact Hlog.
Defined.

(** ** The queue keeps its order *)

(** X2. Whatever way an iteration goes, the queue it leaves is the queue it
    found, less the batch taken from its front, plus the tasks created
    meanwhile at its back: no task is reordered, dropped or queued twice. *)
Theorem mainLoop_keeps_queue_order cfg env st :
  exists drained newer,
    taskQueue st ++ newer = drained ++ taskQueue (mainLoop cfg env st).1 /\
    Forall (fun l => (length (heap st) <= l)%nat) newer /\
    match (mainLoop cfg env st).2 with
    | Ok (Settled tasks _) => drained = tasks
    | _ => drained = []
    end.
Proof.
  destruct (arrive_queue (whileWaiting env) st) as (n1 & Hq1 & Hn1 & Hlen1).
  destruct (mainLoop_trace cfg env st)
    as [[Hq ->]|[(_ & pre & r & -> & _ & Hr)|(_ & fn & ts & q1 & pre & Hne & Hdrain & _ & ->)]].
  - simpl. destruct (arrive_queue (whileWaiting env) (logged [Sleep (flushInterval cfg)] st))
      as (n & Hqn & Hn & _).
    exists [], n. simpl in *. by rewrite Hqn.
  - exists [], n1. simpl. rewrite Hq1. split_and!; [done|done|].
    by destruct Hr as [->|[e ->]].
  - simpl in Hdrain.
    set (b := chooseBranch cfg fn 1 (db st)) in *.
    set (st1 := setQueue q1 (logged pre (arrive (whileWaiting env) st))) in *.
    pose proof (getTasksFrom_split (heap (arrive (whileWaiting env) st))
                  (if fn then maxBranchSize cfg else maxBranchSize cfg - size b) 0
                  (taskQueue (arrive (whileWaiting env) st))) as Hsplit.
    rewrite Hdrain in Hsplit. simpl in Hsplit.
    destruct (processBatch_settled cfg env b ts st1)
      as (f & evs & Hr & _ & Hqueue & _).
    rewrite Hr, Hqueue. unfold committing.
    destruct (arrive_queue (whileCommitting env) (moveAll env (branch b) ts st1).1)
      as (n2 & Hq2 & Hn2 & _).
    pose proof (moveAll_inv env (branch b) ts ts st1) as (_ & _ & Hqm & _).
    rewrite Hq2, Hqm. simpl. exists ts, (n1 ++ n2).
    rewrite app_assoc, <- Hq1, Hsplit, <- app_assoc. split_and!; [done| |done].
    apply Forall_app. split; [done|].
    eapply Forall_impl; [exact Hn2|]. simpl. intros l Hl.
    rewrite moveAll_length in Hl. simpl in Hl. lia.
Qed.

Lemma mainLoop_keeps_queue_order_example :
  taskQueue queued_10_10_30 = [0; 1; 2]%nat /\
  taskQueue (mainLoop tiny pushFails queued_10_10_30).1 = [2]%nat.
Proof. vm_compute. done. Qed.

(** ** What a successful batch stores *)

Lemma processBatch_committed cfg env b tasks st st' :
  processBatch cfg env b tasks st = (st', Ok (Settled tasks None)) ->
  let st2 := committing env b tasks st in
  heap st' = heap st2 /\
  log st' = log st2 ++ [GitAdd (filenamesOf tasks st2); GitCommit "upload";
                        GitPush (toBranchName (branch b)); DbUpsert (rowsOf tasks st2)]
                   ++ resolutions cfg (heap st2) tasks.
Proof.
  intros Hrun st2. revert Hrun. subst st2. unfold committing.
  unfold processBatch, tryFinally, tryCatch, commitBatch, rejectBatch.
  unfold bind, lift, modify, gets, ret, throw, request.
  destruct (moveAll env (branch b) tasks st) as [st1 failure1]. simpl.
  set (st2 := arrive (whileCommitting env) st1).
  destruct failure1 as [e|]; simpl; [discriminate|].
  repeat (match goal with
          | |- context [fails env ?h ?ev] =>
              let Hf := fresh "Hf" in destruct (fails env h ev) eqn:Hf; simpl
          end); try discriminate.
  intros [= <-]. rewrite resolveAll_logged. simpl.
  split; [done|]. by rewrite <- !app_assoc.
Qed.

Lemma rowsOf_Forall2 tasks st :
  (forall l, l ∈ tasks -> is_Some (heap st !! l)) ->
  Forall2 (fun task row => exists t, heap st !! task = Some t /\ row = asFile t)
          tasks (rowsOf tasks st).
Proof.
  unfold rowsOf. induction tasks as [|task tasks IH]; intros Hin; simpl; [constructor|].
  destruct (Hin task) as [t Ht]; [by left|]. rewrite Ht. simpl.
  constructor; [by exists t|]. apply IH. intros l Hl. apply Hin. by right.
Qed.

Lemma rows_total h tasks rows :
  Forall2 (fun task row => exists t, h !! task = Some t /\ row = asFile t) tasks rows ->
  foldr Z.add 0 (f_size <$> rows) = total h tasks.
Proof.
  induction 1 as [|task row tasks rows (t & Ht & ->) _ IH]; [done|].
  rewrite total_cons, <- IH. unfold sizeOf. by rewrite Ht.
Qed.

Lemma total_grown h h' tasks :
  (forall l, l ∈ tasks -> exists t t', h !! l = Some t /\ h' !! l = Some t' /\ grown t t') ->
  total h' tasks = total h tasks.
Proof.
  induction tasks as [|task tasks IH]; intros Hin; [reflexivity|].
  rewrite !total_cons. rewrite IH.
  - destruct (Hin task) as (t & t' & Ht & Ht' & Hs & _); [by left|].
    unfold sizeOf. rewrite Ht, Ht'. simpl. by rewrite Hs.
  - intros l Hl. apply Hin. by right.
Qed.

Lemma Forall2_elem_impl {A B} (P Q : A -> B -> Prop) (xs : list A) (ys : list B) :
  Forall2 P xs ys ->
  (forall x y, x ∈ xs -> P x y -> Q x y) ->
  Forall2 Q xs ys.
Proof.
  induction 1 as [|x y xs ys Hxy _ IH]; intros Himp; constructor.
  - apply Himp; [by left|done].
  - apply IH. intros x' y' Hx'. apply Himp. by right.
Qed.

Lemma Forall2_right {A B} (P : A -> B -> Prop) (Q : B -> Prop) (xs : list A) (ys : list B) :
  Forall2 P xs ys -> (forall x y, P x y -> Q y) -> Forall Q ys.
Proof. induction 1; intros Himp; constructor; eauto. Qed.

(** A batch that was stored: the branch, the rows handed to [upsert], the
    push, and the room the batch was taken under. *)
Lemma mainLoop_committed cfg env st st' tasks :
  wf st ->
  mainLoop cfg env st = (st', Ok (Settled tasks None)) ->
  exists forceNew rows,
    let b := chooseBranch cfg forceNew 1 (db st) in
    GitPush (toBranchName (branch b)) ∈ log st' /\
    DbUpsert rows ∈ log st' /\
    Forall2 (fun task row =>
               exists t, heap st' !! task = Some t /\ row = asFile t /\
                         f_branch row = branch b) tasks rows /\
    foldr Z.add 0 (f_size <$> rows) <= maxBranchSize cfg - size b.
Proof.
  intros Hwf Hrun.
  destruct (mainLoop_settled_trace _ _ _ _ _ _ Hrun) as (fn & q1 & pre & Hne & Hdrain & _ & Hpb).
  set (sA := arrive (whileWaiting env) st) in *.
  set (b := chooseBranch cfg fn 1 (db st)) in *.
  set (st1 := setQueue q1 (logged pre sA)) in *.
  destruct (processBatch_committed _ _ _ _ _ _ Hpb) as (Hheap & Hlog).
  set (st2 := committing env b tasks st1) in *.
  assert (HwfA : wf sA) by by apply wf_arrive.
  pose proof (getTasksFrom_split (heap sA) (maxBranchSize cfg - size b) 0 (taskQueue sA))
    as Hsplit. rewrite Hdrain in Hsplit. simpl in Hsplit.
  assert (HinA : forall l, l ∈ tasks -> exists t, heap sA !! l = Some t).
  { intros l Hl. destruct (wf_queued sA HwfA l) as (t & Ht & _); [|by exists t].
    rewrite Hsplit. apply elem_of_app. by left. }
  assert (Hin2 : forall l, l ∈ tasks ->
            exists t t', heap sA !! l = Some t /\ heap st2 !! l = Some t' /\ grown t t' /\
                         t_branch t' = Some (branch b)).
  { intros l Hl. destruct (HinA l Hl) as (t & Ht).
    destruct (committing_keeps env b tasks st1 l t Ht) as (t' & Ht' & Hg & Hb).
    exists t, t'. split_and!; try done. by apply Hb. }
  exists fn, (rowsOf tasks st2). fold b. split_and!.
  - rewrite Hlog, !elem_of_app. right; left. rewrite !elem_of_cons. auto.
  - rewrite Hlog, !elem_of_app. right; left. rewrite !elem_of_cons. auto.
  - rewrite Hheap.
    assert (HF : Forall2 (fun task row => exists t, heap st2 !! task = Some t /\ row = asFile t)
                   tasks (rowsOf tasks st2)).
    { apply rowsOf_Forall2. intros l Hl. destruct (Hin2 l Hl) as (_ & t' & _ & -> & _). eauto. }
    eapply Forall2_elem_impl; [exact HF|]. simpl.
    intros task row Htask (t & Ht & ->). exists t. split_and!; try done.
    destruct (Hin2 task Htask) as (_ & t' & _ & Ht' & _ & Hb).
    rewrite Ht in Ht'. injection Ht' as <-. simpl. by rewrite Hb.
  - rewrite (rows_total (heap st2) tasks).
    2:{ apply rowsOf_Forall2. intros l Hl. destruct (Hin2 l Hl) as (_ & t' & _ & -> & _). eauto. }
    rewrite (total_grown (heap sA) (heap st2)).
    2:{ intros l Hl. destruct (Hin2 l Hl) as (t & t' & ? & ? & ? & _). eauto. }
    pose proof (getTasksFrom_within (heap sA) (maxBranchSize cfg - size b) 0 (taskQueue sA) tasks)
      as Hfit. rewrite Hdrain in Hfit. simpl in Hfit. by apply Hfit.
Qed.

(** X3. When a batch is stored, the rows handed to [upsert] are the tasks
    of the batch, one row each and in order, all on one branch, and that
    branch is the one the commit was pushed to; it is the branch
    [getBranch] chose for the table the iteration found. *)
Theorem batch_rows_on_pushed_branch cfg env st st' tasks :
  wf st ->
  mainLoop cfg env st = (st', Ok (Settled tasks None)) ->
  exists forceNew rows,
    let b := chooseBranch cfg forceNew 1 (db st) in
    GitPush (toBranchName (branch b)) ∈ log st' /\
    DbUpsert rows ∈ log st' /\
    Forall2 (fun task row =>
               exists t, heap st' !! task = Some t /\ row = asFile t /\
                         f_branch row = branch b) tasks rows.
Proof.
  intros Hwf Hrun.
  destruct (mainLoop_committed cfg env st st' tasks Hwf Hrun) as (fn & rows & H1 & H2 & H3 & _).
  by exists fn, rows.
Qed.

Lemma sumSize_app rows1 rows2 b : sumSize (rows1 ++ rows2) b = sumSize rows1 b + sumSize rows2 b.
Proof.
  unfold sumSize. rewrite filter_app, fmap_app.
  induction (f_size <$> filter (fun f => f_branch f = b) rows1) as [|x xs IH]; simpl; lia.
Qed.

Lemma sumSize_all rows b :
  Forall (fun row => f_branch row = b) rows -> sumSize rows b = foldr Z.add 0 (f_size <$> rows).
Proof.
  unfold sumSize. induction 1 as [|row rows Hrow _ IH]; [done|].
  rewrite filter_cons_True by done. rewrite !fmap_cons. cbn [foldr]. f_equal. exact IH.
Qed.

(** X4. A stored batch fits the room [getBranch] reported: the sizes of
    its rows add up to at most [maxBranchSize] less the size reported. So
    when the batch goes to the branch of the first record without a
    rollover, or the table is empty, the sizes recorded for that branch,
    the new rows included, stay within [maxBranchSize]. *)
Theorem stored_batch_within_capacity cfg env st st' tasks :
  wf st ->
  mainLoop cfg env st = (st', Ok (Settled tasks None)) ->
  exists forceNew rows,
    let b := chooseBranch cfg forceNew 1 (db st) in
    DbUpsert rows ∈ log st' /\
    Forall (fun row => f_branch row = branch b) rows /\
    foldr Z.add 0 (f_size <$> rows) <= maxBranchSize cfg - size b /\
    (db st = [] \/ (exists file rest, db st = file :: rest /\ f_branch file = branch b) ->
     sumSize (db st ++ rows) (branch b) <= maxBranchSize cfg).
Proof.
  intros Hwf Hrun.
  destruct (mainLoop_committed cfg env st st' tasks Hwf Hrun) as (fn & rows & _ & H2 & H3 & H4).
  exists fn, rows. simpl in *.
  assert (Hall : Forall (fun row => f_branch row = branch (chooseBranch cfg fn 1 (db st))) rows).
  { eapply Forall2_right; [exact H3|]. simpl. intros task row (t & _ & _ & Hb). exact Hb. }
  split_and!; try done.
  intros Hcur. rewrite sumSize_app, (sumSize_all rows _ Hall).
  enough (sumSize (db st) (branch (chooseBranch cfg fn 1 (db st)))
          = size (chooseBranch cfg fn 1 (db st))) by lia.
  destruct Hcur as [Hdb|(file & rest & Hdb & Hb)]; rewrite Hdb in *; [done|].
  revert Hb. unfold chooseBranch. destruct fn; simpl; [lia|].
  destruct (_ >=? _); simpl; [lia|done].
Qed.

Lemma batch_rows_on_pushed_branch_witness :
  let st' := (mainLoop tiny allGood queued_10_10_30).1 in
  wf queued_10_10_30 /\
  mainLoop tiny allGood queued_10_10_30 = (st', Ok (Settled [0; 1]%nat None)) /\
  exists rows, DbUpsert rows ∈ log st' /\ length rows = 2%nat.
Proof.
  assert (Hwf : wf queued_10_10_30) by (apply wf_arrive; exact wf_initial).
  assert (H : mainLoop tiny allGood queued_10_10_30
              = ((mainLoop tiny allGood queued_10_10_30).1, Ok (Settled [0; 1]%nat None)))
    by (vm_compute; reflexivity).
  split; [exact Hwf|]. split; [exact H|].
  destruct (batch_rows_on_pushed_branch _ _ _ _ _ Hwf H) as (fn & rows & _ & Hup & Hrows).
  exists rows. split; [exact Hup|]. symmetry. exact (Forall2_length _ _ _ Hrows).
Defined.

Lemma stored_batch_within_capacity_witness :
  let st' := (mainLoop tiny allGood queued_10_10_30).1 in
  wf queued_10_10_30 /\
  mainLoop tiny allGood queued_10_10_30 = (st', Ok (Settled [0; 1]%nat None)) /\
  exists rows, DbUpsert rows ∈ log st' /\
               foldr Z.add 0 (f_size <$> rows) <= maxBranchSize tiny.
Proof.
  assert (Hwf : wf queued_10_10_30) by (apply wf_arrive; exact wf_initial).
  assert (H : mainLoop tiny allGood queued_10_10_30
              = ((mainLoop tiny allGood queued_10_10_30).1, Ok (Settled [0; 1]%nat None)))
    by (vm_compute; reflexivity).
  split; [exact Hwf|]. split; [exact H|].
  destruct (stored_batch_within_capacity _ _ _ _ _ Hwf H) as (fn & rows & Hup & _ & Hfit & _).
  exists rows. split; [exact Hup|].
  destruct fn; exact Hfit.
Defined.

(** ** A task too large for any branch *)

Lemma sumSize_nonneg rows b :
  Forall (fun f => 0 <= f_size f) rows -> 0 <= sumSize rows b.
Proof.
  unfold sumSize. induction 1 as [|row rows Hrow _ IH]; [done|].
  destruct (decide (f_branch row = b)).
  - rewrite filter_cons_True by done. rewrite fmap_cons. cbn [foldr]. lia.
  - by rewrite filter_cons_False.
Qed.

Lemma chooseBranch_size_nonneg cfg forceNew offset rows :
  Forall (fun f => 0 <= f_size f) rows -> 0 <= size (chooseBranch cfg forceNew offset rows).
Proof.
  intros Hrows. unfold chooseBranch. destruct rows as [|file rest]; [done|].
  destruct forceNew; [done|]. destruct (_ >=? _); [done|]. simpl.
  by apply sumSize_nonneg.
Qed.

Lemma wf_setActive b st : wf st -> wf (setActive b st).
Proof. intros [? ? ?]. by split. Qed.

(** One iteration with an oversized task at the front. *)
Lemma oversized_head_iteration cfg env st l q :
  wf st ->
  taskQueue st = l :: q ->
  sizeOf (heap st) l > maxBranchSize cfg ->
  Forall (fun f => 0 <= f_size f) (db st) ->
  exists pre r,
    mainLoop cfg env st = (logged pre (arrive (whileWaiting env) st), r) /\
    forallb preparatory pre = true /\
    (r = Ok NoFit \/ exists e, r = Throw e).
Proof.
  intros Hwf Hq Hbig Hdb.
  destruct (arrive_head (whileWaiting env) st l q Hwf Hq) as (q' & HqA & HsA).
  destruct (mainLoop_trace cfg env st)
    as [[Hnil _]|[(_ & pre & r & Heq & Hpre & Hr)|(_ & fn & ts & q1 & pre & Hne & Hdrain & _)]].
  - congruence.
  - by exists pre, r.
  - exfalso. simpl in Hdrain. rewrite chooseBranch_budget, HqA in Hdrain. simpl in Hdrain.
    pose proof (chooseBranch_size_nonneg cfg fn 1 (db st) Hdb).
    destruct (Z.gtb_spec (0 + sizeOf (heap (arrive (whileWaiting env) st)) l)
                (maxBranchSize cfg - size (chooseBranch cfg fn 1 (db st)))) as [_|?]; [|lia].
    injection Hdrain as <- _. done.
Qed.

(** X5. With a task larger than [maxBranchSize] at the front of the queue
    and no negative size in the table, the loop makes no progress however
    long it runs and whatever fails: the task stays at the front, the table
    is as it was, and every request made is a read of the table, a checkout
    or a warning; no upload is settled and the loop never sleeps. *)
Theorem oversized_head_blocks_the_loop cfg envs st l q :
  wf st ->
  taskQueue st = l :: q ->
  sizeOf (heap st) l > maxBranchSize cfg ->
  Forall (fun f => 0 <= f_size f) (db st) ->
  let st' := (start cfg envs st).1 in
  (exists q', taskQueue st' = l :: q') /\
  db st' = db st /\
  exists evs,
    log st' = log st ++ evs /\
    Forall (fun ev => preparatory ev = true \/ exists msg, ev = Warn msg) evs.
Proof.
  revert st q. induction envs as [|env envs IH]; intros st q Hwf Hq Hbig Hdb; simpl.
  - destruct (isActive st); simpl; (split_and!; [by exists q|done|]);
      exists []; by rewrite app_nil_r.
  - destruct (isActive st) eqn:Ha; simpl.
    2:{ split_and!; [by exists q|done|]. exists []. by rewrite app_nil_r. }
    destruct (oversized_head_iteration cfg env st l q Hwf Hq Hbig Hdb)
      as (pre & r & -> & Hpre & Hr).
    destruct (arrive_head (whileWaiting env) st l q Hwf Hq) as (q' & HqA & HsA).
    destruct (arrive_frame (whileWaiting env) st) as (_ & HdA & HlA).
    set (sA := arrive (whileWaiting env) st) in *.
    set (s1 := if disconnect env then setActive false (logged pre sA) else logged pre sA).
    set (s2 := match r with
               | Ok _ => s1
               | Throw e => emit (Warn ("Loop failed: " +:+ e)) s1
               end).
    assert (Hs2 : exists ws, s2 = logged ws (if disconnect env
                                            then setActive false (logged pre sA)
                                            else logged pre sA) /\
                             Forall (fun ev => exists msg, ev = Warn msg) ws).
    { subst s2 s1. destruct r as [it|e].
      - exists []. by rewrite logged_nil.
      - exists [Warn ("Loop failed: " +:+ e)]. split; [done|].
        apply Forall_singleton. eauto. }
    destruct Hs2 as (ws & Hs2 & Hws).
    assert (Hwf2 : wf s2).
    { rewrite Hs2. apply wf_logged. destruct (disconnect env).
      - by apply wf_setActive, wf_logged, wf_arrive.
      - by apply wf_logged, wf_arrive. }
    assert (Hq2 : taskQueue s2 = l :: q') by (rewrite Hs2; by destruct (disconnect env)).
    assert (Hh2 : heap s2 = heap sA) by (rewrite Hs2; by destruct (disconnect env)).
    assert (Hd2 : db s2 = db st) by (rewrite Hs2, <- HdA; by destruct (disconnect env)).
    assert (Hl2 : log s2 = log st ++ pre ++ ws).
    { rewrite Hs2, <- HlA, app_assoc. by destruct (disconnect env). }
    destruct (IH s2 q' Hwf2 Hq2) as ((q'' & Hq'') & Hdb'' & evs & Hlog'' & Hevs'').
    { by rewrite Hh2, HsA. }
    { by rewrite Hd2. }
    split_and!; [by exists q''|by rewrite Hdb''|].
    exists (pre ++ ws ++ evs). rewrite Hlog'', Hl2, <- !app_assoc. split; [done|].
    apply Forall_app. split.
    { clear -Hpre. induction pre as [|ev pre IHp]; [constructor|]. simpl in Hpre.
      apply andb_prop in Hpre as [? ?]. constructor; [by left|by apply IHp]. }
    apply Forall_app. split; [|done].
    eapply Forall_impl; [exact Hws|]. simpl. intros ev ?. by right.
Qed.

Lemma oversized_head_blocks_the_loop_witness :
  let st := setActive true oversized in
  wf st /\
  taskQueue (start tiny [allGood; databaseDown; allGood] st).1 = [0%nat] /\
  db (start tiny [allGood; databaseDown; allGood] st).1 = [].
Proof.
  assert (Hwf : wf (setActive true oversized)).
  { apply wf_setActive, wf_arrive. exact wf_initial. }
  assert (Hbig : sizeOf (heap (setActive true oversized)) 0%nat > maxBranchSize tiny)
    by reflexivity.
  split; [exact Hwf|].
  destruct (oversized_head_blocks_the_loop tiny [allGood; databaseDown; allGood]
              (setActive true oversized) 0%nat [] Hwf eq_refl Hbig (Forall_nil_2 _))
    as (_ & Hdb & _).
  split; [vm_compute; reflexivity|exact Hdb].
Defined.

(** ** Shutting down *)

Lemma start_inactive cfg envs st :
  isActive st = false -> start cfg envs st = (st, Exited).
Proof. intros Ha. destruct envs; simpl; by rewrite Ha. Qed.

(** X6. The loop stops at the first iteration during which the
    [disconnect] event fires: that iteration runs to its end, no later one
    is started, and [isActive] is false; what is still queued then stays
    queued. *)
Theorem start_stops_at_disconnect cfg envs1 env envs2 st :
  isActive st = true ->
  Forall (fun env => disconnect env = false) envs1 ->
  disconnect env = true ->
  start cfg (envs1 ++ env :: envs2) st = ((start cfg (envs1 ++ [env]) st).1, Exited) /\
  isActive (start cfg (envs1 ++ env :: envs2) st).1 = false.
Proof.
  revert st. induction envs1 as [|env1 envs1 IH]; intros st Ha Hd1 Hd; simpl; rewrite Ha.
  - pose proof (mainLoop_isActive cfg env st) as Hkeep.
    destruct (mainLoop cfg env st) as [st1 r]. rewrite Hd. simpl in *.
    set (s2 := match r with
               | Ok _ => setActive false st1
               | Throw e => emit (Warn ("Loop failed: " +:+ e)) (setActive false st1)
               end).
    assert (Hs2 : isActive s2 = false) by (subst s2; by destruct r).
    rewrite (start_inactive cfg envs2 s2 Hs2). fold s2. rewrite Hs2. done.
  - inversion Hd1 as [|? ? Hd1a Hd1b]; subst.
    pose proof (mainLoop_isActive cfg env1 st) as Hkeep.
    destruct (mainLoop cfg env1 st) as [st1 r]. rewrite Hd1a. simpl in *.
    apply IH; [|done|done]. destruct r; simpl; congruence.
Qed.

Lemma start_stops_at_disconnect_witness :
  let leaving := {| fails := fun _ _ => None; whileWaiting := []; whileCommitting := [];
                    disconnect := true |} in
  let st := setActive true queued_10_10_30 in
  isActive st = true /\
  (start tiny [allGood; leaving; allGood; allGood] st).2 = Exited.
Proof.
  split; [reflexivity|].
  pose proof (start_stops_at_disconnect tiny [allGood]
    {| fails := fun _ _ => None; whileWaiting := []; whileCommitting := [];
       disconnect := true |} [allGood; allGood] (setActive true queued_10_10_30)
    eq_refl (Forall_cons_2 _ allGood [] eq_refl (Forall_nil_2 _)) eq_refl) as [H _].
  exact (f_equal snd H).
Defined.

(** ** Uploading what is not stored yet *)

Section Uploads.

Variable decodeBase64 : string -> list Byte.byte.
Variable httpBody : string -> list Byte.byte.
Variable sha1hex : list Byte.byte -> string.
Variable sniffExt : list Byte.byte -> option string.

Lemma getAssetBuffer_logged env url st :
  exists evs,
    (getAssetBuffer decodeBase64 httpBody env url st).1 = logged evs st /\
    Forall (fun ev => ev = HttpGet url) evs.
Proof.
  unfold getAssetBuffer. destruct (String.prefix PTC_BASE64 url).
  - exists []. by rewrite logged_nil.
  - unfold bind, request, ret. destruct (fails env (log st) (HttpGet url)); simpl;
      exists [HttpGet url]; by repeat constructor.
Qed.


Lemma createTask_promise file st : (createTask file st).2 = nextPromise st.
Proof. unfold createTask. simpl. by destruct (taskMap st !! fb_hash file). Qed.

(** [upload], case by case. *)
Lemma upload_cases cfg env url name st :
  exists evs,
    Forall (fun ev => ev = HttpGet url \/ (exists hash, ev = DbGetByHash hash)
                      \/ exists hash, ev = FsWriteFile hash) evs /\
    ((exists r, upload decodeBase64 httpBody sha1hex sniffExt cfg env url name st
                = (logged evs st, r) /\
                ((exists e, r = Throw e) \/ exists u, r = Ok (Url u))) \/
     (exists file,
        upload decodeBase64 httpBody sha1hex sniffExt cfg env url name st
        = ((createTask file (logged evs st)).1, Ok (Pending (nextPromise st))) /\
        FsWriteFile (fb_hash file) ∈ evs)).
Proof.
  destruct (upload decodeBase64 httpBody sha1hex sniffExt cfg env url name st)
    as [st' r0] eqn:Hres. revert Hres.
  destruct (getAssetBuffer_logged env url st) as (evs0 & Hst1 & Hevs0).
  assert (Hevs0' : Forall (fun ev => ev = HttpGet url \/ (exists hash, ev = DbGetByHash hash)
                                     \/ exists hash, ev = FsWriteFile hash) evs0).
  { eapply Forall_impl; [exact Hevs0|]. simpl. intros ev ?. by left. }
  unfold upload. unfold bind at 1.
  destruct (getAssetBuffer decodeBase64 httpBody env url st) as [st1 [buffer|e]];
    simpl in Hst1; subst st1.
  2:{ intros [= <- <-]. exists evs0. split; [done|]. left. eexists. split; [reflexivity|].
      left. eauto. }
  set (hash := sha1hex buffer).
  assert (Hlookup : Forall (fun ev => ev = HttpGet url \/ (exists hash, ev = DbGetByHash hash)
                                      \/ exists hash, ev = FsWriteFile hash)
                      (evs0 ++ [DbGetByHash hash])).
  { apply Forall_app. split; [done|]. apply Forall_singleton. right; left. eauto. }
  unfold bind at 1. unfold request at 1.
  destruct (fails env (log (logged evs0 st)) (DbGetByHash hash)); rewrite emit_logged, logged_logged.
  { intros [= <- <-]. exists (evs0 ++ [DbGetByHash hash]). split; [done|]. left.
    eexists. split; [reflexivity|]. left. eauto. }
  unfold bind at 1. unfold gets. simpl.
  destruct (filter (fun f => f_hash f = hash) (db st)) as [|file rest].
  2:{ intros [= <- <-]. exists (evs0 ++ [DbGetByHash hash]). split; [done|]. left.
      eexists. split; [reflexivity|]. right. eauto. }
  assert (Hname : forall n,
    bind (request env (FsWriteFile hash))
      (fun _ => bind (lift (createTask {| fb_size := Z.of_nat (length buffer);
                                          fb_hash := hash; fb_name := n |}))
                  (fun p => ret (Pending p)))
      (logged (evs0 ++ [DbGetByHash hash]) st) = (st', r0) ->
    exists evs,
      Forall (fun ev => ev = HttpGet url \/ (exists hash, ev = DbGetByHash hash)
                        \/ exists hash, ev = FsWriteFile hash) evs /\
      ((exists r, (st', r0) = (logged evs st, r) /\
                  ((exists e, r = Throw e) \/ exists u, r = Ok (Url u))) \/
       (exists file,
          (st', r0) = ((createTask file (logged evs st)).1, Ok (Pending (nextPromise st))) /\
          FsWriteFile (fb_hash file) ∈ evs))).
  { intros n. unfold bind, request, lift, ret.
    destruct (fails env _ (FsWriteFile hash)); rewrite emit_logged, logged_logged.
    - intros [= <- <-]. exists ((evs0 ++ [DbGetByHash hash]) ++ [FsWriteFile hash]). split.
      { apply Forall_app. split; [done|]. apply Forall_singleton. right; right. eauto. }
      left. eexists. split; [reflexivity|]. left. eauto.
    - pose proof (createTask_promise {| fb_size := Z.of_nat (length buffer);
                                        fb_hash := hash; fb_name := n |}
                    (logged ((evs0 ++ [DbGetByHash hash]) ++ [FsWriteFile hash]) st)) as Hp.
      destruct (createTask _ _) as [st2 p] eqn:Hct. simpl in Hp. subst p.
      intros [= <- <-]. exists ((evs0 ++ [DbGetByHash hash]) ++ [FsWriteFile hash]). split.
      { apply Forall_app. split; [done|]. apply Forall_singleton. right; right. eauto. }
      right. exists {| fb_size := Z.of_nat (length buffer); fb_hash := hash; fb_name := n |}.
      rewrite Hct. split; [done|].
      apply elem_of_app. right. by apply list_elem_of_singleton. }
  unfold bind at 1.
  destruct name as [[|c s]|].
  - unfold getFileName. destruct (sniffExt buffer) as [ext|].
    + exact (Hname ("untitled." +:+ ext)).
    + intros [= <- <-]. exists (evs0 ++ [DbGetByHash hash]). split; [done|]. left.
      eexists. split; [reflexivity|]. left. eauto.
  - exact (Hname (String c s)).
  - unfold getFileName. destruct (sniffExt buffer) as [ext|].
    + exact (Hname ("untitled." +:+ ext)).
    + intros [= <- <-]. exists (evs0 ++ [DbGetByHash hash]). split; [done|]. left.
      eexists. split; [reflexivity|]. left. eauto.
Qed.

(** X7. An [upload] that throws, or that returns the URL of a stored
    record, leaves the queue, the index, the task objects, the table and
    the promise counter as they were: only a call that returns a pending
    promise has touched them, through one [createTask], after asking for
    the bytes to be written to the scratch directory. *)
Theorem upload_touches_queue_only_when_pending cfg env url name st :
  let st' := (upload decodeBase64 httpBody sha1hex sniffExt cfg env url name st).1 in
  match (upload decodeBase64 httpBody sha1hex sniffExt cfg env url name st).2 with
  | Ok (Pending p) =>
      p = nextPromise st /\
      exists evs file,
        st' = (createTask file (logged evs st)).1 /\
        FsWriteFile (fb_hash file) ∈ evs
  | _ =>
      exists evs, st' = logged evs st
  end.
Proof.
  destruct (upload_cases cfg env url name st)
    as (evs & _ & [(r & -> & [[e ->]|[u ->]])|(file & -> & Hw)]); simpl; eauto.
Qed.

(** X8. Without a usable name ([name] left out or empty) and with bytes
    whose type [file-type] does not recognise, [upload] throws once the
    lookup has found no record: nothing is written to the scratch
    directory and no task is created. *)
Theorem upload_unknown_type_throws cfg env url name st st1 buffer :
  getAssetBuffer decodeBase64 httpBody env url st = (st1, Ok buffer) ->
  fails env (log st1) (DbGetByHash (sha1hex buffer)) = None ->
  filter (fun f => f_hash f = sha1hex buffer) (db st) = [] ->
  name = None \/ name = Some ""%string ->
  sniffExt buffer = None ->
  exists evs e,
    upload decodeBase64 httpBody sha1hex sniffExt cfg env url name st
      = (logged evs st, Throw e) /\
    forallb (fun ev => negb (isWriteFile ev)) evs = true.
Proof.
  intros Hbuf Hlookup Hrow Hname Hext.
  destruct (getAssetBuffer_logged env url st) as (evs & Hst1 & Hevs).
  rewrite Hbuf in Hst1. simpl in Hst1. subst st1.
  exists (evs ++ [DbGetByHash (sha1hex buffer)]), "TypeError: Cannot destructure property 'ext'"%string.
  split.
  - unfold upload. unfold bind at 1. rewrite Hbuf.
    unfold bind at 1. unfold request. rewrite Hlookup.
    unfold bind at 1. unfold gets. simpl. rewrite Hrow.
    unfold bind at 1. unfold getFileName. rewrite Hext.
    destruct Hname as [->| ->]; unfold throw; by rewrite emit_logged, logged_logged.
  - rewrite forallb_app. simpl. rewrite andb_true_r.
    clear -Hevs. induction Hevs as [|ev evs -> _ IH]; [done|]. simpl. exact IH.
Qed.


(** X10. When neither the table nor the index knows the digest, [upload]
    asks for the bytes to be written to the scratch directory under the
    digest, then queues one new task at the back: its size is the number of
    bytes, its name the one given or, without a usable one, [untitled.]
    followed by the extension found, and its only waiter the promise
    returned. *)
Theorem upload_queues_new_task cfg env url st st1 buffer name ext n :
  getAssetBuffer decodeBase64 httpBody env url st = (st1, Ok buffer) ->
  fails env (log st1) (DbGetByHash (sha1hex buffer)) = None ->
  filter (fun f => f_hash f = sha1hex buffer) (db st) = [] ->
  (name = Some n /\ n <> ""%string) \/
  ((name = None \/ name = Some ""%string) /\ sniffExt buffer = Some ext /\
   n = ("untitled." +:+ ext)%string) ->
  fails env (log st1 ++ [DbGetByHash (sha1hex buffer)]) (FsWriteFile (sha1hex buffer)) = None ->
  taskMap st !! sha1hex buffer = None ->
  let out := upload decodeBase64 httpBody sha1hex sniffExt cfg env url name st in
  let p := nextPromise st in
  out.2 = Ok (Pending p) /\
  taskQueue out.1 = taskQueue st ++ [length (heap st)] /\
  taskMap out.1 = <[sha1hex buffer := length (heap st)]> (taskMap st) /\
  heap out.1 = heap st ++ [ {| t_size := Z.of_nat (length buffer); t_hash := sha1hex buffer;
                               t_name := n; t_branch := None;
                               resolvers := [p]; rejectors := [p] |} ] /\
  db out.1 = db st /\
  log out.1 = log st1 ++ [DbGetByHash (sha1hex buffer); FsWriteFile (sha1hex buffer)].
Proof.
  intros Hbuf Hlookup Hrow Hname Hwrite Hidx out p. subst out p.
  destruct (getAssetBuffer_logged env url st) as (evs & Hst1 & Hevs).
  rewrite Hbuf in Hst1. simpl in Hst1. subst st1.
  set (evs' := evs ++ [DbGetByHash (sha1hex buffer); FsWriteFile (sha1hex buffer)]).
  set (file := {| fb_size := Z.of_nat (length buffer); fb_hash := sha1hex buffer;
                  fb_name := n |}).
  assert (Hup : upload decodeBase64 httpBody sha1hex sniffExt cfg env url name st
                = ((createTask file (logged evs' st)).1, Ok (Pending (nextPromise st)))).
  { unfold upload. unfold bind at 1. rewrite Hbuf.
    unfold bind at 1. unfold request at 1. rewrite Hlookup.
    unfold bind at 1. unfold gets. simpl. rewrite Hrow.
    assert (Hn : (match name with
                  | Some (String c s) => ret (String c s)
                  | _ => getFileName sniffExt buffer
                  end) = ret n).
    { destruct Hname as [[-> Hne]|[Hnone [Hext ->]]].
      - by destruct n.
      - unfold getFileName. rewrite Hext. by destruct Hnone as [->| ->]. }
    unfold bind at 1. rewrite Hn. unfold ret at 1.
    unfold bind at 1. unfold request. simpl in Hwrite. simpl. rewrite Hwrite.
    unfold bind, lift, ret. rewrite !emit_logged, !logged_logged. fold file.
    change (evs ++ [DbGetByHash (sha1hex buffer)] ++ [FsWriteFile (sha1hex buffer)])
      with evs'.
    pose proof (createTask_promise file (logged evs' st)) as Hp.
    destruct (createTask file (logged evs' st)) as [st2 p]. simpl in Hp. by subst p. }
  rewrite Hup. rewrite (createTask_miss file (logged evs' st)) by done. simpl.
  split_and!; try done. subst evs'. by rewrite <- app_assoc.
Qed.

End Uploads.

Lemma upload_unknown_type_throws_witness :
  let nothing := fun _ : string => @nil Byte.byte in
  let digest := fun _ : list Byte.byte => "a"%string in
  exists evs e,
    upload nothing nothing digest (fun _ => None) tiny allGood "base64://aGVsbG8=" None initial
      = (logged evs initial, Throw e).
Proof.
  destruct (upload_unknown_type_throws (fun _ => []) (fun _ => []) (fun _ => "a"%string)
              (fun _ => None) tiny allGood "base64://aGVsbG8=" None initial initial []
              eq_refl eq_refl eq_refl (or_introl eq_refl) eq_refl) as (evs & e & H & _).
  by exists evs, e.
Defined.


Lemma upload_queues_new_task_witness :
  let nothing := fun _ : string => @nil Byte.byte in
  let digest := fun _ : list Byte.byte => "d"%string in
  let out := upload nothing nothing digest (fun _ => Some "png"%string) tiny allGood
               "base64://aGVsbG8=" None queued_10_10_30 in
  out.2 = Ok (Pending 3%nat) /\ taskQueue out.1 = [0; 1; 2; 3]%nat.
Proof.
  destruct (upload_queues_new_task (fun _ => []) (fun _ => []) (fun _ => "d"%string)
              (fun _ => Some "png"%string) tiny allGood "base64://aGVsbG8=" queued_10_10_30
              queued_10_10_30 [] None "png" "untitled.png"
              eq_refl eq_refl eq_refl
              (or_intror (conj (or_introl eq_refl) (conj eq_refl eq_refl)))
              eq_refl eq_refl)
    as (H1 & H2 & _).
  split; [exact H1|exact H2].
Defined.


(** ** Starting up *)

Lemma runInit_history ifails history steps :
  exists more, (runInit ifails history steps).1 = history ++ more.
Proof.
  revert history. induction steps as [|step rest IH]; intros history; simpl.
  - exists []. by rewrite app_nil_r.
  - destruct (ifails history step).
    + by exists [step].
    + destruct (IH (history ++ [step])) as (more & ->). exists (step :: more).
      by rewrite <- app_assoc.
Qed.

Lemma runInit_failed ifails history steps e :
  (runInit ifails history steps).2 = Some e ->
  exists h step, ifails h step = Some e.
Proof.
  revert history. induction steps as [|step rest IH]; intros history; simpl; [done|].
  destruct (ifails history step) eqn:Hf; simpl.
  - intros [= <-]. eauto.
  - apply IH.
Qed.

(** When [initRepo] throws, only the log of the store may have grown. *)
Lemma initRepo_throws_logged cfg baseDir ifails env st e :
  (initRepo cfg baseDir ifails env st).2 = Throw e ->
  exists evs, (initRepo cfg baseDir ifails env st).1.1 = logged evs st.
Proof.
  unfold initRepo.
  destruct (runInit ifails [] [FsAccess baseDir ".git"; GitOpen baseDir]) as [tried [e1|]];
    [|discriminate].
  destruct (runInit ifails tried _) as [done' [e2|]].
  - intros _. exists []. by rewrite logged_nil.
  - destruct (checkout_state cfg env false true 1 st) as (evs & Hst & _).
    destruct (checkout cfg env false true 1 st) as [st' [res|e3]]; [discriminate|].
    intros _. simpl in *. by exists evs.
Qed.

(** X11. [initRepo] leaves a working copy it can open alone: when [.git]
    is accessible and git opens the directory, it asks for nothing else and
    checks nothing out. Otherwise, if nothing fails, it creates the
    directory, initialises the repository, adds the remote [origin] with the
    token in its URL, turns [core.autocrlf] off, and checks out the branch
    [getBranch] chooses for the table, fetching it and resetting to the
    remote when that branch has a recorded size. Whenever it throws, the
    store is as it was, up to the log. *)
Theorem initRepo_creates_only_what_is_missing cfg baseDir ifails env st :
  let access := FsAccess baseDir ".git" in
  let create := [FsMkdir baseDir; GitOpen baseDir; GitInit;
                 GitAddRemote "origin" (remoteUrl cfg);
                 GitAddConfig "core.autocrlf" "false"] in
  (ifails [] access = None -> ifails [access] (GitOpen baseDir) = None ->
   initRepo cfg baseDir ifails env st = (st, [access; GitOpen baseDir], Ok tt)) /\
  (forall e, ifails [] access = Some e ->
   (forall h step, h <> [] -> ifails h step = None) ->
   healthy env ->
   let b := chooseBranch cfg false 1 (db st) in
   exists reads,
     initRepo cfg baseDir ifails env st
       = (logged (reads ++ checkoutRequests true b) st, access :: create, Ok tt)) /\
  (forall e, (initRepo cfg baseDir ifails env st).2 = Throw e ->
   exists evs, (initRepo cfg baseDir ifails env st).1.1 = logged evs st).
Proof.
  intros access create. split_and!.
  - intros Ha Ho. unfold initRepo. simpl. fold access. by rewrite Ha, Ho.
  - intros e Ha Hrest Hh b. unfold initRepo. simpl. fold access. rewrite Ha.
    rewrite !Hrest by done. simpl.
    destruct (checkout_healthy cfg env false true 1 st Hh) as (reads & res & Hget & ->).
    assert (res = b) as ->.
    { apply (getBranch_result cfg env false 1 st). by rewrite Hget. }
    by exists reads.
  - intros e. apply initRepo_throws_logged.
Qed.

Lemma initRepo_creates_only_what_is_missing_witness :
  let missing := fun (h : list InitEvent) (step : InitEvent) =>
                   match h with [] => Some "ENOENT"%string | _ => None end in
  healthy allGood /\
  exists reads,
    initRepo tiny "repo" missing allGood oneRecord
    = (logged (reads ++ checkoutRequests true (chooseBranch tiny false 1 (db oneRecord)))
         oneRecord,
       [FsAccess "repo" ".git"; FsMkdir "repo"; GitOpen "repo"; GitInit;
        GitAddRemote "origin" (remoteUrl tiny);
        GitAddConfig "core.autocrlf" "false"],
       Ok tt).
Proof.
  assert (Hh : healthy allGood) by (intros history ev; reflexivity).
  split; [exact Hh|].
  refine (proj1 (proj2 (initRepo_creates_only_what_is_missing tiny "repo"
            (fun h _ => match h with [] => Some "ENOENT"%string | _ => None end)
            allGood oneRecord)) "ENOENT"%string eq_refl _ Hh).
  intros h step Hne. by destruct h.
Defined.

Example initRepo_on_a_full_branch :
  initRepo tiny "repo" (fun h _ => match h with [] => Some "ENOENT"%string | _ => None end)
    allGood oneRecord
  = (logged [DbGetFirst; DbSumSize 1; GitCheckoutOrphan "       2"; GitRmAll] oneRecord,
     [FsAccess "repo" ".git"; FsMkdir "repo"; GitOpen "repo"; GitInit;
      GitAddRemote "origin" "https://t@github.com/u/r.git";
      GitAddConfig "core.autocrlf" "false"],
     Ok tt).
Proof. vm_compute. reflexivity. Qed.

(** X12. When [initRepo] throws, the [connect] handler ends before it sets
    [isActive] and before [start]: the loop never runs, the queue, the index
    and the task objects are as they were, and a later [start] on that store
    exits at once as long as [isActive] is false, so uploads queued from
    then on are never settled. *)
Theorem onConnect_failed_init_never_starts cfg baseDir ifails envInit envs st e :
  (initRepo cfg baseDir ifails envInit st).2 = Throw e ->
  let out := onConnect cfg baseDir ifails envInit envs st in
  out.2 = None /\
  (exists evs, out.1.1 = logged evs st) /\
  (isActive st = false -> forall envs', start cfg envs' out.1.1 = (out.1.1, Exited)).
Proof.
  intros Hthrow out. subst out.
  destruct (initRepo_throws_logged cfg baseDir ifails envInit st e Hthrow) as (evs & Hst).
  unfold onConnect.
  destruct (initRepo cfg baseDir ifails envInit st) as [[st1 steps] r].
  simpl in Hthrow, Hst. subst r st1. simpl. split_and!; [done|by exists evs|].
  intros Ha envs'. by apply start_inactive.
Qed.

Lemma onConnect_failed_init_never_starts_witness :
  let broken := fun (h : list InitEvent) (step : InitEvent) => Some "EACCES"%string in
  (initRepo tiny "repo" broken allGood queued_10_10_30).2 = Throw "EACCES"%string /\
  (onConnect tiny "repo" broken allGood [allGood; allGood] queued_10_10_30).2 = None.
Proof.
  assert (H : (initRepo tiny "repo" (fun _ _ => Some "EACCES"%string) allGood
                 queued_10_10_30).2 = Throw "EACCES"%string) by reflexivity.
  split; [exact H|].
  exact (proj1 (onConnect_failed_init_never_starts tiny "repo" _ allGood [allGood; allGood]
                  queued_10_10_30 _ H)).
Defined.

(** ** Objects as association lists *)

Lemma property_assign_eq {V} (k : string) (v : V) (obj : list (string * V)) :
  property k (assign k v obj) = Some v.
Proof.
  induction obj as [|[k' w] rest IH]; simpl.
  - now rewrite String.eqb_refl.
  - destruct (String.eqb k' k) eqn:E; simpl; rewrite E; [reflexivity | exact IH].
Qed.

Lemma property_assign_ne {V} (k k' : string) (v : V) (obj : list (string * V)) :
  k <> k' -> property k' (assign k v obj) = property k' obj.
Proof.
  intros Hne.
  induction obj as [|[k0 w] rest IH]; simpl.
  - destruct (String.eqb k k') eqn:E; [apply String.eqb_eq in E; contradiction | reflexivity].
  - destruct (String.eqb k0 k) eqn:E; simpl.
    + apply String.eqb_eq in E. subst k0.
      destruct (String.eqb k k') eqn:E'; [apply String.eqb_eq in E'; contradiction | reflexivity].
    + destruct (String.eqb k0 k'); [reflexivity | exact IH].
Qed.

Lemma property_delete_eq {V} (k : string) (obj : list (string * V)) :
  property k (deleteProperty k obj) = None.
Proof.
  induction obj as [|[k0 w] rest IH]; simpl; [reflexivity|].
  destruct (String.eqb k0 k) eqn:E; simpl; [exact IH | rewrite E; exact IH].
Qed.

Lemma property_delete_ne {V} (k k' : string) (obj : list (string * V)) :
  k <> k' -> property k' (deleteProperty k obj) = property k' obj.
Proof.
  intros Hne.
  induction obj as [|[k0 w] rest IH]; simpl; [reflexivity|].
  destruct (String.eqb k0 k) eqn:E; simpl.
  - apply String.eqb_eq in E. subst k0.
    destruct (String.eqb k k') eqn:E'; [apply String.eqb_eq in E'; contradiction | exact IH].
  - destruct (String.eqb k0 k'); [reflexivity | exact IH].
Qed.

Lemma property_None {V} (k : string) (obj : list (string * V)) :
  property k obj = None <-> k ∉ obj.*1.
Proof.
  induction obj as [|[k0 w] rest IH]; simpl.
  - split; [intros _; apply not_elem_of_nil | reflexivity].
  - destruct (String.eqb k0 k) eqn:E.
    + apply String.eqb_eq in E. subst k0. split; [discriminate|].
      intros H. exfalso. apply H. left.
    + apply String.eqb_neq in E. rewrite IH. rewrite not_elem_of_cons. split.
      * intros H. split; [congruence | exact H].
      * intros [_ H]. exact H.
Qed.

Lemma property_elem_of {V} (k : string) (v : V) (obj : list (string * V)) :
  property k obj = Some v -> (k, v) ∈ obj.
Proof.
  induction obj as [|[k0 w] rest IH]; simpl; [discriminate|].
  destruct (String.eqb k0 k) eqn:E.
  - apply String.eqb_eq in E. subst k0. intros [= ->]. left.
  - intros H. right. exact (IH H).
Qed.

Lemma elem_of_property {V} (k : string) (v : V) (obj : list (string * V)) :
  NoDup obj.*1 -> (k, v) ∈ obj -> property k obj = Some v.
Proof.
  induction obj as [|[k0 w] rest IH]; simpl; intros Hnd Hin.
  - now apply elem_of_nil in Hin.
  - apply NoDup_cons in Hnd as [Hnot Hnd].
    apply elem_of_cons in Hin as [Heq | Hin].
    + injection Heq as -> ->. now rewrite String.eqb_refl.
    + destruct (String.eqb k0 k) eqn:E.
      * apply String.eqb_eq in E. subst k0. exfalso. apply Hnot.
        apply list_elem_of_fmap. exists (k, v). split; [reflexivity | exact Hin].
      * exact (IH Hnd Hin).
Qed.

Lemma assign_keys {V} (k : string) (v : V) (obj : list (string * V)) :
  (assign k v obj).*1 = if bool_decide (k ∈ obj.*1) then obj.*1 else obj.*1 ++ [k].
Proof.
  induction obj as [|[k0 w] rest IH]; csimpl.
  - reflexivity.
  - destruct (String.eqb k0 k) eqn:E; csimpl.
    + apply String.eqb_eq in E. subst k0.
      rewrite bool_decide_eq_true_2 by left. reflexivity.
    + apply String.eqb_neq in E. rewrite IH.
      destruct (bool_decide (k ∈ rest.*1)) eqn:B.
      * apply bool_decide_eq_true in B.
        rewrite bool_decide_eq_true_2 by (right; exact B). reflexivity.
      * apply bool_decide_eq_false in B.
        rewrite bool_decide_eq_false_2; [reflexivity|].
        rewrite not_elem_of_cons. split; [congruence | exact B].
Qed.

Lemma NoDup_assign {V} (k : string) (v : V) (obj : list (string * V)) :
  NoDup obj.*1 -> NoDup (assign k v obj).*1.
Proof.
  intros Hnd. rewrite assign_keys. case_bool_decide as B; [exact Hnd|].
  apply NoDup_app. split_and!.
  - exact Hnd.
  - intros x Hx Hk. apply list_elem_of_singleton in Hk. subst x. contradiction.
  - apply NoDup_singleton.
Qed.

Lemma spread_cons {V} (a : list (string * V)) (kv : string * V) (b : list (string * V)) :
  spread a (kv :: b) = spread (assign kv.1 kv.2 a) b.
Proof. reflexivity. Qed.

Lemma NoDup_spread {V} (a b : list (string * V)) :
  NoDup a.*1 -> NoDup (spread a b).*1.
Proof.
  revert a. induction b as [|kv b IH]; intros a Hnd; [exact Hnd|].
  rewrite spread_cons. apply IH, NoDup_assign, Hnd.
Qed.

Lemma property_spread {V} (k : string) (a b : list (string * V)) :
  NoDup b.*1 ->
  property k (spread a b) =
  match property k b with Some v => Some v | None => property k a end.
Proof.
  revert a. induction b as [|[k0 w] b IH]; intros a Hnd; [reflexivity|].
  rewrite spread_cons. simpl in Hnd. apply NoDup_cons in Hnd as [Hnot Hnd].
  rewrite (IH _ Hnd). simpl.
  destruct (String.eqb k0 k) eqn:E.
  - apply String.eqb_eq in E. subst k0.
    apply property_None in Hnot. rewrite Hnot. apply property_assign_eq.
  - apply String.eqb_neq in E.
    destruct (property k b); [reflexivity|]. now apply property_assign_ne.
Qed.

(** ** Queries and the MongoDB driver *)

Lemma transformEntry_undefined (e : Entry) :
  transformEntry e = None <-> emptyArrayField e = true.
Proof.
  destruct e as [es|es|e|key q]; simpl; try (split; discriminate).
  destruct q as [v|vs|source|ops]; simpl; try (split; discriminate).
  destruct vs; split; try discriminate; reflexivity.
Qed.

Lemma transformInto_undefined (query : list Entry) (filter : list (string * FilterValue)) :
  transformInto filter query = None <-> Exists (fun e => emptyArrayField e = true) query.
Proof.
  revert filter. induction query as [|e rest IH]; intros filter; simpl.
  - split; [discriminate | intros H; inversion H].
  - destruct (transformEntry e) as [[k v]|] eqn:E.
    + rewrite IH. rewrite Exists_cons. split; [now right|].
      intros [H | H]; [|exact H].
      apply transformEntry_undefined in H. congruence.
    + split; [|reflexivity]. intros _. left. now apply transformEntry_undefined.
Qed.

Lemma emptyArrayField_spec (e : Entry) :
  emptyArrayField e = true <-> exists key, e = Field key (QList []).
Proof.
  split.
  - destruct e as [es|es|e|key q]; simpl; try discriminate.
    destruct q as [v|vs|source|ops]; try discriminate.
    destruct vs; [|discriminate]. intros _. now exists key.
  - intros [key ->]. reflexivity.
Qed.

Lemma transformQuery_undefined (query : list Entry) :
  transformQuery query = None <-> exists key, Field key (QList []) ∈ query.
Proof.
  unfold transformQuery. rewrite transformInto_undefined, Exists_exists. split.
  - intros (e & Hin & He). apply emptyArrayField_spec in He as [key ->]. now exists key.
  - intros [key Hin]. exists (Field key (QList [])). split; [exact Hin | reflexivity].
Qed.

(** X13. A query with an empty array of values (an empty list of ids, or an
    expression one of whose fields is the empty array) makes [createFilter]
    throw, and [get] with it: the driver never answers such a query with
    the empty result. *)
Theorem get_empty_array_throws
    (toArray : Cursor -> list (list (string * Value)))
    (config : gmap string Tables.TableConfig) (name : string) (query : Query)
    (modifier : Modifier) :
  query = ByIds [] \/ (exists expr key, query = Full expr /\ Field key (QList []) ∈ expr) ->
  exists e, createFilter config name query = Throw e /\
            get toArray config name query modifier = Throw e.
Proof.
  intros Hq.
  assert (exists e, createFilter config name query = Throw e) as [e He].
  { unfold createFilter.
    destruct Hq as [-> | (expr & key & -> & Hin)]; simpl.
    - destruct (config !! name) as [c|]; [|eauto].
      simpl. eauto.
    - destruct (config !! name) as [c|]; [|eauto].
      assert (transformQuery expr = None) as -> by (apply transformQuery_undefined; eauto).
      eauto. }
  exists e. split; [exact He|]. unfold get. now rewrite He.
Qed.

Lemma get_empty_array_throws_witness :
  exists e, createFilter builtin "user" (ByIds []) = Throw e /\
            get (fun _ => []) builtin "user" (ByIds []) (FieldList ["id"]) = Throw e.
Proof.
  apply get_empty_array_throws. left. reflexivity.
Defined.

(** X14. On a configured table, an expression none of whose fields is an
    empty array gives a filter. If the expression constrains the primary
    key (under a name other than [_id]), the filter holds that constraint
    under [_id] and no longer under the primary key, and every other
    property as [transformQuery] built it; if it does not, the filter is
    what [transformQuery] built. *)
Theorem createFilter_renames_primary
    (config : gmap string Tables.TableConfig) (name : string)
    (c : Tables.TableConfig) (expr : list Entry) :
  config !! name = Some c ->
  (forall key, Field key (QList []) ∉ expr) ->
  exists g f,
    transformQuery expr = Some g /\
    createFilter config name (Full expr) = Ok f /\
    (property (Tables.tc_primary c) g = None -> f = g) /\
    (forall v, property (Tables.tc_primary c) g = Some v ->
               v <> FNot None -> Tables.tc_primary c <> "_id" ->
               property "_id" f = Some v /\
               property (Tables.tc_primary c) f = None /\
               forall k, k <> "_id" -> k <> Tables.tc_primary c ->
                         property k f = property k g).
Proof.
  intros Hc Hne.
  destruct (transformQuery expr) as [g|] eqn:Hg.
  2:{ apply transformQuery_undefined in Hg as [key Hin]. now destruct (Hne key). }
  unfold createFilter. simpl. rewrite Hc, Hg.
  destruct (property (Tables.tc_primary c) g) as [v|] eqn:Hp.
  2:{ exists g, g. split_and!; [reflexivity | reflexivity | intros _; reflexivity | intros; congruence]. }
  assert (v = FNot None \/ v <> FNot None) as [-> | Hv].
  { destruct v as [| | | |[]]; (left; reflexivity) || (right; discriminate). }
  { exists g, g. split_and!; [reflexivity | reflexivity | intros; congruence |].
    intros v' Hv' Hv. congruence. }
  exists g, (deleteProperty (Tables.tc_primary c) (assign "_id" v g)).
  split_and!.
  - reflexivity.
  - destruct v as [| | | |[]]; try reflexivity. now destruct Hv.
  - intros; congruence.
  - intros v' Hv' _ Hid. assert (v' = v) as -> by congruence. split_and!.
    + rewrite property_delete_ne by exact Hid. apply property_assign_eq.
    + apply property_delete_eq.
    + intros k Hk1 Hk2.
      rewrite property_delete_ne by congruence. apply property_assign_ne. congruence.
Qed.

Lemma createFilter_renames_primary_witness :
  exists g f,
    transformQuery [Field "id" (QValue (SString "a")); Field "flag" (QValue (SNumber 1))]
      = Some g /\
    createFilter builtin "user"
      (Full [Field "id" (QValue (SString "a")); Field "flag" (QValue (SNumber 1))]) = Ok f /\
    (property "id" g = None -> f = g) /\
    (forall v, property "id" g = Some v -> v <> FNot None -> "id" <> "_id" ->
               property "_id" f = Some v /\ property "id" f = None /\
               forall k, k <> "_id" -> k <> "id" -> property k f = property k g).
Proof.
  apply (createFilter_renames_primary builtin "user"
           (Tables.Build_TableConfig Tables.incremental "id" [] [] userFields)).
  - vm_compute. reflexivity.
  - intros key Hin. vm_compute in Hin.
    repeat (apply elem_of_cons in Hin as [Hin | Hin]; [discriminate|]).
    now apply elem_of_nil in Hin.
Defined.

(** X15. A query by one id, or by a non-empty array of ids, on a
    configured table gives the filter with the one property [_id]; but when
    the table's primary key is itself named [_id], the filter is empty: the
    condition is lost. *)
Theorem createFilter_by_id
    (config : gmap string Tables.TableConfig) (name : string)
    (c : Tables.TableConfig) :
  config !! name = Some c ->
  (forall v, createFilter config name (ById v) =
             Ok (if String.eqb (Tables.tc_primary c) "_id" then [] else [("_id", FEq v)])) /\
  (forall v vs, createFilter config name (ByIds (v :: vs)) =
                Ok (if String.eqb (Tables.tc_primary c) "_id" then []
                    else [("_id", FIn (v :: vs))])).
Proof.
  intros Hc. split; intros; unfold createFilter, resolve, transformQuery; rewrite Hc;
    cbn -[String.eqb]; rewrite String.eqb_refl;
    destruct (String.eqb (Tables.tc_primary c) "_id") eqn:E; cbn -[String.eqb];
    rewrite ?String.eqb_refl, ?E; cbn -[String.eqb];
    rewrite ?String.eqb_refl, ?(String.eqb_sym "_id"), ?E; reflexivity.
Qed.

Lemma createFilter_by_id_witness :
  (forall v, createFilter builtin "user" (ById v) = Ok [("_id", FEq v)]) /\
  (forall v vs, createFilter builtin "user" (ByIds (v :: vs)) = Ok [("_id", FIn (v :: vs))]).
Proof.
  apply (createFilter_by_id builtin "user"
           (Tables.Build_TableConfig Tables.incremental "id" [] [] userFields)).
  vm_compute. reflexivity.
Defined.

(** X16. [get] called without a list of fields (no modifier, or options
    without [fields]) throws whatever the table and the query: either
    [createFilter] throws, or the documents are fetched and
    [fields.includes] is then read off [undefined]. *)
Theorem get_without_fields_throws
    (toArray : Cursor -> list (list (string * Value)))
    (config : gmap string Tables.TableConfig) (name : string) (query : Query)
    (modifier : Modifier) :
  o_fields (resolveModifier modifier) = None ->
  exists e, get toArray config name query modifier = Throw e.
Proof.
  intros Hf. unfold get.
  destruct (createFilter config name query) as [f|e]; [|eauto].
  cbv zeta. rewrite Hf.
  destruct (config !! name); eauto.
Qed.

Lemma get_without_fields_throws_witness :
  exists e, get (fun _ => []) builtin "user" (ById (SString "a"))
              (ModifierOptions None (Some 10) None) = Throw e.
Proof.
  apply get_without_fields_throws. reflexivity.
Defined.

Lemma fillPrimary_other (primary k : string) (item : list (string * Value)) :
  k <> primary -> property k (fillPrimary primary item) = property k item.
Proof.
  intros Hk. unfold fillPrimary.
  destruct (property primary item) as [[]|];
    try reflexivity; apply property_assign_ne; congruence.
Qed.

(** Whether [??=] assigns: the property is missing, [undefined] or [null]. *)
Lemma fillPrimary_primary (primary : string) (item : list (string * Value)) :
  property primary (fillPrimary primary item) =
  match property primary item with
  | Some VUndefined | Some VNull | None => Some (default VUndefined (property "_id" item))
  | Some v => Some v
  end.
Proof.
  unfold fillPrimary.
  destruct (property primary item) as [[]|] eqn:E;
    try exact E; apply property_assign_eq.
Qed.

(** X17. When [get] returns, it was given a list of fields; the cursor it
    read was built from the filter of [createFilter], projected on those
    fields, skipping [offset] when that is not 0 and limited to
    [offset + limit] documents when [limit] is not 0; and it returns the
    documents of that cursor, in order, each with its properties as
    fetched, except that, when the primary key is among the fields, a
    document whose primary key is missing or null has it set to its
    [_id]. *)
Theorem get_returns_cursor_documents
    (toArray : Cursor -> list (list (string * Value)))
    (config : gmap string Tables.TableConfig) (name : string) (query : Query)
    (modifier : Modifier) (data : list (list (string * Value))) :
  get toArray config name query modifier = Ok data ->
  exists c fields filter,
    config !! name = Some c /\
    o_fields (resolveModifier modifier) = Some fields /\
    createFilter config name query = Ok filter /\
    let offset := default 0 (o_offset (resolveModifier modifier)) in
    let limit := default 0 (o_limit (resolveModifier modifier)) in
    let cursor :=
      {| c_filter := filter; c_project := Some fields;
         c_skip := if offset =? 0 then None else Some offset;
         c_limit := if limit =? 0 then None else Some (offset + limit) |} in
    Forall2 (fun item fetched =>
               (forall k, k <> Tables.tc_primary c -> property k item = property k fetched) /\
               (Tables.tc_primary c ∉ fields -> item = fetched) /\
               (Tables.tc_primary c ∈ fields ->
                property (Tables.tc_primary c) item =
                match property (Tables.tc_primary c) fetched with
                | Some VUndefined | Some VNull | None =>
                    Some (default VUndefined (property "_id" fetched))
                | Some v => Some v
                end))
            data (toArray cursor).
Proof.
  unfold get. intros Hget.
  destruct (createFilter config name query) as [filter|e]; [|discriminate].
  cbv zeta in Hget.
  destruct (config !! name) as [c|]; [|discriminate].
  destruct (o_fields (resolveModifier modifier)) as [fields|] eqn:Hf; [|discriminate].
  exists c, fields, filter. split_and!; try reflexivity.
  cbv zeta.
  assert ((if truthy (Some (default 0 (o_offset (resolveModifier modifier))))
           then Some (default 0 (o_offset (resolveModifier modifier))) else None)
          = if default 0 (o_offset (resolveModifier modifier)) =? 0 then None
            else Some (default 0 (o_offset (resolveModifier modifier)))) as Hskip.
  { unfold truthy. now destruct (_ =? 0). }
  assert ((if truthy (o_limit (resolveModifier modifier))
           then Some (default 0 (o_offset (resolveModifier modifier))
                      + default 0 (o_limit (resolveModifier modifier))) else None)
          = if default 0 (o_limit (resolveModifier modifier)) =? 0 then None
            else Some (default 0 (o_offset (resolveModifier modifier))
                       + default 0 (o_limit (resolveModifier modifier)))) as Hlimit.
  { unfold truthy. destruct (o_limit (resolveModifier modifier)) as [l|]; simpl.
    - now destruct (l =? 0).
    - reflexivity. }
  rewrite Hskip, Hlimit in Hget. clear Hskip Hlimit.
  match goal with |- Forall2 _ _ (toArray ?cur) => generalize dependent (toArray cur) end.
  intros fetched Hget.
  case_bool_decide as Hin; injection Hget as <-.
  - apply Forall2_fmap_l, Forall_Forall2_diag, Forall_forall. intros item _. split_and!.
    + intros k Hk. now apply fillPrimary_other.
    + intros Hnot. contradiction.
    + intros _. apply fillPrimary_primary.
  - apply Forall_Forall2_diag, Forall_forall. intros item _. split_and!.
    + reflexivity.
    + reflexivity.
    + intros Hyes. contradiction.
Qed.

Lemma get_returns_cursor_documents_witness :
  exists c fields filter,
    builtin !! "user" = Some c /\
    o_fields (resolveModifier (ModifierOptions (Some ["id"; "name"]) (Some 10) (Some 5)))
      = Some fields /\
    createFilter builtin "user" (ByRegExp "^a") = Ok filter /\
    Forall2 (fun item fetched =>
               (forall k, k <> Tables.tc_primary c -> property k item = property k fetched) /\
               (Tables.tc_primary c ∉ fields -> item = fetched) /\
               (Tables.tc_primary c ∈ fields ->
                property (Tables.tc_primary c) item =
                match property (Tables.tc_primary c) fetched with
                | Some VUndefined | Some VNull | None =>
                    Some (default VUndefined (property "_id" fetched))
                | Some v => Some v
                end))
            [[("_id", VString "ab"); ("name", VString "n"); ("id", VString "ab")]]
            ((fun cursor =>
                if bool_decide (c_limit cursor = Some 15 /\ c_skip cursor = Some 5)
                then [[("_id", VString "ab"); ("name", VString "n")]] else [])
               {| c_filter := filter; c_project := Some fields;
                  c_skip := Some 5; c_limit := Some 15 |}).
Proof.
  refine (get_returns_cursor_documents
           (fun cursor =>
              if bool_decide (c_limit cursor = Some 15 /\ c_skip cursor = Some 5)
              then [[("_id", VString "ab"); ("name", VString "n")]] else [])
           builtin "user" (ByRegExp "^a")
           (ModifierOptions (Some ["id"; "name"]) (Some 10) (Some 5))
           [[("_id", VString "ab"); ("name", VString "n"); ("id", VString "ab")]] _).
  vm_compute. reflexivity.
Defined.

(** ** Table declarations *)

(** X18. [Tables.extend] leaves the other tables as they are and, for the
    table it names, adds the new fields to the declared ones (a new
    definition replacing one of the same name) and the new unique keys
    after the declared ones; but the primary key and the id type are those
    of the new [meta], [id] and [incremental] when it gives none: what an
    earlier declaration set is not kept. *)
Theorem extend_merges_fields_resets_primary
    (name : string) (fields : list (string * Tables.FieldDef)) (meta : Tables.Meta)
    (config : gmap string Tables.TableConfig) :
  NoDup fields.*1 ->
  exists c,
    Tables.extend name fields meta config !! name = Some c /\
    Tables.tc_primary c = default "id" (Tables.m_primary meta) /\
    Tables.tc_type c = default Tables.incremental (Tables.m_type meta) /\
    Tables.tc_unique c =
      from_option Tables.tc_unique [] (config !! name) ++ default [] (Tables.m_unique meta) /\
    (forall k, property k (Tables.tc_fields c) =
               match property k fields with
               | Some d => Some d
               | None => property k (from_option Tables.tc_fields [] (config !! name))
               end) /\
    (NoDup (from_option Tables.tc_fields [] (config !! name)).*1 ->
     NoDup (Tables.tc_fields c).*1) /\
    forall other, other <> name ->
                  Tables.extend name fields meta config !! other = config !! other.
Proof.
  intros Hnd. unfold Tables.extend. eexists. split; [apply lookup_insert_eq|].
  cbn [Tables.tc_primary Tables.tc_type Tables.tc_unique Tables.tc_fields].
  split_and!; try reflexivity.
  - intros k. now apply property_spread.
  - apply NoDup_spread.
  - intros other Hne. now apply lookup_insert_ne.
Qed.

Lemma extend_merges_fields_resets_primary_witness :
  exists c,
    Tables.extend "user" [("id", fieldOf "integer" None None)] noMeta
      (Tables.extend "user" userFields
         {| Tables.m_type := Some Tables.random; Tables.m_primary := Some "name";
            Tables.m_unique := None; Tables.m_foreign := None |} ∅) !! "user" = Some c /\
    Tables.tc_primary c = "id" /\
    Tables.tc_type c = Tables.incremental /\
    Tables.tc_unique c = [] /\
    (forall k, property k (Tables.tc_fields c) =
               match property k [("id", fieldOf "integer" None None)] with
               | Some d => Some d
               | None => property k userFields
               end) /\
    (NoDup userFields.*1 -> NoDup (Tables.tc_fields c).*1) /\
    forall other, other <> "user" ->
                  Tables.extend "user" [("id", fieldOf "integer" None None)] noMeta
                    (Tables.extend "user" userFields
                       {| Tables.m_type := Some Tables.random;
                          Tables.m_primary := Some "name";
                          Tables.m_unique := None; Tables.m_foreign := None |} ∅) !! other
                  = Tables.extend "user" userFields
                      {| Tables.m_type := Some Tables.random;
                         Tables.m_primary := Some "name";
                         Tables.m_unique := None; Tables.m_foreign := None |} ∅ !! other.
Proof.
  refine (extend_merges_fields_resets_primary "user" [("id", fieldOf "integer" None None)]
            noMeta
            (Tables.extend "user" userFields
               {| Tables.m_type := Some Tables.random; Tables.m_primary := Some "name";
                  Tables.m_unique := None; Tables.m_foreign := None |} ∅) _).
  apply NoDup_singleton.
Defined.




(** ** Escaped counters *)

Lemma dotFree_replaceDots (key : string) : dotFree (replaceDots key) = true.
Proof.
  induction key as [|c rest IH]; [reflexivity|]. cbn [replaceDots dotFree].
  rewrite IH. destruct (Ascii.eqb c ".") eqn:E; [reflexivity|]. now rewrite E.
Qed.

Lemma replaceDots_not_date (key : string) :
  key <> "$date" -> replaceDots key <> "$date".
Proof.
  intros Hne Heq. apply Hne. clear Hne.
  assert (forall a b, (forall c, c ∈ list_ascii_of_string b -> c <> "_"%char) ->
                      replaceDots a = b -> a = b) as H.
  { clear. induction a as [|c a IH]; intros [|d b]; simpl; try discriminate; [reflexivity|].
    intros Hd [= Hc Hr].
    rewrite (IH b (fun x Hx => Hd x (list_elem_of_further _ _ _ Hx)) Hr). f_equal.
    destruct (Ascii.eqb c ".") eqn:E; [|exact Hc].
    exfalso. apply (Hd d); [left | now symmetry]. }
  apply H; [|exact Heq].
  intros c Hin. simpl in Hin.
  repeat (apply elem_of_cons in Hin as [-> | Hin]; [discriminate|]).
  now apply elem_of_nil in Hin.
Qed.

Lemma escaped_safe (key : string) : dotFree (escaped key) = true /\ escaped key <> "$date".
Proof.
  unfold escaped. destruct (String.eqb key "$date") eqn:E.
  - split; [reflexivity | discriminate].
  - apply String.eqb_neq in E. split; [apply dotFree_replaceDots | now apply replaceDots_not_date].
Qed.

Lemma escapeKeys_fold (counters obj : list (string * Z)) :
  foldl (fun obj kv =>
           if String.eqb kv.1 "$date" then assign "_date" kv.2 obj
           else assign (replaceDots kv.1) kv.2 obj) obj counters
  = spread obj (prod_map escaped id <$> counters).
Proof.
  revert obj. induction counters as [|[k v] counters IH]; intros obj; [reflexivity|].
  cbn [foldl fmap list_fmap]. rewrite spread_cons, IH. f_equal.
  unfold escaped. cbn [fst snd prod_map]. now destruct (String.eqb k "$date").
Qed.

Lemma spread_keys {V} (a b : list (string * V)) (k : string) :
  k ∈ (spread a b).*1 -> k ∈ a.*1 \/ k ∈ b.*1.
Proof.
  revert a. induction b as [|[k0 w] b IH]; intros a Hin; [now left|].
  rewrite spread_cons in Hin. apply IH in Hin as [Hin | Hin].
  - rewrite assign_keys in Hin. cbn [fst snd] in Hin. case_bool_decide.
    + now left.
    + apply elem_of_app in Hin as [Hin | Hin]; [now left|].
      apply list_elem_of_singleton in Hin. subst k. right. left.
  - right. right. exact Hin.
Qed.

(** X20. Whatever the keys of [timers] and [usage], every key of what
    [escapeKey] stores in their place is free of dots and is not [$date];
    the rest of the document is untouched. *)
Theorem escapeKey_keys_are_safe (doc : UserDoc) (counters : list (string * Z)) :
  u_timers (escapeKey doc) = Some counters \/ u_usage (escapeKey doc) = Some counters ->
  (forall k v, (k, v) ∈ counters -> dotFree k = true /\ k <> "$date") /\
  u_rest (escapeKey doc) = u_rest doc.
Proof.
  intros H. split; [|reflexivity].
  assert (exists source, counters = escapeKeys source) as [source ->].
  { unfold escapeKey in H. cbn [u_timers u_usage] in H.
    destruct H as [H | H].
    - destruct (u_timers doc) as [s|]; [|discriminate]. injection H as <-. eauto.
    - destruct (u_usage doc) as [s|]; [|discriminate]. injection H as <-. eauto. }
  intros k v Hin. unfold escapeKeys in Hin. rewrite escapeKeys_fold in Hin.
  assert (k ∈ (spread [] (prod_map escaped id <$> source)).*1) as Hk.
  { apply list_elem_of_fmap. exists (k, v). split; [reflexivity | exact Hin]. }
  apply spread_keys in Hk as [Hk | Hk]; [now apply elem_of_nil in Hk|].
  apply list_elem_of_fmap in Hk as ([k1 v1] & -> & Hk).
  apply list_elem_of_fmap in Hk as ([k2 v2] & [= -> ->] & _).
  apply escaped_safe.
Qed.

Lemma escapeKey_keys_are_safe_witness :
  (forall k v, (k, v) ∈ [("_date", 3); ("a_b_c", 7)] -> dotFree k = true /\ k <> "$date") /\
  u_rest (escapeKey {| u_timers := Some [("$date", 3); ("a.b.c", 7)]; u_usage := None;
                       u_rest := [("id", VString "u")] |})
  = [("id", VString "u")].
Proof.
  refine (escapeKey_keys_are_safe
            {| u_timers := Some [("$date", 3); ("a.b.c", 7)]; u_usage := None;
               u_rest := [("id", VString "u")] |} [("_date", 3); ("a_b_c", 7)] _).
  left. reflexivity.
Defined.

(** X21. A counter is stored under its escaped key ([_date] for [$date],
    dots replaced by underscores otherwise); if two keys escape to the same
    name, the one visited last is the one stored. *)
Theorem escapeKeys_stores_last (before after : list (string * Z)) (k : string) (v : Z) :
  escaped k ∉ (escaped <$> after.*1) ->
  property (escaped k) (escapeKeys (before ++ (k, v) :: after)) = Some v.
Proof.
  intros Hnot. unfold escapeKeys. rewrite escapeKeys_fold.
  rewrite fmap_app, fmap_cons. unfold spread. rewrite foldl_app. cbn [foldl prod_map fst snd id].
  generalize (foldl (fun obj kv => assign kv.1 kv.2 obj) []
                (prod_map escaped id <$> before)).
  intros obj.
  assert (property (escaped k) (assign (escaped k) v obj) = Some v) as Hhere
    by apply property_assign_eq.
  revert Hhere. generalize (assign (escaped k) v obj). clear obj.
  induction after as [|[k1 v1] after IH]; intros obj Hhere; [exact Hhere|].
  cbn [fmap list_fmap foldl prod_map fst snd id].
  csimpl in Hnot. apply not_elem_of_cons in Hnot as [Hne Hnot].
  apply (IH Hnot). rewrite property_assign_ne by congruence. exact Hhere.
Qed.

Lemma escapeKeys_stores_last_witness :
  property (escaped "a.b") (escapeKeys ([("a_b", 1)] ++ ("a.b", 2) :: [("c", 3)])) = Some 2.
Proof.
  apply (escapeKeys_stores_last [("a_b", 1)] [("c", 3)] "a.b" 2).
  vm_compute. intros Hin.
  repeat (apply elem_of_cons in Hin as [Hin | Hin]; [discriminate|]).
  now apply elem_of_nil in Hin.
Defined.

(** ** Creating a document *)

(** X22. On a table whose primary key is not named [_id], [create] stores
    a copy whose [_id] is the primary key of the document it returns, and
    whose other properties are those given. A document given without a
    primary key (missing or null) or with a truthy one reads back, once
    [get] has filled its primary key from [_id], with the primary key
    [create] returned. *)
Theorem create_stores_the_id_it_returns
    (latest : option Z) (randomId : string)
    (config : gmap string Tables.TableConfig) (name : string)
    (c : Tables.TableConfig) (data : list (string * Value)) :
  config !! name = Some c ->
  Tables.tc_primary c <> "_id" ->
  exists returned copy,
    create latest randomId config name data = Ok (returned, copy) /\
    property "_id" copy = property (Tables.tc_primary c) returned /\
    is_Some (property "_id" copy) /\
    (forall k, k <> "_id" -> k <> Tables.tc_primary c ->
               property k copy = property k data /\ property k returned = property k data) /\
    (isTruthy (property (Tables.tc_primary c) data) = true \/
     property (Tables.tc_primary c) data = None \/
     property (Tables.tc_primary c) data = Some VNull \/
     property (Tables.tc_primary c) data = Some VUndefined ->
     property (Tables.tc_primary c) (fillPrimary (Tables.tc_primary c) copy)
     = property (Tables.tc_primary c) returned).
Proof.
  intros Hc Hid. unfold create. rewrite Hc. cbv zeta.
  set (p := Tables.tc_primary c) in *.
  destruct (isTruthy (property p data)) eqn:Ht.
  - eexists _, _. split; [reflexivity|].
    destruct (property p data) as [v|] eqn:Hp; [|discriminate].
    assert (property "_id" (deleteProperty p (assign "_id" v data)) = Some v) as Hcopy.
    { rewrite property_delete_ne by exact Hid. apply property_assign_eq. }
    change (default VUndefined (Some v)) with v. split_and!.
    + exact Hcopy.
    + rewrite Hcopy. eauto.
    + intros k Hk1 Hk2. split; [|reflexivity].
      rewrite property_delete_ne by congruence. apply property_assign_ne. congruence.
    + intros _. rewrite fillPrimary_primary, property_delete_eq, Hcopy. reflexivity.
  - eexists _, _. split; [reflexivity|].
    match goal with |- context [assign "_id" ?i data] => generalize i end. intros id.
    split_and!.
    + now rewrite !property_assign_eq.
    + rewrite property_assign_eq. eauto.
    + intros k Hk1 Hk2. split; apply property_assign_ne; congruence.
    + intros Hnull. rewrite fillPrimary_primary.
      rewrite (property_assign_ne "_id" p) by congruence.
      rewrite !property_assign_eq.
      destruct Hnull as [H | [H | [H | H]]]; [congruence | | |]; now rewrite H.
Qed.

Lemma create_stores_the_id_it_returns_witness :
  exists returned copy,
    create (Some 41) "r" builtin "user" [("name", VString "n")] = Ok (returned, copy) /\
    property "_id" copy = property "id" returned /\
    is_Some (property "_id" copy) /\
    (forall k, k <> "_id" -> k <> "id" ->
               property k copy = property k [("name", VString "n")] /\
               property k returned = property k [("name", VString "n")]) /\
    (isTruthy (property "id" [("name", VString "n")]) = true \/
     property "id" [("name", VString "n")] = None \/
     property "id" [("name", VString "n")] = Some VNull \/
     property "id" [("name", VString "n")] = Some VUndefined ->
     property "id" (fillPrimary "id" copy) = property "id" returned).
Proof.
  refine (create_stores_the_id_it_returns (Some 41) "r" builtin "user"
            (Tables.Build_TableConfig Tables.incremental "id" [] [] userFields)
            [("name", VString "n")] _ _).
  - vm_compute. reflexivity.
  - discriminate.
Defined.

(** A primary key that is falsy but not null (here the number 0) is kept in
    the stored copy beside the new [_id], so the document reads back with
    the primary key 0 and not with the id [create] returned. *)
Example create_with_zero_id_reads_back_zero :
  create (Some 41) "r" builtin "user" [("id", VNumber 0)]
  = Ok ([("id", VNumber 42)], [("id", VNumber 0); ("_id", VNumber 42)]) /\
  property "id" (fillPrimary "id" [("id", VNumber 0); ("_id", VNumber 42)])
  = Some (VNumber 0).
Proof. split; vm_compute; reflexivity. Qed.

